(** * cp-linalg-lib: matrices, views and the QR-based algorithms

    A shallow embedding of [types/matrix.h] (the owning [Matrix], the
    read-only [ConstMatrixView]) and of the algorithms header
    ([GetWilkinsonShift], [GetSchurDecomposition], [BidiagonalAlgorithmQR]),
    followed by the properties proved about them.

    Conventions of the embedding.
    - [assert(e)] is a failure: every function that can trip an assertion
      returns an [option], [None] standing for the aborted run.
    - A view holds a pointer to its matrix; no function below mutates a
      matrix while a view on it is alive, so a view carries the matrix value.
    - The element type [T] is any type with the [FloatOrComplex] operations;
      [double] is the instance on the kernel's binary64 floats.
    - An index is the integer it stands for. The first definition of the
      matrix class computes on [std::size_t], modulo [2 ^ 64]; the second
      one on a signed [IndexType] of a width that is a parameter
      ([IndexLimits]), where a product of two indices the type cannot hold
      is a failure. *)

From Stdlib Require Import ZArith List Lia Bool Floats.
From stdpp Require Import base option list.

Local Open Scope Z_scope.

(** ** Element type *)

(** The operations the code applies to an element of type [T]
    (concept [utils::FloatOrComplex]): literals, arithmetic, negation, [operator==],
    [std::abs], [std::sqrt], [std::conj] and the compile-time test
    [utils::details::IsFloatComplexT<T>::value]. *)
Class FloatOrComplex (T : Type) : Type := {
  T_zero : T;
  T_one : T;
  T_two : T;
  T_add : T -> T -> T;
  T_sub : T -> T -> T;
  T_mul : T -> T -> T;
  T_div : T -> T -> T;
  T_opp : T -> T;
  T_eqb : T -> T -> bool;
  T_abs : T -> T;
  T_sqrt : T -> T;
  T_conj : T -> T;
  IsFloatComplexT : bool
}.

(** Modelled from the spec: the helpers of [utils/] ([IsEqualFloating],
    [IsZeroFloating], [Sign]) are not part of the sources; section 6 of the
    specification names them as a tolerance comparison, a tolerance zero test
    and a sign function. They are parameters of everything proved in general. *)
Class ElementUtils (T : Type) : Type := {
  IsEqualFloating : T -> T -> bool;
  IsZeroFloating : T -> bool;
  Sign : T -> T
}.

(** [T = double]: IEEE 754 binary64 arithmetic. *)
#[export] Instance double_FloatOrComplex : FloatOrComplex float := {|
  T_zero := 0%float;
  T_one := 1%float;
  T_two := 2%float;
  T_add := PrimFloat.add;
  T_sub := PrimFloat.sub;
  T_mul := PrimFloat.mul;
  T_div := PrimFloat.div;
  T_opp := PrimFloat.opp;
  T_eqb := PrimFloat.eqb;
  T_abs := PrimFloat.abs;
  T_sqrt := PrimFloat.sqrt;
  T_conj := fun x => x;
  IsFloatComplexT := false
|}.

(** Modelled from the spec: the tolerance of the comparisons. Its value is
    not in the sources; [2^-30] stands for it. *)
Definition double_epsilon : float := 0x1p-30%float.

(** Modelled from the spec: [utils::IsEqualFloating], [utils::IsZeroFloating]
    and [utils::Sign] on [double], the latter with values in [{-1, 0, 1}]. *)
#[export] Instance double_ElementUtils : ElementUtils float := {|
  IsEqualFloating := fun a b => PrimFloat.ltb (PrimFloat.abs (PrimFloat.sub a b)) double_epsilon;
  IsZeroFloating := fun a => PrimFloat.ltb (PrimFloat.abs a) double_epsilon;
  Sign := fun x =>
    if PrimFloat.ltb x 0%float then (-1)%float
    else if PrimFloat.ltb 0%float x then 1%float else 0%float
|}.

(** ** Control flow *)

(** [assert(e)]. *)
Definition assert (b : bool) : option unit := if b then Some tt else None.

(** [for (IndexType i = from; i < from + count; ++i) body], the state threaded
    through the iterations; an iteration that aborts aborts the loop. *)
Fixpoint for_loop {S : Type} (count : nat) (from : Z)
    (body : Z -> S -> option S) (s : S) : option S :=
  match count with
  | O => Some s
  | Datatypes.S count' =>
      match body from s with
      | Some s' => for_loop count' (from + 1) body s'
      | None => None
      end
  end.

(** ** [details::Types] *)

(** Modelled from the spec: [types_details.h] is not part of the sources.
    [IndexType] is a signed integer (the default segment is [{-1, -1}] and
    [MakeSegment] tests [seg.begin < 0]). A value of the type is the integer
    it stands for. *)
Definition IndexType : Type := Z.

(** Modelled from the spec: the width of [IndexType] is not in the sources
    either. [IndexType_max] is the largest value of the type; every property
    below holds whatever it is. *)
Class IndexLimits : Type := { IndexType_max : Z }.

(** The integers an [IndexType] holds. *)
Definition in_IndexType {IL : IndexLimits} (z : Z) : bool :=
  (- IndexType_max - 1 <=? z) && (z <=? IndexType_max).

(** [std::ptrdiff_t] of a 64-bit platform, for the evaluations. *)
Definition IndexType_64 : IndexLimits := {| IndexType_max := 2 ^ 63 - 1 |}.

(** [details::Types::Segment]: the half-open range [[begin, end)]. *)
Record Segment : Type := mkSegment { seg_begin : IndexType; seg_end : IndexType }.

(** [details::Types::MatrixState]. *)
Record MatrixState : Type := mkMatrixState { is_transposed : bool; is_conjugated : bool }.

(** [ConstMatrixView::MakeSegment]. *)
Definition MakeSegment (seg : Segment) (max_value : IndexType) : Segment :=
  let seg :=
    if (seg_end seg <=? 0) || (max_value <? seg_end seg)
    then mkSegment (seg_begin seg) max_value
    else seg in
  if (seg_end seg <=? seg_begin seg) || (max_value <=? seg_begin seg) || (seg_begin seg <? 0)
  then mkSegment 0 (seg_end seg)
  else seg.

(** ** The owning matrix ([class Matrix], second definition in
    [types/matrix.h]: a column count and a row-major buffer) *)

Record Matrix (T : Type) : Type := mkMatrix { cols_ : IndexType; buffer_ : list T }.
Arguments mkMatrix {T} _ _.
Arguments cols_ {T} _.
Arguments buffer_ {T} _.

(** [ConstMatrixView]: the viewed matrix, the two segments and the state. *)
Record ConstMatrixView (T : Type) : Type := mkConstMatrixView {
  ptr_ : Matrix T;
  row_ : Segment;
  column_ : Segment;
  state_ : MatrixState
}.
Arguments mkConstMatrixView {T} _ _ _ _.
Arguments ptr_ {T} _.
Arguments row_ {T} _.
Arguments column_ {T} _.
Arguments state_ {T} _.

Section MatrixModel.
Context {T : Type} {FC : FloatOrComplex T} {EU : ElementUtils T} {IL : IndexLimits}.

(** [buffer_.size()]. *)
Definition buffer_size (m : Matrix T) : Z := Z.of_nat (length (buffer_ m)).

(** [Matrix::CorrectSize]. *)
Definition CorrectSize (size : IndexType) : IndexType := Z.max 0 size.

(** [Matrix()]. *)
Definition Matrix_default : Matrix T := mkMatrix 0 [].

(** [Matrix(IndexType sq_size)]. The element count [cols_ * cols_] is the
    product of the integers: the matrix described is the one the call
    builds when that product is a value of [IndexType]. *)
Definition Matrix_square (sq_size : IndexType) : Matrix T :=
  let c := CorrectSize sq_size in
  mkMatrix c (replicate (Z.to_nat (c * c)) T_zero).

(** [Matrix(IndexType row_cnt, IndexType col_cnt, T value)]. The element
    count [cols_ * CorrectSize(row_cnt)] is the product of the integers, as
    for [Matrix_square]. *)
Definition Matrix_sized (row_cnt col_cnt : IndexType) (value : T) : Matrix T :=
  let c := CorrectSize col_cnt in
  mkMatrix (if row_cnt =? 0 then 0 else c)
           (replicate (Z.to_nat (c * CorrectSize row_cnt)) value).

(** [Matrix(std::initializer_list<std::initializer_list<T>>)]; the column
    count is read from the first row, which has to exist. *)
Definition Matrix_of_rows (rows : list (list T)) : option (Matrix T) :=
  match rows with
  | [] => None
  | first :: _ =>
      let cols := Z.of_nat (length first) in
      buf ← foldl (fun acc sublist =>
                     buf ← acc;
                     _ ← assert (Z.of_nat (length sublist) =? cols);
                     Some (buf ++ sublist)) (Some []) rows;
      Some (mkMatrix cols buf)
  end.

(** [Matrix::Rows]; sizes are never negative, so the quotient is the
    integer division of the code. *)
Definition Rows (m : Matrix T) : IndexType :=
  if cols_ m =? 0 then 0 else buffer_size m / cols_ m.

(** [Matrix::Columns]. *)
Definition Columns (m : Matrix T) : IndexType := cols_ m.

(** The assertion of [Matrix::operator()]: the linear index, converted to
    the unsigned type of [size()], is below the size. *)
Definition index_in_buffer (m : Matrix T) (k : Z) : bool :=
  (0 <=? k) && (k <? buffer_size m).

(** [T Matrix::operator()(row_idx, col_idx) const]. *)
Definition Matrix_at (m : Matrix T) (row_idx col_idx : IndexType) : option T :=
  let k := Columns m * row_idx + col_idx in
  _ ← assert (index_in_buffer m k);
  buffer_ m !! Z.to_nat k.

(** [T &Matrix::operator()(row_idx, col_idx)] followed by an assignment. *)
Definition Matrix_set (m : Matrix T) (row_idx col_idx : IndexType) (value : T)
    : option (Matrix T) :=
  let k := Columns m * row_idx + col_idx in
  _ ← assert (index_in_buffer m k);
  Some (mkMatrix (cols_ m) (<[Z.to_nat k := value]> (buffer_ m))).

(** [std::vector<T>::operator==]: same length and [==] elements. *)
Fixpoint vector_eq (a b : list T) : bool :=
  match a, b with
  | [], [] => true
  | x :: a', y :: b' => T_eqb x y && vector_eq a' b'
  | _, _ => false
  end.

(** [operator==(const Matrix &, const Matrix &)]. *)
Definition Matrix_eq (lhs rhs : Matrix T) : bool :=
  vector_eq (buffer_ lhs) (buffer_ rhs).

(** ** The read-only view *)

(** [ConstMatrixView(matrix, row, col, state)]. *)
Definition ConstMatrixView_new (matrix : Matrix T) (row col : Segment)
    (state : MatrixState) : ConstMatrixView T :=
  mkConstMatrixView matrix
    (MakeSegment row (if is_transposed state then Columns matrix else Rows matrix))
    (MakeSegment col (if is_transposed state then Rows matrix else Columns matrix))
    state.

(** The default arguments [{-1, -1}] and [{false, false}]. *)
Definition default_segment : Segment := mkSegment (-1) (-1).
Definition default_state : MatrixState := mkMatrixState false false.

(** [Matrix::View() const]. *)
Definition View (m : Matrix T) : ConstMatrixView T :=
  ConstMatrixView_new m default_segment default_segment default_state.

(** [ConstMatrixView::Rows], [ConstMatrixView::Columns]. *)
Definition View_Rows (v : ConstMatrixView T) : IndexType :=
  seg_end (row_ v) - seg_begin (row_ v).
Definition View_Columns (v : ConstMatrixView T) : IndexType :=
  seg_end (column_ v) - seg_begin (column_ v).

(** [T ConstMatrixView::operator()(row_idx, col_idx) const]. *)
Definition View_at (v : ConstMatrixView T) (row_idx col_idx : IndexType) : option T :=
  let rb := seg_begin (row_ v) in
  let cb := seg_begin (column_ v) in
  if IsFloatComplexT then
    if is_transposed (state_ v) && is_conjugated (state_ v) then
      T_conj <$> Matrix_at (ptr_ v) (rb + col_idx) (cb + row_idx)
    else if is_transposed (state_ v) then
      Matrix_at (ptr_ v) (rb + col_idx) (cb + row_idx)
    else if is_conjugated (state_ v) then
      T_conj <$> Matrix_at (ptr_ v) (rb + row_idx) (cb + col_idx)
    else Matrix_at (ptr_ v) (rb + row_idx) (cb + col_idx)
  else if is_transposed (state_ v) then
    Matrix_at (ptr_ v) (rb + col_idx) (cb + row_idx)
  else Matrix_at (ptr_ v) (rb + row_idx) (cb + col_idx).

(** [ConstMatrixView::ApplyToEach(ConstFunctionIndexes)], the captured
    variables of the callback being the threaded state. *)
Definition View_ApplyToEach {S : Type} (v : ConstMatrixView T)
    (func : T -> IndexType -> IndexType -> S -> option S) (s : S) : option S :=
  for_loop (Z.to_nat (View_Rows v)) 0 (fun i s =>
    for_loop (Z.to_nat (View_Columns v)) 0 (fun j s =>
      val ← View_at v i j; func val i j s) s) s.

(** [operator==(const ConstMatrixView &, const ConstMatrixView &)]. The
    [return] of the callback leaves the callback only: every element of both
    operands is read. *)
Definition View_eq (lhs rhs : ConstMatrixView T) : option bool :=
  if negb (View_Rows lhs =? View_Rows rhs) || negb (View_Columns lhs =? View_Columns rhs)
  then Some false
  else View_ApplyToEach lhs (fun val i j is_equal =>
         r ← View_at rhs i j;
         Some (if negb (IsEqualFloating val r) then false else is_equal)) true.

(** [operator==(const Matrix &, const ConstMatrixView<T> &)]. *)
Definition Matrix_eq_View (lhs : Matrix T) (rhs : ConstMatrixView T) : option bool :=
  View_eq (View lhs) rhs.

(** The element-wise rounding of [RoundZeroes]. *)
Definition round_zero (el : T) : T := if IsZeroFloating el then T_zero else el.

(** Modelled from the spec: [Matrix::RoundZeroes] forwards to
    [MatrixView::RoundZeroes], which is not part of the sources; every
    element that passes the zero test becomes [T{0}] (section 4.2), as the
    first definition of the class does in place. *)
Definition RoundZeroes (m : Matrix T) : Matrix T :=
  mkMatrix (cols_ m) (map round_zero (buffer_ m)).

(** The innermost loop of the product: [sum += lhs(i, k) * rhs(k, j)]. *)
Definition dot (lhs rhs : ConstMatrixView T) (i j : IndexType) : option T :=
  for_loop (Z.to_nat (View_Columns lhs)) 0 (fun k sum =>
    a ← View_at lhs i k;
    b ← View_at rhs k j;
    Some (T_add sum (T_mul a b))) T_zero.

(** [operator*(const ConstMatrixView &, const ConstMatrixView &)]. *)
Definition View_mul (lhs rhs : ConstMatrixView T) : option (Matrix T) :=
  _ ← assert (View_Columns lhs =? View_Rows rhs);
  if (View_Rows lhs =? 0) || (View_Columns rhs =? 0) then Some Matrix_default
  else
    result ← for_loop (Z.to_nat (View_Rows lhs)) 0 (fun i result =>
      for_loop (Z.to_nat (View_Columns rhs)) 0 (fun j result =>
        sum ← dot lhs rhs i j;
        Matrix_set result i j sum) result)
      (Matrix_sized (View_Rows lhs) (View_Columns rhs) T_zero);
    Some (RoundZeroes result).

(** [operator*(const Matrix &, const Matrix &)]. *)
Definition Matrix_mul (lhs rhs : Matrix T) : option (Matrix T) :=
  View_mul (View lhs) (View rhs).

(** [ConstMatrixView::GetRow]. *)
Definition View_GetRow (v : ConstMatrixView T) (index : IndexType)
    : option (ConstMatrixView T) :=
  _ ← assert (index <? View_Rows v);
  Some (ConstMatrixView_new (ptr_ v)
          (mkSegment (seg_begin (row_ v) + index) (seg_begin (row_ v) + index + 1))
          (mkSegment (seg_begin (column_ v)) (seg_end (column_ v)))
          (state_ v)).

(** [ConstMatrixView::GetColumn]. *)
Definition View_GetColumn (v : ConstMatrixView T) (index : IndexType)
    : option (ConstMatrixView T) :=
  _ ← assert (index <? View_Columns v);
  Some (ConstMatrixView_new (ptr_ v)
          (mkSegment (seg_begin (row_ v)) (seg_end (row_ v)))
          (mkSegment (seg_begin (column_ v) + index) (seg_begin (column_ v) + index + 1))
          (state_ v)).

(** [ConstMatrixView::GetSubmatrix]. *)
Definition View_GetSubmatrix (v : ConstMatrixView T) (row col : Segment)
    : option (ConstMatrixView T) :=
  let r := MakeSegment row (View_Rows v) in
  let c := MakeSegment col (View_Columns v) in
  _ ← assert (seg_begin (row_ v) + seg_begin r <? View_Rows v);
  _ ← assert (seg_begin (row_ v) + seg_end r <=? View_Rows v);
  _ ← assert (seg_begin (column_ v) + seg_begin c <? View_Columns v);
  _ ← assert (seg_begin (column_ v) + seg_end c <=? View_Columns v);
  Some (ConstMatrixView_new (ptr_ v)
          (mkSegment (seg_begin (row_ v) + seg_begin r) (seg_begin (row_ v) + seg_end r))
          (mkSegment (seg_begin (column_ v) + seg_begin c) (seg_begin (column_ v) + seg_end c))
          (state_ v)).

(** [Matrix::Transposed(const ConstMatrixView<T> &)]. *)
Definition Transposed (rhs : ConstMatrixView T) : ConstMatrixView T :=
  ConstMatrixView_new (ptr_ rhs) (column_ rhs) (row_ rhs)
    (mkMatrixState (negb (is_transposed (state_ rhs))) (is_conjugated (state_ rhs))).

(** [Matrix::Conjugated(const ConstMatrixView<T> &)]. *)
Definition Conjugated (rhs : ConstMatrixView T) : ConstMatrixView T :=
  ConstMatrixView_new (ptr_ rhs) (column_ rhs) (row_ rhs)
    (mkMatrixState (negb (is_transposed (state_ rhs))) (negb (is_conjugated (state_ rhs)))).

(** ** In-place transposition *)

(** [std::swap(buffer_[a], buffer_[b])]; an index outside the buffer is
    undefined behaviour and is reported as a failure. *)
Definition swap_at (buf : list T) (a b : Z) : option (list T) :=
  _ ← assert ((0 <=? a) && (0 <=? b));
  x ← buf !! Z.to_nat a;
  y ← buf !! Z.to_nat b;
  Some (<[Z.to_nat b := x]> (<[Z.to_nat a := y]> buf)).

(** [visited[k] = true]. *)
Definition mark (visited : list bool) (k : Z) : option (list bool) :=
  _ ← assert ((0 <=? k) && (k <? Z.of_nat (length visited)));
  Some (<[Z.to_nat k := true]> visited).

(** The index the cycle moves to: [(swap_idx == last_idx) ? last_idx :
    (Rows() * swap_idx) % last_idx]. The product is one of [IndexType]: a
    product the type cannot hold is undefined behaviour and is reported as
    a failure. *)
Definition next_idx (rows last_idx swap_idx : IndexType) : option IndexType :=
  if swap_idx =? last_idx then Some last_idx
  else
    _ ← assert (in_IndexType (rows * swap_idx));
    Some (Z.rem (rows * swap_idx) last_idx).

(** The [do { ... } while (swap_idx != i)] loop of [Transpose]; [fuel]
    bounds the number of iterations. *)
Fixpoint follow_cycle (fuel : nat) (rows last_idx i swap_idx : IndexType)
    (st : list T * list bool) : option (list T * list bool) :=
  match fuel with
  | O => None
  | Datatypes.S fuel' =>
      swap_idx ← next_idx rows last_idx swap_idx;
      buf ← swap_at (fst st) swap_idx i;
      vis ← mark (snd st) swap_idx;
      if swap_idx =? i then Some (buf, vis)
      else follow_cycle fuel' rows last_idx i swap_idx (buf, vis)
  end.

(** The body of the outer loop of [Transpose]. *)
Definition Transpose_step (fuel : nat) (rows last_idx : IndexType) (i : IndexType)
    (st : list T * list bool) : option (list T * list bool) :=
  v ← snd st !! Z.to_nat i;
  if (v : bool) then Some st
  else follow_cycle fuel rows last_idx i i st.

(** [Matrix::Transpose]. Every cycle visits fresh indices only, so the
    buffer size bounds the iterations of each [do]-[while]. [last_idx] is
    [buffer_.size() - 1] as an [IndexType]. *)
Definition Transpose (m : Matrix T) : option (Matrix T) :=
  let n := length (buffer_ m) in
  let last_idx := buffer_size m - 1 in
  st ← for_loop (n - 1) 1 (Transpose_step (Datatypes.S n) (Rows m) last_idx)
         (buffer_ m, replicate n false);
  Some (mkMatrix (Rows m) (fst st)).

(** Modelled from the spec: the element-wise pass of [Matrix::Conjugate]
    goes through [MatrixView::ApplyToEach], which is not part of the
    sources; it conjugates every element (section 4.1), as the first
    definition of the class does in place. The rest is the source's:
    [Transpose], then the pass when the element type is complex. *)
Definition Conjugate (m : Matrix T) : option (Matrix T) :=
  m' ← Transpose m;
  Some (if IsFloatComplexT then mkMatrix (cols_ m') (map T_conj (buffer_ m')) else m').

End MatrixModel.

(** ** Construction from a view, diagonals and the forwarding members *)

Section MatrixModelMore.
Context {T : Type} {FC : FloatOrComplex T} {EU : ElementUtils T}.

(** [Matrix(const ConstMatrixView<T> &rhs)]: a zero matrix of the shape of
    the view, then the assignment of every element of the view to the
    element of the same coordinates. *)
Definition Matrix_of_view (rhs : ConstMatrixView T) : option (Matrix T) :=
  View_ApplyToEach rhs (fun val i j this => Matrix_set this i j val)
    (Matrix_sized (View_Rows rhs) (View_Columns rhs) T_zero).

(** [ConstMatrixView::ApplyToEach(ConstFunction)]. *)
Definition View_ApplyToEach_values {S : Type} (v : ConstMatrixView T)
    (func : T -> S -> option S) (s : S) : option S :=
  for_loop (Z.to_nat (View_Rows v)) 0 (fun i s =>
    for_loop (Z.to_nat (View_Columns v)) 0 (fun j s =>
      val ← View_at v i j; func val s) s) s.

(** [ConstMatrixView::GetDiag]. *)
Definition View_GetDiag (v : ConstMatrixView T) : option (Matrix T) :=
  let size := Z.min (View_Rows v) (View_Columns v) in
  for_loop (Z.to_nat size) 0 (fun i res => x ← View_at v i i; Matrix_set res i 0 x)
    (Matrix_sized size 1 T_zero).

(** [Matrix::Diagonal(const ConstMatrixView<T> &vec)]. *)
Definition Diagonal (vec : ConstMatrixView T) : option (Matrix T) :=
  _ ← assert ((View_Rows vec =? 1) || (View_Columns vec =? 1));
  View_ApplyToEach vec
    (fun val i j res => let idx := Z.max i j in Matrix_set res idx idx val)
    (Matrix_square (Z.max (View_Rows vec) (View_Columns vec))).

(** [Matrix::GetRow], [Matrix::GetColumn], [Matrix::GetSubmatrix] (the
    [const] overloads), [Matrix::GetDiag] and [Matrix::Diagonal(const Matrix &)]
    forward to the view of the whole matrix. *)
Definition Matrix_GetRow (m : Matrix T) (index : IndexType) : option (ConstMatrixView T) :=
  View_GetRow (View m) index.
Definition Matrix_GetColumn (m : Matrix T) (index : IndexType) : option (ConstMatrixView T) :=
  View_GetColumn (View m) index.
Definition Matrix_GetSubmatrix (m : Matrix T) (row col : Segment)
    : option (ConstMatrixView T) :=
  View_GetSubmatrix (View m) row col.
Definition Matrix_Diagonal (vec : Matrix T) : option (Matrix T) := Diagonal (View vec).

End MatrixModelMore.

(** ** The self-contained matrix ([class Matrix], first definition in
    [types/matrix.h]: a row count and a row-major buffer, indices of type
    [std::size_t]). The algorithms header is written against this
    interface: [Copy], [Identity(size, value)], the four-index
    [GetSubmatrix]. *)

Module Legacy.

(** Arithmetic of [std::size_t]: 64 bits, wrapping. *)
Definition wrap (z : Z) : Z := z mod 2 ^ 64.

Record Matrix (T : Type) : Type := mkMatrix { rows_ : Z; buffer_ : list T }.
Arguments mkMatrix {T} _ _.
Arguments rows_ {T} _.
Arguments buffer_ {T} _.

Section LegacyModel.
Context {T : Type} {FC : FloatOrComplex T} {EU : ElementUtils T}.

Definition buffer_size (m : Matrix T) : Z := Z.of_nat (length (buffer_ m)).

(** [Matrix::Rows], [Matrix::Columns]. *)
Definition Rows (m : Matrix T) : Z := rows_ m.
Definition Columns (m : Matrix T) : Z :=
  if rows_ m =? 0 then 0 else buffer_size m / rows_ m.

(** [T Matrix::operator()(row_idx, col_idx) const]. *)
Definition Matrix_at (m : Matrix T) (row_idx col_idx : Z) : option T :=
  let k := wrap (Columns m * row_idx + col_idx) in
  _ ← assert (k <? buffer_size m);
  buffer_ m !! Z.to_nat k.

(** [T &Matrix::operator()(row_idx, col_idx)] followed by an assignment. *)
Definition Matrix_set (m : Matrix T) (row_idx col_idx : Z) (value : T)
    : option (Matrix T) :=
  let k := wrap (Columns m * row_idx + col_idx) in
  _ ← assert (k <? buffer_size m);
  Some (mkMatrix (rows_ m) (<[Z.to_nat k := value]> (buffer_ m))).

(** [Matrix(IndexType sq_size)]. *)
Definition Matrix_square (sq_size : Z) : option (Matrix T) :=
  let m := mkMatrix sq_size (replicate (Z.to_nat (wrap (sq_size * sq_size))) T_zero) in
  _ ← assert (0 <? Rows m);
  Some m.

(** [Matrix(IndexType row_cnt, IndexType col_cnt, T value)]. *)
Definition Matrix_sized (row_cnt col_cnt : Z) (value : T) : option (Matrix T) :=
  let m := mkMatrix row_cnt (replicate (Z.to_nat (wrap (row_cnt * col_cnt))) value) in
  _ ← assert (0 <? Rows m);
  _ ← assert (0 <? Columns m);
  Some m.

(** [Matrix(const Data &diag)]. *)
Definition Matrix_diag (diag : list T) : option (Matrix T) :=
  let n := Z.of_nat (length diag) in
  let m := mkMatrix n (replicate (Z.to_nat (wrap (n * n))) T_zero) in
  _ ← assert (0 <? Rows m);
  snd <$> foldl (fun acc value =>
                   '(idx, m) ← acc;
                   m' ← Matrix_set m idx idx value;
                   Some (idx + 1, m')) (Some (0, m)) diag.

(** [Matrix::Identity(size, default_value)]. *)
Definition Identity (size : Z) (default_value : T) : option (Matrix T) :=
  Matrix_diag (replicate (Z.to_nat size) default_value).

(** [Matrix::Copy]. *)
Definition Copy (m : Matrix T) : Matrix T := m.

(** [Matrix::ApplyToEach(FunctionIndexes)], the callback returning the new
    value of the element it is given by reference. *)
Definition ApplyToEach_idx (m : Matrix T) (func : T -> Z -> Z -> option T)
    : option (Matrix T) :=
  if (Columns m =? 0) || (Rows m =? 0) then Some m
  else
    buf ← for_loop (length (buffer_ m)) 0 (fun i buf =>
             x ← buf !! Z.to_nat i;
             y ← func x (i / Columns m) (i mod Columns m);
             Some (<[Z.to_nat i := y]> buf)) (buffer_ m);
    Some (mkMatrix (rows_ m) buf).

(** [Matrix::ApplyToEach(ConstFunctionIndexes) const], the captured
    variables of the callback being the threaded state. *)
Definition ApplyToEach_const {S : Type} (m : Matrix T)
    (func : T -> Z -> Z -> S -> option S) (s : S) : option S :=
  if (Columns m =? 0) || (Rows m =? 0) then Some s
  else
    for_loop (length (buffer_ m)) 0 (fun i s =>
      x ← buffer_ m !! Z.to_nat i;
      func x (i / Columns m) (i mod Columns m) s) s.

(** [operator-=] and [operator-]. *)
Definition Matrix_sub (lhs rhs : Matrix T) : option (Matrix T) :=
  _ ← assert (Rows lhs =? Rows rhs);
  _ ← assert (Columns lhs =? Columns rhs);
  ApplyToEach_idx lhs (fun val i j => r ← Matrix_at rhs i j; Some (T_sub val r)).

(** [operator+=] and [operator+]. *)
Definition Matrix_add (lhs rhs : Matrix T) : option (Matrix T) :=
  _ ← assert (Rows lhs =? Rows rhs);
  _ ← assert (Columns lhs =? Columns rhs);
  ApplyToEach_idx lhs (fun val i j => r ← Matrix_at rhs i j; Some (T_add val r)).

(** The innermost loop of the product. *)
Definition dot (lhs rhs : Matrix T) (i j : Z) : option T :=
  for_loop (Z.to_nat (Columns lhs)) 0 (fun k sum =>
    a ← Matrix_at lhs i k;
    b ← Matrix_at rhs k j;
    Some (T_add sum (T_mul a b))) T_zero.

(** [operator*(const F &lhs, const S &rhs)]. *)
Definition Matrix_mul (lhs rhs : Matrix T) : option (Matrix T) :=
  _ ← assert (Columns lhs =? Rows rhs);
  result ← Matrix_sized (Rows lhs) (Columns rhs) T_zero;
  for_loop (Z.to_nat (Rows lhs)) 0 (fun i result =>
    for_loop (Z.to_nat (Columns rhs)) 0 (fun j result =>
      sum ← dot lhs rhs i j;
      Matrix_set result i j sum) result) result.

(** [operator==(const Matrix &lhs, const M &rhs)]; [&&] reads [rhs] only
    while [is_equal] still holds. *)
Definition Matrix_eq (lhs rhs : Matrix T) : option bool :=
  if negb (Rows lhs =? Rows rhs) || negb (Columns lhs =? Columns rhs) then Some false
  else ApplyToEach_const lhs (fun val i j (is_equal : bool) =>
         if is_equal then r ← Matrix_at rhs i j; Some (IsEqualFloating val r)
         else Some false) true.

(** [Matrix::RoundZeroes]. *)
Definition RoundZeroes (m : Matrix T) : Matrix T :=
  mkMatrix (rows_ m) (map round_zero (buffer_ m)).

(** The assertions of [Matrix::GetSubmatrix(r_from, r_to, c_from, c_to)];
    the view it returns is of a class that is not part of the sources. *)
Definition GetSubmatrix_checks (m : Matrix T) (r_from r_to c_from c_to : Z)
    : option unit :=
  _ ← assert ((0 <=? r_from) && (r_to <=? Rows m));
  _ ← assert (r_from <? r_to);
  _ ← assert ((0 <=? c_from) && (c_to <=? Columns m));
  assert (c_from <? c_to).

(** *** The algorithms header *)

(** [GetWilkinsonShift(const Matrix<T> &)]: the view it forwards reads the
    matrix itself. *)
Definition GetWilkinsonShift (matrix : Matrix T) : option T :=
  _ ← assert (Rows matrix =? 2);
  _ ← assert (Columns matrix =? 2);
  m00 ← Matrix_at matrix 0 0;
  m01 ← Matrix_at matrix 0 1;
  m10 ← Matrix_at matrix 1 0;
  m11 ← Matrix_at matrix 1 1;
  _ ← assert (T_eqb m01 m10);
  let d := T_div (T_sub m00 m11) T_two in
  let coefficient := T_add (T_abs d) (T_sqrt (T_add (T_mul d d) (T_mul m01 m01))) in
  Some (T_sub m11 (T_div (T_mul (T_mul (Sign d) m01) m01) coefficient)).

Section Schur.
(** [utils::IsHermitian] and [HouseholderQR] are not part of the sources;
    the iteration is defined for any such pair. *)
Variable IsHermitian : Matrix T -> bool.
Variable HouseholderQR : Matrix T -> Matrix T * Matrix T.

(** One pass of the loop of [GetSchurDecomposition]. *)
Definition Schur_step (shift_I copy : Matrix T) : option (Matrix T) :=
  d ← Matrix_sub copy shift_I;
  let '(Q, R) := HouseholderQR d in
  p ← Matrix_mul R Q;
  s ← Matrix_add p shift_I;
  Some (RoundZeroes s).

(** [GetSchurDecomposition(const Matrix<T> &, std::size_t it_cnt)]. *)
Definition GetSchurDecomposition (matrix : Matrix T) (it_cnt : nat) : option (Matrix T) :=
  _ ← assert (IsHermitian matrix);
  let copy := Copy matrix in
  _ ← GetSubmatrix_checks copy (wrap (Rows copy - 2)) (Rows copy)
                               (wrap (Columns copy - 2)) (Columns copy);
  let shift := T_zero in
  shift_I ← Identity (Rows copy) shift;
  for_loop it_cnt 0 (fun _ copy => Schur_step shift_I copy) copy.

(** Plain QR iteration: factor, multiply in reverse order, round. *)
Definition unshifted_step (A : Matrix T) : option (Matrix T) :=
  let '(Q, R) := HouseholderQR A in
  p ← Matrix_mul R Q;
  Some (RoundZeroes p).

Definition unshifted_iteration (A : Matrix T) (it_cnt : nat) : option (Matrix T) :=
  for_loop it_cnt 0 (fun _ A => unshifted_step A) A.

End Schur.

(** Modelled from the spec: [utils::IsHermitian], a square matrix whose
    element [(i, j)] equals, within tolerance, the conjugate of its element
    [(j, i)]. *)
Definition utils_IsHermitian (m : Matrix T) : bool :=
  (Rows m =? Columns m)
  && default false
       (ApplyToEach_const m (fun val i j (ok : bool) =>
          r ← Matrix_at m j i; Some (ok && IsEqualFloating val (T_conj r))) true).

(** A factorisation that is exact on upper-triangular input: the unit
    matrix of the input's shape and the input itself. *)
Definition unit_factor (m : Matrix T) : Matrix T :=
  mkMatrix (rows_ m)
    (map (fun k => if k / rows_ m =? k mod rows_ m then T_one else T_zero)
         (seqZ 0 (buffer_size m))).
Definition triangular_QR (m : Matrix T) : Matrix T * Matrix T := (unit_factor m, m).

(** *** Givens rotations *)

(** Modelled from the spec: [givens.h] is not part of the sources. Section
    4.4: for the values [a], [b], [r = sqrt(|a|^2 + |b|^2)], [c = a / r],
    [s = b / r], the rotation being the identity ([c = 1], [s = 0]) when [r]
    is zero. *)
Definition givens_coefficients (a b : T) : T * T :=
  let r := T_sqrt (T_add (T_mul (T_abs a) (T_abs a)) (T_mul (T_abs b) (T_abs b))) in
  if IsZeroFloating r then (T_one, T_zero) else (T_div a r, T_div b r).

(** Modelled from the spec: the rotation [[c, s], [-conj(s), c]] of section
    4.4 applied to a pair of elements. *)
Definition rotate (c s x y : T) : T * T :=
  (T_add (T_mul c x) (T_mul s y),
   T_add (T_mul (T_opp (T_conj s)) x) (T_mul c y)).

(** Modelled from the spec: [GivensLeftRotation(M, f, s, a, b)] applies the
    rotation to the rows [f] and [s] of [M], in every column. *)
Definition GivensLeftRotation (m : Matrix T) (f_row s_row : Z) (a b : T)
    : option (Matrix T) :=
  let '(c, s) := givens_coefficients a b in
  for_loop (Z.to_nat (Columns m)) 0 (fun k m =>
    x ← Matrix_at m f_row k;
    y ← Matrix_at m s_row k;
    m ← Matrix_set m f_row k (fst (rotate c s x y));
    Matrix_set m s_row k (snd (rotate c s x y))) m.

(** Modelled from the spec: [GivensRightRotation(M, f, s, a, b)] applies the
    rotation to the columns [f] and [s] of [M], in every row. *)
Definition GivensRightRotation (m : Matrix T) (f_col s_col : Z) (a b : T)
    : option (Matrix T) :=
  let '(c, s) := givens_coefficients a b in
  for_loop (Z.to_nat (Rows m)) 0 (fun k m =>
    x ← Matrix_at m k f_col;
    y ← Matrix_at m k s_col;
    m ← Matrix_set m k f_col (fst (rotate c s x y));
    Matrix_set m k s_col (snd (rotate c s x y))) m.

(** *** The bidiagonal sweep *)

(** [struct DiagBasisQR]. *)
Record DiagBasisQR : Type := mkDiagBasisQR { U : Matrix T; diag : Matrix T; VT : Matrix T }.

(** The block [BB] a sweep computes the shift from; [minor(i, j)] reads
    [S(r - 2 + i, c - 2 + j)]. *)
Definition Gram_block (S : Matrix T) (r c : Z) : option (Matrix T) :=
  _ ← GetSubmatrix_checks S (r - 2) r (c - 2) c;
  BB ← Matrix_square 2;
  minor00 ← Matrix_at S (r - 2) (c - 2);
  minor01 ← Matrix_at S (r - 2) (c - 2 + 1);
  minor11 ← Matrix_at S (r - 2 + 1) (c - 2 + 1);
  prev ← (if 3 <=? r then x ← Matrix_at S (r - 3) (c - 2); Some (T_mul x x)
          else Some T_zero);
  BB ← Matrix_set BB 0 0 (T_add (T_mul minor00 minor00) prev);
  BB ← Matrix_set BB 1 0 (T_mul minor00 minor01);
  bb10 ← Matrix_at BB 1 0;
  BB ← Matrix_set BB 0 1 bb10;
  Matrix_set BB 1 1 (T_add (T_mul minor01 minor01) (T_mul minor11 minor11)).

(** The body of the inner [for] loop of a sweep. *)
Definition chase (shift : T) (i : Z) (st : DiagBasisQR) : option DiagBasisQR :=
  st ← (if i + 1 <? Columns (diag st) then
          let S := diag st in
          f_elem ← (if 0 <? i then Matrix_at S (i - 1) i
                    else s00 ← Matrix_at S 0 0; Some (T_sub (T_mul s00 s00) shift));
          s_elem ← (if 0 <? i then Matrix_at S (i - 1) (i + 1)
                    else s01 ← Matrix_at S 0 1; s00 ← Matrix_at S 0 0;
                         Some (T_mul s01 s00));
          VT' ← GivensLeftRotation (VT st) i (i + 1) f_elem s_elem;
          S' ← GivensRightRotation S i (i + 1) f_elem s_elem;
          Some (mkDiagBasisQR (U st) S' VT')
        else Some st);
  if i + 1 <? Rows (diag st) then
    let S := diag st in
    a ← Matrix_at S i i;
    b ← Matrix_at S (i + 1) i;
    U' ← GivensRightRotation (U st) i (i + 1) a b;
    S' ← GivensLeftRotation S i (i + 1) a b;
    Some (mkDiagBasisQR U' S' (VT st))
  else Some st.

(** One pass of the [while (it_cnt--)] loop. *)
Definition sweep (r c size : Z) (st : DiagBasisQR) : option DiagBasisQR :=
  BB ← Gram_block (diag st) r c;
  shift ← GetWilkinsonShift BB;
  st ← for_loop (Z.to_nat size) 0 (chase shift) st;
  Some (mkDiagBasisQR (U st) (RoundZeroes (diag st)) (VT st)).

Section Bidiagonal.
(** [utils::IsBidiagonal] is not part of the sources. *)
Variable IsBidiagonal : Matrix T -> bool.

(** [BidiagonalAlgorithmQR(const Matrix<T> &B, IndexType it_cnt)], for a
    non-negative [it_cnt]. *)
Definition BidiagonalAlgorithmQR (B : Matrix T) (it_cnt : nat) : option DiagBasisQR :=
  _ ← assert ((Rows B =? 2) && (Columns B =? 2));
  _ ← assert (IsBidiagonal B);
  let S := Copy B in
  let r := Rows S in
  let c := Columns S in
  let size := Z.min r c in
  U ← Identity r T_one;
  VT ← Identity c T_one;
  for_loop it_cnt 0 (fun _ st => sweep r c size st) (mkDiagBasisQR U S VT).

End Bidiagonal.

(** Modelled from the spec: [utils::IsBidiagonal], every element off the
    main diagonal and the diagonal above it passing the zero test. *)
Definition utils_IsBidiagonal (m : Matrix T) : bool :=
  default false
    (ApplyToEach_const m (fun val i j (ok : bool) =>
       Some (ok && ((i =? j) || (i + 1 =? j) || IsZeroFloating val))) true).

(** The product [U * S * VT] of a result and its comparison with [B]. *)
Definition reconstruct (res : DiagBasisQR) : option (Matrix T) :=
  US ← Matrix_mul (U res) (diag res);
  Matrix_mul US (VT res).
Definition reconstructs (res : DiagBasisQR) (B : Matrix T) : option bool :=
  P ← reconstruct res;
  Matrix_eq P B.

(** *** Further members of the class *)

(** [Matrix(std::initializer_list<std::initializer_list<T>>)]. *)
Definition Matrix_of_rows (list : list (list T)) : option (Matrix T) :=
  _ ← assert (0 <? Z.of_nat (length list));
  first ← head list;
  _ ← assert (0 <? Z.of_nat (length first));
  let columns := Z.of_nat (length first) in
  buf ← foldl (fun acc sublist =>
                 buf ← acc;
                 _ ← assert (Z.of_nat (length sublist) =? columns);
                 Some (buf ++ sublist)) (Some []) list;
  Some (mkMatrix (Z.of_nat (length list)) buf).

(** [Matrix::Diagonal]. *)
Definition Diagonal (diag : list T) : option (Matrix T) := Matrix_diag diag.

(** [Matrix::ApplyToEach(Function)], the callback returning the new value
    of the element it is given by reference. *)
Definition ApplyToEach (m : Matrix T) (func : T -> T) : option (Matrix T) :=
  buf ← for_loop (length (buffer_ m)) 0 (fun i buf =>
           x ← buf !! Z.to_nat i;
           Some (<[Z.to_nat i := func x]> buf)) (buffer_ m);
  Some (mkMatrix (rows_ m) buf).

(** [operator*=(T scalar)] with [operator*(const Matrix &, T)], and
    [operator*(T, const Matrix &)]. *)
Definition Matrix_scale (lhs : Matrix T) (scalar : T) : option (Matrix T) :=
  ApplyToEach lhs (fun value => T_mul value scalar).
Definition scalar_times (scalar : T) (rhs : Matrix T) : option (Matrix T) :=
  Matrix_scale rhs scalar.

(** [operator/=(T scalar)] with [operator/(const Matrix &, T)], and
    [operator/(T, const Matrix &)]. *)
Definition Matrix_div (lhs : Matrix T) (scalar : T) : option (Matrix T) :=
  ApplyToEach lhs (fun value => T_div value scalar).
Definition scalar_over (scalar : T) (rhs : Matrix T) : option (Matrix T) :=
  Matrix_div rhs scalar.

(** [operator!=]. *)
Definition Matrix_ne (lhs rhs : Matrix T) : option bool := negb <$> Matrix_eq lhs rhs.

(** [Matrix::AssignSubmatrix(sub, row, column)]; the loops run from [row]
    while below [row + sub.Rows()] and from [column] while below
    [column + sub.Columns()]. *)
Definition AssignSubmatrix (m sub : Matrix T) (row column : Z) : option (Matrix T) :=
  _ ← assert ((0 <=? row) && (wrap (row + Rows sub) <=? Rows m));
  _ ← assert ((0 <=? column) && (wrap (column + Columns sub) <=? Columns m));
  for_loop (Z.to_nat (wrap (row + Rows sub) - row)) row (fun i m =>
    for_loop (Z.to_nat (wrap (column + Columns sub) - column)) column (fun j m =>
      x ← Matrix_at sub (wrap (i - row)) (wrap (j - column));
      Matrix_set m i j x) m) m.

(** The index the cycle of [Transpose] moves to, in the arithmetic of
    [std::size_t]. *)
Definition next_idx (rows last_idx swap_idx : Z) : Z :=
  if swap_idx =? last_idx then last_idx else Z.rem (wrap (rows * swap_idx)) last_idx.

(** The [do { ... } while (swap_idx != i)] loop of [Transpose]; [fuel]
    bounds the number of iterations. *)
Fixpoint follow_cycle (fuel : nat) (rows last_idx i swap_idx : Z)
    (st : list T * list bool) : option (list T * list bool) :=
  match fuel with
  | O => None
  | Datatypes.S fuel' =>
      let swap_idx := next_idx rows last_idx swap_idx in
      buf ← swap_at (fst st) swap_idx i;
      vis ← mark (snd st) swap_idx;
      if swap_idx =? i then Some (buf, vis)
      else follow_cycle fuel' rows last_idx i swap_idx (buf, vis)
  end.

(** The body of the outer loop of [Transpose]. *)
Definition Transpose_step (fuel : nat) (rows last_idx : Z) (i : Z)
    (st : list T * list bool) : option (list T * list bool) :=
  v ← snd st !! Z.to_nat i;
  if (v : bool) then Some st
  else follow_cycle fuel rows last_idx i i st.

(** [Matrix::Transpose]; the row count becomes the column count the matrix
    had. *)
Definition Transpose (m : Matrix T) : option (Matrix T) :=
  let n := length (buffer_ m) in
  let last_idx := wrap (buffer_size m - 1) in
  st ← for_loop (n - 1) 1 (Transpose_step (Datatypes.S n) (Rows m) last_idx)
         (buffer_ m, replicate n false);
  Some (mkMatrix (Columns m) (fst st)).

(** [Matrix::Conjugate]. *)
Definition Conjugate (m : Matrix T) : option (Matrix T) :=
  m' ← Transpose m;
  if IsFloatComplexT then ApplyToEach m' T_conj else Some m'.

(** [Matrix::Transposed], [Matrix::Conjugated]: the operation on a copy. *)
Definition Transposed (rhs : Matrix T) : option (Matrix T) := Transpose (Copy rhs).
Definition Conjugated (rhs : Matrix T) : option (Matrix T) := Conjugate (Copy rhs).

End LegacyModel.
Arguments mkDiagBasisQR {T} _ _ _.
Arguments U {T} _.
Arguments diag {T} _.
Arguments VT {T} _.
End Legacy.

(** ** Concrete inputs on [double] *)

(** The storage [[[1,2,3],[4,5,6],[7,8,9]]]. *)
Definition storage_3x3 : option (Matrix float) :=
  Matrix_of_rows [[1; 2; 3]; [4; 5; 6]; [7; 8; 9]]%float.

(** [Matrix::Transposed(M).GetRow(1)]: row 1 of the transposed view of [M]. *)
Definition transposed_row_1 (M : Matrix float) : option (ConstMatrixView float) :=
  View_GetRow (Transposed (View M)) 1.

(** The row vector [[[1, 2]]] and the column vector [[[1], [2]]]. *)
Definition row_vector_12 : option (Matrix float) := Matrix_of_rows [[1; 2]]%float.
Definition column_vector_12 : option (Matrix float) := Matrix_of_rows [[1]; [2]]%float.

(** The 2x2 matrices [[[1,2],[3,4]]] and [[[5,6],[7,8]]]. *)
Definition matrix_1234 : Matrix float := mkMatrix 2 [1; 2; 3; 4]%float.
Definition matrix_5678 : Matrix float := mkMatrix 2 [5; 6; 7; 8]%float.

(** The 1x1 matrices [[[2^-100]]] and [[[1]]]. *)
Definition matrix_tiny : Matrix float := mkMatrix 1 [0x1p-100%float].
Definition matrix_one : Matrix float := mkMatrix 1 [1%float].


(** The Hermitian matrix [[[2,0],[0,3]]] and the 1x1 matrix [[[5]]] on
    [double], as matrices of the first class. *)
Definition legacy_diag_23 : Legacy.Matrix float := Legacy.mkMatrix 2 [2; 0; 0; 3]%float.
Definition legacy_1x1 : Legacy.Matrix float := Legacy.mkMatrix 1 [5%float].

(** The 2x2 identity and the blocks [[[1,2],[2,1]]] and [[[4,3],[3,1]]] on
    [double], as matrices of the first class. *)
Definition legacy_identity_2 : Legacy.Matrix float := Legacy.mkMatrix 2 [1; 0; 0; 1]%float.
Definition legacy_block_1221 : Legacy.Matrix float := Legacy.mkMatrix 2 [1; 2; 2; 1]%float.
Definition legacy_block_4331 : Legacy.Matrix float := Legacy.mkMatrix 2 [4; 3; 3; 1]%float.

(** The 2x2 matrix every element of which is a NaN. *)
Definition legacy_nan_2 : Legacy.Matrix float := Legacy.mkMatrix 2 [nan; nan; nan; nan].

(** The 2x3 matrix [[[1,2,3],[4,5,6]]], and the matrix [Matrix(-1, 5)]: no
    element, five columns. *)
Definition matrix_2x3 : Matrix float := mkMatrix 3 [1; 2; 3; 4; 5; 6]%float.
Definition matrix_0x5 : Matrix float := Matrix_sized (-1) 5 0%float.

(** The 4x2 matrix [[[1,2],[3,4],[5,6],[7,8]]] and the view of its lower
    half, rows 2 and 3. *)
Definition matrix_4x2 : Matrix float := mkMatrix 2 [1; 2; 3; 4; 5; 6; 7; 8]%float.
Definition lower_half_4x2 : ConstMatrixView float :=
  ConstMatrixView_new matrix_4x2 (mkSegment 2 4) default_segment default_state.

Definition column_123 : Matrix float := mkMatrix 1 [1; 2; 3]%float.

(** The 2x3 matrix [[[1,2,3],[4,5,6]]], the 3x1 matrix [[[1],[1],[1]]] and
    the 3x3 matrix [[[1,2,3],[4,5,6],[7,8,9]]] on [double], as matrices of
    the first class. *)
Definition legacy_2x3 : Legacy.Matrix float := Legacy.mkMatrix 2 [1; 2; 3; 4; 5; 6]%float.
Definition legacy_3x1 : Legacy.Matrix float := Legacy.mkMatrix 3 [1; 1; 1]%float.
Definition legacy_3x3 : Legacy.Matrix float :=
  Legacy.mkMatrix 3 [1; 2; 3; 4; 5; 6; 7; 8; 9]%float.

(** The 1x1 matrix whose element is a NaN. *)
Definition matrix_nan : Matrix float := mkMatrix 1 [nan].

(** * Vocabulary of the statements *)

Section ProductSpec.
Context {T : Type} {FC : FloatOrComplex T} {EU : ElementUtils T}.

(** The plain left-to-right sum [((0 + f 0) + f 1) + ... + f (n - 1)]. *)
Fixpoint left_sum (f : Z -> T) (n : nat) : T :=
  match n with
  | O => T_zero
  | Datatypes.S n' => T_add (left_sum f n') (f (Z.of_nat n'))
  end.

(** Every element of the view is readable, [L] naming the values read. *)
Definition reads_as (v : ConstMatrixView T) (L : Z -> Z -> T) : Prop :=
  forall i j, 0 <= i < View_Rows v -> 0 <= j < View_Columns v ->
    View_at v i j = Some (L i j).

(** The values read from a view, for the views every read of which succeeds. *)
Definition values_of (v : ConstMatrixView T) (i j : Z) : T :=
  default T_zero (View_at v i j).

(** The conjugation a read applies: the conjugate when the conjugated flag
    [cj] is set and the element type is complex. *)
Definition read_conj (cj : bool) (x : T) : T :=
  if cj && IsFloatComplexT then T_conj x else x.


(** The state of the result while the product fills it, row by row: the
    entries at linear indices below [cnt] hold their sums. *)
Definition filled (rows cols : Z) (P : Z -> Z -> T) (cnt : Z) (m : Matrix T) : Prop :=
  cols_ m = cols
  /\ buffer_size m = cols * rows
  /\ forall i j, 0 <= i < rows -> 0 <= j < cols -> cols * i + j < cnt ->
       buffer_ m !! Z.to_nat (cols * i + j) = Some (P i j).

(** The same state, described by the sums the code accumulates: the
    entries at linear indices below [cnt] hold the results of [dot], which
    has returned for each of them. *)
Definition accumulated (lhs rhs : ConstMatrixView T) (rows cols : Z) (cnt : Z)
    (m : Matrix T) : Prop :=
  cols_ m = cols
  /\ buffer_size m = cols * rows
  /\ forall i j, 0 <= i < rows -> 0 <= j < cols -> cols * i + j < cnt ->
       exists sum, dot lhs rhs i j = Some sum
                   /\ buffer_ m !! Z.to_nat (cols * i + j) = Some sum.

(** The value the shift formula takes at the block [[[a, b], [b, d]]], in
    the arithmetic of [T]: [delta = (a - d) / 2] and
    [d - Sign(delta) * b * b / (|delta| + sqrt(delta * delta + b * b))]. *)
Definition shift_formula (a b d : T) : T :=
  let delta := T_div (T_sub a d) T_two in
  T_sub d (T_div (T_mul (T_mul (Sign delta) b) b)
                 (T_add (T_abs delta) (T_sqrt (T_add (T_mul delta delta) (T_mul b b))))).

(** An [n] x [n] matrix of the first class whose buffer the index
    arithmetic addresses without wrapping. *)
Definition square (n : Z) (m : Legacy.Matrix T) : Prop :=
  0 < n /\ n * n < 2 ^ 64 /\ Legacy.rows_ m = n /\ Legacy.buffer_size m = n * n.

(** The matrix every element of which is [T{0}]. *)
Definition zero_matrix (n : Z) : Legacy.Matrix T :=
  Legacy.mkMatrix n (replicate (Z.to_nat (n * n)) T_zero).

(** A well-formed matrix of the first class: the buffer holds
    [Rows * Columns] elements and is addressed without wrapping. *)
Definition well_formed (m : Legacy.Matrix T) : Prop :=
  0 <= Legacy.rows_ m
  /\ Legacy.buffer_size m = Legacy.Rows m * Legacy.Columns m
  /\ Legacy.buffer_size m < 2 ^ 64.

End ProductSpec.

(** ** The transposition by cycles, in the integers *)

(** The index a cycle of [Transpose] moves to, with the product taken in
    the integers. *)
Definition index_map (rows last_idx swap_idx : Z) : Z :=
  if swap_idx =? last_idx then last_idx else Z.rem (rows * swap_idx) last_idx.

(** The walk along the cycle of [i] and the step of the outer loop, with
    [index_map] for the index: what both definitions of [Transpose] compute
    as long as their index arithmetic holds the products. *)
Fixpoint walk_cycle {T : Type} (fuel : nat) (rows last_idx i swap_idx : Z)
    (st : list T * list bool) : option (list T * list bool) :=
  match fuel with
  | O => None
  | Datatypes.S fuel' =>
      let swap_idx := index_map rows last_idx swap_idx in
      buf ← swap_at (fst st) swap_idx i;
      vis ← mark (snd st) swap_idx;
      if swap_idx =? i then Some (buf, vis)
      else walk_cycle fuel' rows last_idx i swap_idx (buf, vis)
  end.

Definition walk_step {T : Type} (fuel : nat) (rows last_idx : Z) (i : Z)
    (st : list T * list bool) : option (list T * list bool) :=
  v ← snd st !! Z.to_nat i;
  if (v : bool) then Some st
  else walk_cycle fuel rows last_idx i i st.

(** The number of indices [Transpose] has not visited yet. *)
Fixpoint count_false (vis : list bool) : nat :=
  match vis with
  | [] => 0
  | v :: vis' => (if v then 0 else 1) + count_false vis'
  end.

(** The cycles of [Transpose] on a buffer [B] of [r] rows of [c] elements. *)
Module CycleSpec.
Section CycleSpec.
Context {T : Type}.
Variables (r c : Z) (B : list T).

(** Where the loop goes next, and where an element comes from. *)
Definition dest (k : Z) : Z := index_map r (Z.of_nat (length B) - 1) k.
Definition src (k : Z) : Z := index_map c (Z.of_nat (length B) - 1) k.

(** [t] steps along the cycle of [i]. *)
Definition along (t : nat) (i : Z) : Z := Nat.iter t dest i.

(** The state of the outer loop before index [i]: the elements of the
    visited indices are in place, the others are untouched, the visited set
    is closed under going back along a cycle and holds every index from 1
    below [i]. *)
Definition outer_inv (i : Z) (st : list T * list bool) : Prop :=
  length (fst st) = length B /\ length (snd st) = length B
  /\ (forall k, 0 <= k < Z.of_nat (length B) -> snd st !! Z.to_nat k = Some true ->
        fst st !! Z.to_nat k = B !! Z.to_nat (src k))
  /\ (forall k, 0 <= k < Z.of_nat (length B) -> snd st !! Z.to_nat k = Some false ->
        fst st !! Z.to_nat k = B !! Z.to_nat k)
  /\ (forall k, 0 <= k < Z.of_nat (length B) -> snd st !! Z.to_nat (dest k) = Some true ->
        snd st !! Z.to_nat k = Some true)
  /\ (forall k, 1 <= k < i -> snd st !! Z.to_nat k = Some true).

(** The state after [m] steps of the cycle of [i], entered with the visited
    flags [W]. *)
Definition cycle_inv (i : Z) (W : list bool) (m : nat) (st : list T * list bool) : Prop :=
  length (fst st) = length B /\ length (snd st) = length B
  /\ (forall k, 0 <= k < Z.of_nat (length B) ->
        (snd st !! Z.to_nat k = Some true <->
         (W !! Z.to_nat k = Some true \/ exists t, (1 <= t <= m)%nat /\ k = along t i)))
  /\ (forall t, (1 <= t <= m)%nat -> along t i <> i)
  /\ fst st !! Z.to_nat i = B !! Z.to_nat (along m i)
  /\ (forall k, 0 <= k < Z.of_nat (length B) -> k <> i -> snd st !! Z.to_nat k = Some true ->
        fst st !! Z.to_nat k = B !! Z.to_nat (src k))
  /\ (forall k, 0 <= k < Z.of_nat (length B) -> k <> i -> snd st !! Z.to_nat k = Some false ->
        fst st !! Z.to_nat k = B !! Z.to_nat k).

End CycleSpec.
Arguments along : simpl never.
End CycleSpec.

Section DiagonalSpec.
Context {T : Type} {FC : FloatOrComplex T} {EU : ElementUtils T}.



End DiagonalSpec.

Section LegacyShapes.
Context {T : Type} {FC : FloatOrComplex T} {EU : ElementUtils T}.

(** An [r] x [c] matrix of the first class whose buffer the index
    arithmetic addresses without wrapping. *)
Definition shaped (r c : Z) (m : Legacy.Matrix T) : Prop :=
  0 < r /\ 0 < c /\ r * c < 2 ^ 64
  /\ Legacy.rows_ m = r /\ Legacy.buffer_size m = r * c.

(** The values read from a matrix of the first class, for the matrices
    every read of which succeeds. *)
Definition legacy_values (m : Legacy.Matrix T) (i j : Z) : T :=
  default T_zero (Legacy.Matrix_at m i j).

(** The state of an [r] x [c] result while it is filled row by row: the
    entries at linear indices below [cnt] hold the values [P]. *)
Definition legacy_filled (r c : Z) (P : Z -> Z -> T) (cnt : Z) (m : Legacy.Matrix T)
    : Prop :=
  shaped r c m
  /\ forall i j, 0 <= i < r -> 0 <= j < c -> c * i + j < cnt ->
       Legacy.buffer_ m !! Z.to_nat (c * i + j) = Some (P i j).

(** The state of the [n] x [n] matrix of a diagonal while it is filled: the
    diagonal holds the values [d] at the indices below [cnt], every other
    element is [T{0}]. *)
Definition legacy_diagonal_filled (n : Z) (d : Z -> T) (cnt : Z) (m : Legacy.Matrix T)
    : Prop :=
  shaped n n m
  /\ forall i j, 0 <= i < n -> 0 <= j < n ->
       Legacy.buffer_ m !! Z.to_nat (n * i + j)
       = Some (if (i =? j) && (i <? cnt) then d i else T_zero).

(** The state of the [R] x [C] matrix [AssignSubmatrix] writes to, entered
    as [m0], when the loops stand at the row [I] and the column [J]: the
    elements of the block in the rows before [I], and in the row [I] before
    the column [J], hold the elements of [sub]; every other element is as it
    was. The block starts at [(row, column)] and is [c] columns wide. *)
Definition assigned (R C : Z) (m0 sub : Legacy.Matrix T) (row column c : Z) (I J : Z)
    (m : Legacy.Matrix T) : Prop :=
  shaped R C m
  /\ forall i j, 0 <= i < R -> 0 <= j < C ->
       Legacy.buffer_ m !! Z.to_nat (C * i + j)
       = if ((row <=? i) && (i <? I) && (column <=? j) && (j <? column + c))
            || ((i =? I) && (column <=? j) && (j <? J))
         then Some (legacy_values sub (i - row) (j - column))
         else Legacy.buffer_ m0 !! Z.to_nat (C * i + j).

End LegacyShapes.

(** * Properties *)

(** Case analysis on the integer comparisons of a goal. *)
Ltac case_cmp :=
  repeat match goal with
  | |- context [?a <=? ?b] => destruct (Z.leb_spec a b)
  | |- context [?a <? ?b] => destruct (Z.ltb_spec a b)
  | |- context [?a =? ?b] => destruct (Z.eqb_spec a b)
  end; simpl in *.

(** ** Segments *)

Section SegmentFacts.

Lemma MakeSegment_end (seg : Segment) (max_value : IndexType) :
  seg_end (MakeSegment seg max_value) =
  if (seg_end seg <=? 0) || (max_value <? seg_end seg) then max_value else seg_end seg.
Proof. unfold MakeSegment. case_cmp; reflexivity. Qed.

Lemma MakeSegment_idempotent (seg : Segment) (max_value : IndexType) :
  MakeSegment (MakeSegment seg max_value) max_value = MakeSegment seg max_value.
Proof.
  destruct seg as [b e]. unfold MakeSegment; simpl.
  case_cmp; try reflexivity; try lia.
Qed.

Lemma MakeSegment_within (seg : Segment) (max_value : IndexType) :
  0 <= max_value ->
  0 <= seg_begin (MakeSegment seg max_value) <= seg_end (MakeSegment seg max_value)
  /\ seg_end (MakeSegment seg max_value) <= max_value.
Proof.
  intros Hmax. destruct seg as [b e]. unfold MakeSegment; simpl.
  case_cmp; lia.
Qed.

Lemma MakeSegment_default (max_value : IndexType) :
  MakeSegment (mkSegment (-1) (-1)) max_value = mkSegment 0 max_value.
Proof. unfold MakeSegment; simpl. case_cmp; f_equal; lia. Qed.

(** C9 (as amended). [MakeSegment] first replaces [end] by the maximum when
    it is non-positive or above the maximum and keeps it otherwise; it then
    replaces [begin] by 0 when [begin] is not below the new [end] or lies
    outside [[0, max)], and keeps it otherwise. The default segment
    [{-1, -1}] becomes the full axis, and on an axis of non-negative length
    the result always lies within the axis: no input is an error. Each
    endpoint is reset on its own, so an ill-formed segment need not become
    the full axis. *)
Theorem MakeSegment_normalizes (seg : Segment) (max_value : IndexType) :
  let r := MakeSegment seg max_value in
  ((seg_end seg <= 0 \/ max_value < seg_end seg) -> seg_end r = max_value)
  /\ (0 < seg_end seg <= max_value -> seg_end r = seg_end seg)
  /\ ((seg_end r <= seg_begin seg \/ seg_begin seg < 0 \/ max_value <= seg_begin seg) ->
      seg_begin r = 0)
  /\ ((0 <= seg_begin seg < max_value /\ seg_begin seg < seg_end r) ->
      seg_begin r = seg_begin seg)
  /\ MakeSegment (mkSegment (-1) (-1)) max_value = mkSegment 0 max_value
  /\ (0 <= max_value -> 0 <= seg_begin r <= seg_end r /\ seg_end r <= max_value).
Proof.
  destruct seg as [b e]. cbv zeta.
  repeat split.
  - unfold MakeSegment; simpl. case_cmp; lia.
  - unfold MakeSegment; simpl. case_cmp; lia.
  - rewrite MakeSegment_end; unfold MakeSegment; simpl. case_cmp; lia.
  - rewrite MakeSegment_end; unfold MakeSegment; simpl. case_cmp; lia.
  - apply MakeSegment_default.
  - apply MakeSegment_within; assumption.
  - apply MakeSegment_within; assumption.
  - apply MakeSegment_within; assumption.
Qed.

(** C9, the claim as written fails: the segment [{5, 3}] is ill-formed
    ([begin >= end]) and on an axis of length 10 it becomes [[0, 3)], not the
    full axis [[0, 10)]. *)
Lemma MakeSegment_malformed_not_full_axis :
  MakeSegment (mkSegment 5 3) 10 = mkSegment 0 3
  /\ mkSegment 0 3 <> mkSegment 0 10.
Proof. split; [reflexivity | discriminate]. Qed.

End SegmentFacts.

(** ** Loops *)

Section LoopFacts.
Context {S : Type}.

(** The invariant rule of [for_loop]: an invariant that holds at entry and
    that every iteration preserves (each iteration running to its end) holds
    at exit, and the loop runs to its end. *)
Lemma for_loop_invariant (Inv : Z -> S -> Prop) (count : nat) (from : Z)
    (body : Z -> S -> option S) (s : S) :
  Inv from s ->
  (forall k t, from <= k < from + Z.of_nat count -> Inv k t ->
     exists t', body k t = Some t' /\ Inv (k + 1) t') ->
  exists s', for_loop count from body s = Some s' /\ Inv (from + Z.of_nat count) s'.
Proof.
  revert from s. induction count as [| count IH]; intros from s Hinit Hstep.
  - exists s. simpl. rewrite Z.add_0_r. auto.
  - destruct (Hstep from s ltac:(lia) Hinit) as (t & Hbody & Ht).
    destruct (IH (from + 1) t Ht) as (s' & Hloop & Hs').
    + intros k u Hk Hu. apply Hstep; [lia | assumption].
    + exists s'. simpl. rewrite Hbody. split; [assumption |].
      replace (from + Z.of_nat (Datatypes.S count)) with (from + 1 + Z.of_nat count) by lia.
      assumption.
Qed.

(** The same rule for a loop that is known to have run to its end: the
    iterations need to preserve the invariant only when they return. *)
Lemma for_loop_returned (Inv : Z -> S -> Prop) (count : nat) (from : Z)
    (body : Z -> S -> option S) (s s' : S) :
  Inv from s ->
  (forall k t t', from <= k < from + Z.of_nat count -> Inv k t ->
     body k t = Some t' -> Inv (k + 1) t') ->
  for_loop count from body s = Some s' ->
  Inv (from + Z.of_nat count) s'.
Proof.
  revert from s. induction count as [| count IH]; intros from s Hinit Hstep Hrun.
  - simpl in Hrun. injection Hrun as <-. rewrite Z.add_0_r. exact Hinit.
  - simpl in Hrun. destruct (body from s) as [t |] eqn:Hbody; [| discriminate].
    replace (from + Z.of_nat (Datatypes.S count)) with (from + 1 + Z.of_nat count) by lia.
    apply (IH (from + 1) t).
    + apply (Hstep from s t); [lia | exact Hinit | exact Hbody].
    + intros k u u' Hk. apply Hstep. lia.
    + exact Hrun.
Qed.

(** Two bodies that agree on the iterations of the loop give the same loop. *)
Lemma for_loop_ext (count : nat) (from : Z) (body body' : Z -> S -> option S) (s : S) :
  (forall k t, from <= k < from + Z.of_nat count -> body k t = body' k t) ->
  for_loop count from body s = for_loop count from body' s.
Proof.
  revert from s. induction count as [| count IH]; intros from s Hext; [reflexivity |].
  simpl. rewrite <- Hext by lia. destruct (body from s); [| reflexivity].
  apply IH. intros k t Hk. apply Hext. lia.
Qed.

End LoopFacts.

(** ** Views: construction, transposition, element read *)

Section ViewFacts.
Context {T : Type} {FC : FloatOrComplex T} {EU : ElementUtils T}.

(** Rebuilding a constructed view with its segments exchanged and the
    transposed flag inverted exchanges the segments and nothing else. *)
Lemma flip_constructed (m : Matrix T) (row col : Segment) (t c c' : bool) :
  ConstMatrixView_new m
    (column_ (ConstMatrixView_new m row col (mkMatrixState t c)))
    (row_ (ConstMatrixView_new m row col (mkMatrixState t c)))
    (mkMatrixState (negb t) c')
  = mkConstMatrixView m
      (column_ (ConstMatrixView_new m row col (mkMatrixState t c)))
      (row_ (ConstMatrixView_new m row col (mkMatrixState t c)))
      (mkMatrixState (negb t) c').
Proof.
  unfold ConstMatrixView_new; simpl.
  destruct t; simpl; rewrite !MakeSegment_idempotent; reflexivity.
Qed.

Lemma Transposed_constructed (m : Matrix T) (row col : Segment) (st : MatrixState) :
  Transposed (ConstMatrixView_new m row col st)
  = mkConstMatrixView m
      (column_ (ConstMatrixView_new m row col st))
      (row_ (ConstMatrixView_new m row col st))
      (mkMatrixState (negb (is_transposed st)) (is_conjugated st)).
Proof. destruct st as [t c]. unfold Transposed. simpl ptr_. apply flip_constructed. Qed.

Lemma Conjugated_constructed (m : Matrix T) (row col : Segment) (st : MatrixState) :
  Conjugated (ConstMatrixView_new m row col st)
  = mkConstMatrixView m
      (column_ (ConstMatrixView_new m row col st))
      (row_ (ConstMatrixView_new m row col st))
      (mkMatrixState (negb (is_transposed st)) (negb (is_conjugated st))).
Proof. destruct st as [t c]. unfold Conjugated. simpl ptr_. apply flip_constructed. Qed.

Lemma Transposed_involutive (m : Matrix T) (row col : Segment) (st : MatrixState) :
  Transposed (Transposed (ConstMatrixView_new m row col st))
  = ConstMatrixView_new m row col st.
Proof.
  rewrite Transposed_constructed. destruct st as [t c].
  unfold Transposed, ConstMatrixView_new; simpl.
  destruct t; simpl; rewrite !MakeSegment_idempotent; reflexivity.
Qed.

Lemma Conjugated_involutive (m : Matrix T) (row col : Segment) (st : MatrixState) :
  Conjugated (Conjugated (ConstMatrixView_new m row col st))
  = ConstMatrixView_new m row col st.
Proof.
  rewrite Conjugated_constructed. destruct st as [t c].
  unfold Conjugated, ConstMatrixView_new; simpl.
  destruct t, c; simpl; rewrite !MakeSegment_idempotent; reflexivity.
Qed.

End ViewFacts.

(** ** The element read and the equality operators on concrete inputs *)

(** C2, the code at a failing input. On the 3x3 storage
    [[[1,2,3],[4,5,6],[7,8,9]]] the view [Transposed(M).GetRow(1)] has the
    transposed flag set, row segment [[1, 2)] and column segment [[0, 3)].
    Its element [(0, 0)] is read from storage [(row_.begin + 0,
    column_.begin + 0) = (1, 0)], the value 4, where the storage element at
    [(column_.begin + 0, row_.begin + 0) = (0, 1)] is 2; and the read of its
    element [(0, 2)] addresses storage row 3 and trips the bounds assertion
    of the matrix, where storage [(2, 1)] holds 8. *)
Lemma View_at_transposed_offset_reads_wrong_cell :
  exists M V,
    storage_3x3 = Some M /\ transposed_row_1 M = Some V
    /\ is_transposed (state_ V) = true
    /\ row_ V = mkSegment 1 2 /\ column_ V = mkSegment 0 3
    /\ View_at V 0 0 = Some 4%float
    /\ Matrix_at M (seg_begin (column_ V) + 0) (seg_begin (row_ V) + 0) = Some 2%float
    /\ View_at V 0 2 = None
    /\ Matrix_at M (seg_begin (column_ V) + 2) (seg_begin (row_ V) + 0) = Some 8%float.
Proof.
  eexists. eexists.
  split; [reflexivity |]. split; [reflexivity |].
  vm_compute. repeat split; reflexivity.
Qed.

(** C4, the code at a failing input. The 1x2 matrix [[[1, 2]]] and the 2x1
    matrix [[[1], [2]]] have different row and column counts, yet
    [operator==] on the two owning matrices compares the buffers only and
    answers [true]; the same operands compared through their views answer
    [false]. *)
Lemma Matrix_eq_ignores_shape :
  exists A B,
    row_vector_12 = Some A /\ column_vector_12 = Some B
    /\ Rows A = 1 /\ Columns A = 2 /\ Rows B = 2 /\ Columns B = 1
    /\ Matrix_eq A B = true
    /\ View_eq (View A) (View B) = Some false
    /\ Matrix_eq_View A (View B) = Some false.
Proof.
  eexists. eexists.
  split; [reflexivity |]. split; [reflexivity |].
  vm_compute. repeat split; reflexivity.
Qed.

(** ** The matrix product *)

Section ProductFacts.
Context {T : Type} {FC : FloatOrComplex T} {EU : ElementUtils T}.


Lemma linear_index_inj (cols i j i' j' : Z) :
  0 <= j < cols -> 0 <= j' < cols -> cols * i + j = cols * i' + j' -> i = i' /\ j = j'.
Proof. intros Hj Hj' Heq. assert (i = i') by nia. subst. lia. Qed.

Lemma filled_set (rows cols : Z) (P : Z -> Z -> T) (m : Matrix T) (i j : Z) :
  0 <= i < rows -> 0 <= j < cols ->
  filled rows cols P (cols * i + j) m ->
  exists m', Matrix_set m i j (P i j) = Some m'
             /\ filled rows cols P (cols * i + j + 1) m'.
Proof.
  intros Hi Hj (Hc & Hlen & Hfill).
  unfold Matrix_set, Columns, index_in_buffer. rewrite Hc.
  assert (Hk : 0 <= cols * i + j < cols * rows) by nia.
  replace ((0 <=? cols * i + j) && (cols * i + j <? buffer_size m)) with true
    by (symmetry; apply andb_true_iff; split; [apply Z.leb_le | apply Z.ltb_lt]; lia).
  simpl. eexists; split; [reflexivity |].
  unfold buffer_size in *. split; [reflexivity | split]; simpl.
  - unfold buffer_size; simpl. rewrite length_insert. exact Hlen.
  - intros i' j' Hi' Hj' Hlt.
    destruct (Z.eq_dec (cols * i' + j') (cols * i + j)) as [Heq | Hne].
    + destruct (linear_index_inj cols i' j' i j Hj' Hj Heq) as [-> ->].
      apply list_lookup_insert_eq. lia.
    + rewrite list_lookup_insert_ne by nia. apply Hfill; [assumption .. | lia].
Qed.

Lemma Matrix_sized_positive (rows cols : Z) (value : T) :
  0 < rows -> 0 < cols ->
  Matrix_sized rows cols value = mkMatrix cols (replicate (Z.to_nat (cols * rows)) value).
Proof.
  intros Hr Hc. unfold Matrix_sized, CorrectSize.
  destruct (Z.eqb_spec rows 0); [lia |]. rewrite !Z.max_r by lia. reflexivity.
Qed.


Lemma accumulated_set (lhs rhs : ConstMatrixView T) (rows cols : Z) (m m' : Matrix T)
    (i j : Z) (sum : T) :
  0 <= i < rows -> 0 <= j < cols ->
  accumulated lhs rhs rows cols (cols * i + j) m ->
  dot lhs rhs i j = Some sum -> Matrix_set m i j sum = Some m' ->
  accumulated lhs rhs rows cols (cols * i + j + 1) m'.
Proof.
  intros Hi Hj (Hc & Hlen & Hacc) Hdot Hset.
  unfold Matrix_set, Columns in Hset. rewrite Hc in Hset.
  destruct (assert _) in Hset; [| discriminate]. simpl in Hset. injection Hset as <-.
  assert (Hk : 0 <= cols * i + j < cols * rows) by nia.
  unfold buffer_size in *. split; [reflexivity | split]; simpl.
  - unfold buffer_size; simpl. rewrite length_insert. exact Hlen.
  - intros i' j' Hi' Hj' Hlt.
    destruct (Z.eq_dec (cols * i' + j') (cols * i + j)) as [Heq | Hne].
    + destruct (linear_index_inj cols i' j' i j Hj' Hj Heq) as [-> ->].
      exists sum. split; [exact Hdot |]. apply list_lookup_insert_eq. lia.
    + rewrite list_lookup_insert_ne by nia. apply Hacc; [assumption .. | lia].
Qed.

(** What a product that has returned holds: the rounding of a matrix [r],
    empty when a dimension is zero and otherwise filled with the sums the
    code accumulated. *)
Lemma View_mul_returned (lhs rhs : ConstMatrixView T) (m : Matrix T) :
  View_mul lhs rhs = Some m ->
  exists r, m = RoundZeroes r
    /\ (0 < View_Rows lhs -> 0 < View_Columns rhs ->
        accumulated lhs rhs (View_Rows lhs) (View_Columns rhs)
                    (View_Columns rhs * View_Rows lhs) r).
Proof.
  unfold View_mul. intros Hrun.
  destruct (assert _) in Hrun; [| discriminate]. simpl in Hrun.
  destruct (Z.eqb_spec (View_Rows lhs) 0) as [Hr0 | Hr0]; simpl in Hrun.
  { injection Hrun as <-. exists Matrix_default. split; [reflexivity | lia]. }
  destruct (Z.eqb_spec (View_Columns rhs) 0) as [Hc0 | Hc0]; simpl in Hrun.
  { injection Hrun as <-. exists Matrix_default. split; [reflexivity | lia]. }
  set (rows := View_Rows lhs) in *. set (cols := View_Columns rhs) in *.
  destruct (for_loop _ _ _ _) as [r |] eqn:Hloop; [| discriminate].
  simpl in Hrun. injection Hrun as <-. exists r. split; [reflexivity |].
  intros Hr Hc.
  replace (cols * rows) with (cols * (0 + Z.of_nat (Z.to_nat rows))) by lia.
  eapply (for_loop_returned (fun i m => accumulated lhs rhs rows cols (cols * i) m));
    [ | | exact Hloop].
  - rewrite Matrix_sized_positive by lia. split; [reflexivity | split]; simpl.
    + unfold buffer_size; simpl. rewrite length_replicate. nia.
    + intros i j Hi Hj Hlt. nia.
  - intros i t t' Hi Hacc Hrow. cbv beta in Hrow.
    replace (cols * (i + 1)) with (cols * i + (0 + Z.of_nat (Z.to_nat cols))) by lia.
    eapply (for_loop_returned (fun j m => accumulated lhs rhs rows cols (cols * i + j) m));
      [ | | exact Hrow].
    + rewrite Z.add_0_r. exact Hacc.
    + intros j w w' Hj Hw Hbody. cbv beta in Hbody.
      destruct (dot lhs rhs i j) as [sum |] eqn:Hdot; simpl in Hbody; [| discriminate].
      rewrite Z.add_assoc.
      apply (accumulated_set lhs rhs rows cols w w' i j sum); auto; lia.
Qed.

Lemma accumulated_at (lhs rhs : ConstMatrixView T) (rows cols : Z) (m : Matrix T) (i j : Z) :
  0 <= i < rows -> 0 <= j < cols -> accumulated lhs rhs rows cols (cols * rows) m ->
  exists sum, dot lhs rhs i j = Some sum
              /\ Matrix_at (RoundZeroes m) i j = Some (round_zero sum).
Proof.
  intros Hi Hj (Hcols & Hlen & Hacc).
  assert (Hk : 0 <= cols * i + j < cols * rows) by nia.
  destruct (Hacc i j Hi Hj ltac:(lia)) as (sum & Hdot & Hbuf).
  exists sum. split; [exact Hdot |].
  unfold Matrix_at, Columns, index_in_buffer, RoundZeroes, buffer_size in *; simpl.
  rewrite length_map, Hcols, Hlen.
  replace ((0 <=? cols * i + j) && (cols * i + j <? cols * rows)) with true
    by (symmetry; apply andb_true_iff; split; [apply Z.leb_le | apply Z.ltb_lt]; lia).
  simpl. rewrite list_lookup_fmap, Hbuf. reflexivity.
Qed.



Lemma round_zero_settled (x : T) :
  round_zero x = T_zero \/ IsZeroFloating (round_zero x) = false.
Proof. unfold round_zero. destruct (IsZeroFloating x) eqn:E; auto. Qed.

End ProductFacts.

Section ProductClaims.
Context {T : Type} {FC : FloatOrComplex T} {EU : ElementUtils T}.


(** C10. Every product [operator*] returns has gone through the rounding
    pass: it is [RoundZeroes] of the matrix the loops filled, so no element
    of it is at once different from [T{0}] and approximately zero, and its
    entry [(i, j)] is [T{0}] when the sum the code accumulated for it passes
    the zero test and is that sum otherwise. *)
Theorem View_mul_rounded (lhs rhs : ConstMatrixView T) (m : Matrix T) :
  View_mul lhs rhs = Some m ->
  (exists r, m = RoundZeroes r)
  /\ (forall e, In e (buffer_ m) -> e = T_zero \/ IsZeroFloating e = false)
  /\ (forall i j, 0 <= i < View_Rows lhs -> 0 <= j < View_Columns rhs ->
        exists sum, dot lhs rhs i j = Some sum
          /\ Matrix_at m i j = Some (round_zero sum)
          /\ (IsZeroFloating sum = true -> Matrix_at m i j = Some T_zero)
          /\ (IsZeroFloating sum = false -> Matrix_at m i j = Some sum)).
Proof.
  intros Hrun. destruct (View_mul_returned lhs rhs m Hrun) as (r & -> & Hacc).
  split; [exists r; reflexivity |]. split.
  - intros e He. apply in_map_iff in He as (x & <- & _). apply round_zero_settled.
  - intros i j Hi Hj.
    destruct (accumulated_at lhs rhs _ _ r i j Hi Hj (Hacc ltac:(lia) ltac:(lia)))
      as (sum & Hdot & Hat).
    exists sum. split; [exact Hdot |]. split; [exact Hat |].
    rewrite Hat. unfold round_zero. split; intros ->; reflexivity.
Qed.

End ProductClaims.



(** [View_mul_rounded] on the product that accumulates [2^-100]. *)
Lemma View_mul_rounded_witness :
  (exists r, mkMatrix 1 [0%float] = RoundZeroes r)
  /\ (forall e, In e (buffer_ (mkMatrix 1 [0%float])) ->
        e = T_zero \/ IsZeroFloating e = false)
  /\ (forall i j, 0 <= i < View_Rows (View matrix_tiny) ->
                  0 <= j < View_Columns (View matrix_one) ->
        exists sum, dot (View matrix_tiny) (View matrix_one) i j = Some sum
          /\ Matrix_at (mkMatrix 1 [0%float]) i j = Some (round_zero sum)
          /\ (IsZeroFloating sum = true -> Matrix_at (mkMatrix 1 [0%float]) i j = Some T_zero)
          /\ (IsZeroFloating sum = false -> Matrix_at (mkMatrix 1 [0%float]) i j = Some sum)).
Proof.
  apply (View_mul_rounded (View matrix_tiny) (View matrix_one) (mkMatrix 1 [0%float])).
  vm_compute. reflexivity.
Defined.


(** ** Which views are readable, and equality of a view with itself *)

Section ReadableFacts.
Context {T : Type} {FC : FloatOrComplex T} {EU : ElementUtils T}.

Lemma Rows_nonneg (m : Matrix T) : 0 <= Columns m -> 0 <= Rows m.
Proof.
  unfold Rows, Columns, buffer_size. intros Hc.
  destruct (Z.eqb_spec (cols_ m) 0); [lia |]. apply Z.div_pos; lia.
Qed.

(** What the element read does, for every view and all coordinates: it
    reads the storage at [(row_.begin + j, column_.begin + i)] when the
    transposed flag is set and at [(row_.begin + i, column_.begin + j)]
    otherwise, and conjugates the value when the conjugated flag is set and
    the element type is complex. *)
Lemma View_at_storage (v : ConstMatrixView T) (i j : Z) :
  View_at v i j
  = read_conj (is_conjugated (state_ v))
      <$> (if is_transposed (state_ v)
           then Matrix_at (ptr_ v) (seg_begin (row_ v) + j) (seg_begin (column_ v) + i)
           else Matrix_at (ptr_ v) (seg_begin (row_ v) + i) (seg_begin (column_ v) + j)).
Proof.
  unfold View_at, read_conj.
  destruct IsFloatComplexT, (is_transposed (state_ v)), (is_conjugated (state_ v)); simpl;
    try reflexivity;
    match goal with |- ?o = _ => destruct o; reflexivity end.
Qed.

(** A view that is not transposed reads, at its logical coordinates
    [(i, j)], the storage element at [(row_.begin + i, column_.begin + j)],
    conjugated when the conjugated flag is set and the element type is
    complex; every read within the view succeeds. *)
Lemma View_at_untransposed (m : Matrix T) (row col : Segment) (cj : bool) (i j : Z) :
  0 <= Columns m -> buffer_size m = Rows m * Columns m ->
  let V := ConstMatrixView_new m row col (mkMatrixState false cj) in
  0 <= i < View_Rows V -> 0 <= j < View_Columns V ->
  exists x, Matrix_at m (seg_begin (row_ V) + i) (seg_begin (column_ V) + j) = Some x
            /\ View_at V i j = Some (read_conj cj x).
Proof.
  intros Hc Hsize V Hi Hj.
  pose proof (Rows_nonneg m Hc) as Hr.
  unfold V, View_Rows, View_Columns, ConstMatrixView_new in *; simpl in *.
  pose proof (MakeSegment_within row (Rows m) Hr) as (Hrb & Hre).
  pose proof (MakeSegment_within col (Columns m) Hc) as (Hcb & Hce).
  set (rs := MakeSegment row (Rows m)) in *. set (cs := MakeSegment col (Columns m)) in *.
  assert (Hk : 0 <= Columns m * (seg_begin rs + i) + (seg_begin cs + j) < buffer_size m) by nia.
  assert (Hat : exists x, Matrix_at m (seg_begin rs + i) (seg_begin cs + j) = Some x).
  { unfold Matrix_at, index_in_buffer.
    destruct (Z.leb_spec 0 (Columns m * (seg_begin rs + i) + (seg_begin cs + j))); [| lia].
    destruct (Z.ltb_spec (Columns m * (seg_begin rs + i) + (seg_begin cs + j)) (buffer_size m));
      [| lia].
    simpl. apply lookup_lt_is_Some. unfold buffer_size in *. lia. }
  destruct Hat as (x & Hx). exists x. split; [exact Hx |].
  unfold View_at, read_conj; simpl. rewrite Hx.
  destruct IsFloatComplexT, cj; reflexivity.
Qed.

(** Hence every view on a well-formed matrix that is not transposed is
    readable. *)
Lemma untransposed_reads (m : Matrix T) (row col : Segment) (cj : bool) :
  0 <= Columns m -> buffer_size m = Rows m * Columns m ->
  reads_as (ConstMatrixView_new m row col (mkMatrixState false cj))
           (values_of (ConstMatrixView_new m row col (mkMatrixState false cj))).
Proof.
  intros Hc Hsize i j Hi Hj.
  destruct (View_at_untransposed m row col cj i j Hc Hsize Hi Hj) as (x & _ & Hx).
  unfold values_of. rewrite Hx. reflexivity.
Qed.

(** [operator==] of a readable view with itself runs to its end and answers
    [true] when the tolerance comparison holds between each element and
    itself. *)
Lemma View_eq_reflexive (v : ConstMatrixView T) (L : Z -> Z -> T) :
  reads_as v L ->
  (forall i j, 0 <= i < View_Rows v -> 0 <= j < View_Columns v ->
     IsEqualFloating (L i j) (L i j) = true) ->
  View_eq v v = Some true.
Proof.
  intros Hreads Hrefl. unfold View_eq. rewrite !Z.eqb_refl. simpl.
  unfold View_ApplyToEach.
  destruct (for_loop_invariant (fun _ (b : bool) => b = true)
              (Z.to_nat (View_Rows v)) 0
              (fun i s =>
                 for_loop (Z.to_nat (View_Columns v)) 0
                   (fun j s => val ← View_at v i j;
                               r ← View_at v i j;
                               Some (if negb (IsEqualFloating val r) then false else s)) s)
              true) as (b & Hb & ->).
  - reflexivity.
  - intros i s Hi ->.
    destruct (for_loop_invariant (fun _ (b : bool) => b = true)
                (Z.to_nat (View_Columns v)) 0
                (fun j s => val ← View_at v i j;
                            r ← View_at v i j;
                            Some (if negb (IsEqualFloating val r) then false else s))
                true) as (b & Hb & ->).
    + reflexivity.
    + intros j s Hj ->. rewrite (Hreads i j) by lia. simpl.
      rewrite (Hrefl i j) by lia. simpl. eauto.
    + eauto.
  - exact Hb.
Qed.


End ReadableFacts.

(** ** The round trip of a view *)

Section RoundTrip.
Context {T : Type} {FC : FloatOrComplex T} {EU : ElementUtils T}.

(** C6 (as amended). For every view [V] a constructor can build -- any
    matrix, any requested segments (sub-views with offsets, non-square
    storage), any state -- [Transposed] exchanges the two segments and
    inverts the transposed flag only, [Conjugated] exchanges the segments and
    inverts both flags, and applying either twice gives back [V] itself: the
    same matrix, segments and state. When every element of [V] can be read
    and compares equal to itself within the tolerance, [operator==] between
    the round trip and [V] runs to its end and answers [true]. *)
Theorem view_round_trip (m : Matrix T) (row col : Segment) (st : MatrixState)
    (L : Z -> Z -> T) :
  let V := ConstMatrixView_new m row col st in
  (Transposed (Transposed V) = V
   /\ row_ (Transposed V) = column_ V
   /\ column_ (Transposed V) = row_ V
   /\ state_ (Transposed V) = mkMatrixState (negb (is_transposed st)) (is_conjugated st))
  /\ (Conjugated (Conjugated V) = V
      /\ row_ (Conjugated V) = column_ V
      /\ column_ (Conjugated V) = row_ V
      /\ state_ (Conjugated V)
         = mkMatrixState (negb (is_transposed st)) (negb (is_conjugated st)))
  /\ (reads_as V L ->
      (forall i j, 0 <= i < View_Rows V -> 0 <= j < View_Columns V ->
         IsEqualFloating (L i j) (L i j) = true) ->
      View_eq (Transposed (Transposed V)) V = Some true
      /\ View_eq (Conjugated (Conjugated V)) V = Some true).
Proof.
  cbv zeta. split; [| split].
  - rewrite Transposed_involutive, Transposed_constructed. simpl. auto.
  - rewrite Conjugated_involutive, Conjugated_constructed. simpl. auto.
  - intros Hreads Hrefl. rewrite Transposed_involutive, Conjugated_involutive.
    split; exact (View_eq_reflexive _ L Hreads Hrefl).
Qed.

End RoundTrip.

(** [view_round_trip] on the lower half of the 4x2 matrix, a view with a row
    offset over a storage that is not square. *)
Lemma view_round_trip_witness :
  reads_as lower_half_4x2 (values_of lower_half_4x2)
  /\ Transposed (Transposed lower_half_4x2) = lower_half_4x2
  /\ Conjugated (Conjugated lower_half_4x2) = lower_half_4x2
  /\ View_eq (Transposed (Transposed lower_half_4x2)) lower_half_4x2 = Some true
  /\ View_eq (Conjugated (Conjugated lower_half_4x2)) lower_half_4x2 = Some true.
Proof.
  assert (Hreads : reads_as lower_half_4x2 (values_of lower_half_4x2)).
  { apply (untransposed_reads matrix_4x2 (mkSegment 2 4) default_segment false).
    - vm_compute. discriminate.
    - reflexivity. }
  destruct (view_round_trip matrix_4x2 (mkSegment 2 4) default_segment default_state
              (values_of lower_half_4x2)) as ((HT & _) & (HC & _) & Heq).
  destruct Heq as [HeqT HeqC].
  - exact Hreads.
  - intros i j Hi Hj.
    assert (Hi2 : 0 <= i < 2) by exact Hi. assert (Hj2 : 0 <= j < 2) by exact Hj.
    assert (Hi' : i = 0 \/ i = 1) by lia. assert (Hj' : j = 0 \/ j = 1) by lia.
    destruct Hi' as [-> | ->], Hj' as [-> | ->]; vm_compute; reflexivity.
  - split; [exact Hreads |]. split; [exact HT |]. split; [exact HC |].
    split; [exact HeqT | exact HeqC].
Defined.

(** C6, the claim as written fails. Row 1 of the transposed view of a 3x3
    matrix is a sub-view with an offset: its round trip is the same view,
    but its third element is read outside the buffer, so [operator==] between
    the round trip and the view trips the assertion of the element read
    instead of answering [true]. On the view of a matrix that holds a NaN
    both round trips are the same view again and [operator==] answers
    [false]. *)
Lemma view_round_trip_comparison_fails :
  (exists M V, storage_3x3 = Some M /\ transposed_row_1 M = Some V
     /\ Transposed (Transposed V) = V
     /\ View_at V 0 2 = None
     /\ View_eq (Transposed (Transposed V)) V = None)
  /\ Transposed (Transposed (View matrix_nan)) = View matrix_nan
  /\ View_eq (Transposed (Transposed (View matrix_nan))) (View matrix_nan) = Some false
  /\ View_eq (Conjugated (Conjugated (View matrix_nan))) (View matrix_nan) = Some false.
Proof.
  split.
  - exists (mkMatrix 3 [1; 2; 3; 4; 5; 6; 7; 8; 9]%float).
    exists (mkConstMatrixView (mkMatrix 3 [1; 2; 3; 4; 5; 6; 7; 8; 9]%float)
              (mkSegment 1 2) (mkSegment 0 3) (mkMatrixState true false)).
    repeat split; vm_compute; reflexivity.
  - repeat split; vm_compute; reflexivity.
Qed.

(** ** The self-contained matrix: shapes, element access, element-wise
    operations *)

Section LegacyFacts.
Context {T : Type} {FC : FloatOrComplex T} {EU : ElementUtils T}.

Lemma square_Rows (n : Z) (m : Legacy.Matrix T) : square n m -> Legacy.Rows m = n.
Proof. intros (_ & _ & H & _). exact H. Qed.

Lemma square_Columns (n : Z) (m : Legacy.Matrix T) : square n m -> Legacy.Columns m = n.
Proof.
  intros (Hn & _ & Hr & Hs). unfold Legacy.Columns. rewrite Hr, Hs.
  destruct (Z.eqb_spec n 0); [lia |]. apply Z.div_mul. lia.
Qed.

Lemma wrap_small (z : Z) : 0 <= z < 2 ^ 64 -> Legacy.wrap z = z.
Proof. intros H. unfold Legacy.wrap. apply Z.mod_small. exact H. Qed.

Lemma square_index (n i j : Z) :
  0 < n -> 0 <= i < n -> 0 <= j < n -> 0 <= n * i + j < n * n.
Proof. intros. nia. Qed.

Lemma square_at (n : Z) (m : Legacy.Matrix T) (i j : Z) :
  square n m -> 0 <= i < n -> 0 <= j < n ->
  Legacy.Matrix_at m i j = Legacy.buffer_ m !! Z.to_nat (n * i + j)
  /\ is_Some (Legacy.Matrix_at m i j).
Proof.
  intros Hsq Hi Hj. pose proof (square_Columns n m Hsq) as Hc.
  destruct Hsq as (Hn & Hbig & Hr & Hs).
  pose proof (square_index n i j Hn Hi Hj) as Hk.
  unfold Legacy.Matrix_at. rewrite Hc, wrap_small by lia.
  destruct (Z.ltb_spec (n * i + j) (Legacy.buffer_size m)) as [_ | Hge]; [| lia].
  simpl. split; [reflexivity |].
  apply lookup_lt_is_Some. unfold Legacy.buffer_size in Hs. lia.
Qed.

Lemma square_set (n : Z) (m : Legacy.Matrix T) (i j : Z) (x : T) :
  square n m -> 0 <= i < n -> 0 <= j < n ->
  exists m', Legacy.Matrix_set m i j x = Some m'
             /\ Legacy.buffer_ m' = <[Z.to_nat (n * i + j) := x]> (Legacy.buffer_ m)
             /\ square n m'.
Proof.
  intros Hsq Hi Hj. pose proof (square_Columns n m Hsq) as Hc.
  destruct Hsq as (Hn & Hbig & Hr & Hs).
  pose proof (square_index n i j Hn Hi Hj) as Hk.
  unfold Legacy.Matrix_set. rewrite Hc, wrap_small by lia.
  destruct (Z.ltb_spec (n * i + j) (Legacy.buffer_size m)) as [_ | Hge]; [| lia].
  simpl. eexists. split; [reflexivity |]. split; [reflexivity |].
  unfold square, Legacy.buffer_size in *; simpl. rewrite length_insert. auto.
Qed.

Lemma zero_matrix_square (n : Z) : 0 < n -> n * n < 2 ^ 64 -> square n (zero_matrix n).
Proof.
  intros Hn Hbig. unfold square, zero_matrix, Legacy.buffer_size; simpl.
  rewrite length_replicate. repeat split; lia.
Qed.

Lemma zero_matrix_at (n i j : Z) :
  0 < n -> n * n < 2 ^ 64 -> 0 <= i < n -> 0 <= j < n ->
  Legacy.Matrix_at (zero_matrix n) i j = Some T_zero.
Proof.
  intros Hn Hbig Hi Hj.
  destruct (square_at n (zero_matrix n) i j (zero_matrix_square n Hn Hbig) Hi Hj) as [-> _].
  simpl. apply lookup_replicate_2. pose proof (square_index n i j Hn Hi Hj). lia.
Qed.

(** Writing zeros on the diagonal of the zero matrix leaves it as it is. *)
Lemma diag_fill_zero (n : Z) (k : nat) (idx : Z) :
  0 < n -> n * n < 2 ^ 64 -> 0 <= idx -> idx + Z.of_nat k <= n ->
  foldl (fun acc value =>
           '(idx, m) ← acc;
           m' ← Legacy.Matrix_set m idx idx value;
           Some (idx + 1, m')) (Some (idx, zero_matrix n)) (replicate k T_zero)
  = Some (idx + Z.of_nat k, zero_matrix n).
Proof.
  intros Hn Hbig. revert idx. induction k as [| k IH]; intros idx Hidx Hle.
  - simpl. rewrite Z.add_0_r. reflexivity.
  - simpl.
    destruct (square_set n (zero_matrix n) idx idx T_zero
                (zero_matrix_square n Hn Hbig) ltac:(lia) ltac:(lia))
      as (m' & Hset & Hbuf & _).
    rewrite Hset. simpl.
    assert (Hm' : m' = zero_matrix n).
    { destruct m' as [r b]. unfold Legacy.Matrix_set in Hset.
      destruct (assert _) in Hset; [| discriminate]. simpl in Hset.
      injection Hset as <- _. simpl in Hbuf. subst b. unfold zero_matrix. f_equal.
      apply list_insert_id. apply lookup_replicate_2.
      pose proof (square_index n idx idx Hn ltac:(lia) ltac:(lia)). lia. }
    rewrite Hm', IH by lia. f_equal. f_equal. lia.
Qed.

Lemma Identity_zero (n : Z) :
  0 < n -> n * n < 2 ^ 64 -> Legacy.Identity n T_zero = Some (zero_matrix n).
Proof.
  intros Hn Hbig. unfold Legacy.Identity, Legacy.Matrix_diag.
  rewrite length_replicate, Z2Nat.id, wrap_small by lia.
  unfold Legacy.Rows; simpl.
  destruct (Z.ltb_spec 0 n); [| lia]. simpl.
  change (Legacy.mkMatrix n (replicate (Z.to_nat (n * n)) T_zero)) with (zero_matrix n).
  rewrite (diag_fill_zero n (Z.to_nat n) 0) by lia. reflexivity.
Qed.

(** [ApplyToEach] with a callback that succeeds on every element and
    computes [g] maps [g] over the buffer. *)
Lemma ApplyToEach_idx_map (m : Legacy.Matrix T) (g : T -> T) (func : T -> Z -> Z -> option T) :
  Legacy.Columns m <> 0 -> Legacy.Rows m <> 0 ->
  (forall k x, 0 <= k < Legacy.buffer_size m ->
     func x (k / Legacy.Columns m) (k mod Legacy.Columns m) = Some (g x)) ->
  Legacy.ApplyToEach_idx m func
  = Some (Legacy.mkMatrix (Legacy.rows_ m) (map g (Legacy.buffer_ m))).
Proof.
  intros Hc Hr Hfunc. unfold Legacy.ApplyToEach_idx.
  destruct (Z.eqb_spec (Legacy.Columns m) 0); [contradiction |].
  destruct (Z.eqb_spec (Legacy.Rows m) 0); [contradiction |]. simpl.
  set (b := Legacy.buffer_ m).
  destruct (for_loop_invariant
              (fun k buf => length buf = length b
                 /\ forall p, (Z.of_nat p < k -> buf !! p = g <$> b !! p)
                              /\ (k <= Z.of_nat p -> buf !! p = b !! p))
              (length b) 0
              (fun i buf => x ← buf !! Z.to_nat i;
                            y ← func x (i / Legacy.Columns m) (i mod Legacy.Columns m);
                            Some (<[Z.to_nat i := y]> buf)) b) as (buf & Hloop & Hlen & Hbuf).
  - split; [reflexivity |]. intros p. split; [lia | reflexivity].
  - intros k t Hk (Hlen & Ht).
    destruct (lookup_lt_is_Some_2 b (Z.to_nat k) ltac:(lia)) as (x & Hx).
    destruct (Ht (Z.to_nat k)) as [_ Hsame]. rewrite Hsame, Hx by lia. simpl.
    rewrite Hfunc by (unfold Legacy.buffer_size; fold b; lia). simpl.
    eexists. split; [reflexivity |]. split; [rewrite length_insert; exact Hlen |].
    intros p. destruct (Nat.eq_dec p (Z.to_nat k)) as [-> | Hne].
    + rewrite list_lookup_insert_eq by lia. rewrite Hx. simpl. split; [reflexivity | lia].
    + rewrite list_lookup_insert_ne by lia. destruct (Ht p) as [Hlo Hhi].
      split; intros Hp; [apply Hlo | apply Hhi]; lia.
  - rewrite Hloop. simpl. f_equal. f_equal.
    apply list_eq. intros p. rewrite list_lookup_fmap.
    destruct (Nat.lt_ge_cases p (length b)) as [Hlt | Hge].
    + apply Hbuf. lia.
    + rewrite !lookup_ge_None_2 by lia. reflexivity.
Qed.

(** Subtracting or adding the zero matrix applies [x - 0] or [x + 0] to
    every element. *)
Lemma Matrix_sub_zero (n : Z) (m : Legacy.Matrix T) :
  square n m ->
  Legacy.Matrix_sub m (zero_matrix n)
  = Some (Legacy.mkMatrix n (map (fun x => T_sub x T_zero) (Legacy.buffer_ m))).
Proof.
  intros Hsq. pose proof Hsq as (Hn & Hbig & Hrows & Hsize).
  pose proof (zero_matrix_square n Hn Hbig) as Hz.
  unfold Legacy.Matrix_sub.
  change (Legacy.Rows (zero_matrix n)) with n.
  replace (Legacy.Columns (zero_matrix n)) with n
    by (symmetry; apply square_Columns; assumption).
  rewrite (square_Rows n m), (square_Columns n m) by assumption.
  rewrite Z.eqb_refl. simpl.
  rewrite (ApplyToEach_idx_map m (fun x => T_sub x T_zero)).
  - rewrite Hrows. reflexivity.
  - rewrite (square_Columns n m) by assumption. lia.
  - rewrite (square_Rows n m) by assumption. lia.
  - intros k x Hk. rewrite (square_Columns n m) by assumption.
    rewrite zero_matrix_at; [reflexivity | lia | lia | |].
    + split; [apply Z.div_pos; lia | apply Z.div_lt_upper_bound; lia].
    + apply Z.mod_pos_bound. lia.
Qed.

Lemma Matrix_add_zero (n : Z) (m : Legacy.Matrix T) :
  square n m ->
  Legacy.Matrix_add m (zero_matrix n)
  = Some (Legacy.mkMatrix n (map (fun x => T_add x T_zero) (Legacy.buffer_ m))).
Proof.
  intros Hsq. pose proof Hsq as (Hn & Hbig & Hrows & Hsize).
  pose proof (zero_matrix_square n Hn Hbig) as Hz.
  unfold Legacy.Matrix_add.
  change (Legacy.Rows (zero_matrix n)) with n.
  replace (Legacy.Columns (zero_matrix n)) with n
    by (symmetry; apply square_Columns; assumption).
  rewrite (square_Rows n m), (square_Columns n m) by assumption.
  rewrite Z.eqb_refl. simpl.
  rewrite (ApplyToEach_idx_map m (fun x => T_add x T_zero)).
  - rewrite Hrows. reflexivity.
  - rewrite (square_Columns n m) by assumption. lia.
  - rewrite (square_Rows n m) by assumption. lia.
  - intros k x Hk. rewrite (square_Columns n m) by assumption.
    rewrite zero_matrix_at; [reflexivity | lia | lia | |].
    + split; [apply Z.div_pos; lia | apply Z.div_lt_upper_bound; lia].
    + apply Z.mod_pos_bound. lia.
Qed.

End LegacyFacts.

(** ** The eigen-iteration *)

Section SchurFacts.
Context {T : Type} {FC : FloatOrComplex T} {EU : ElementUtils T}.

Lemma Matrix_sized_square (n : Z) :
  0 < n -> n * n < 2 ^ 64 -> Legacy.Matrix_sized n n T_zero = Some (zero_matrix n).
Proof.
  intros Hn Hbig. unfold Legacy.Matrix_sized. rewrite wrap_small by lia.
  change (Legacy.mkMatrix n (replicate (Z.to_nat (n * n)) T_zero)) with (zero_matrix n).
  rewrite (square_Rows n), (square_Columns n) by (apply zero_matrix_square; assumption).
  destruct (Z.ltb_spec 0 n); [reflexivity | lia].
Qed.

Lemma dot_square (n : Z) (lhs rhs : Legacy.Matrix T) (i j : Z) :
  square n lhs -> square n rhs -> 0 <= i < n -> 0 <= j < n ->
  is_Some (Legacy.dot lhs rhs i j).
Proof.
  intros Hl Hr Hi Hj. unfold Legacy.dot. rewrite (square_Columns n lhs Hl).
  destruct (for_loop_invariant (fun _ _ => True) (Z.to_nat n) 0
              (fun k sum => a ← Legacy.Matrix_at lhs i k;
                            b ← Legacy.Matrix_at rhs k j;
                            Some (T_add sum (T_mul a b))) T_zero) as (s & Hs & _).
  - exact I.
  - intros k t Hk _.
    destruct (square_at n lhs i k Hl Hi ltac:(lia)) as [_ [a Ha]].
    destruct (square_at n rhs k j Hr ltac:(lia) Hj) as [_ [b Hb]].
    rewrite Ha, Hb. simpl. eauto.
  - rewrite Hs. eauto.
Qed.

(** The product of two [n] x [n] matrices runs to its end and is [n] x [n]. *)
Lemma Matrix_mul_square (n : Z) (lhs rhs : Legacy.Matrix T) :
  square n lhs -> square n rhs ->
  exists p, Legacy.Matrix_mul lhs rhs = Some p /\ square n p.
Proof.
  intros Hl Hr. pose proof Hl as (Hn & Hbig & _ & _).
  unfold Legacy.Matrix_mul.
  rewrite (square_Columns n lhs Hl), (square_Rows n rhs Hr), (square_Rows n lhs Hl),
    (square_Columns n rhs Hr), Z.eqb_refl.
  simpl. rewrite Matrix_sized_square by assumption. simpl.
  destruct (for_loop_invariant (fun _ m => square n m) (Z.to_nat n) 0
              (fun i result =>
                 for_loop (Z.to_nat n) 0
                   (fun j result => sum ← Legacy.dot lhs rhs i j;
                                    Legacy.Matrix_set result i j sum) result)
              (zero_matrix n)) as (p & Hp & Hsq).
  - apply zero_matrix_square; assumption.
  - intros i m Hi Hm.
    destruct (for_loop_invariant (fun _ m => square n m) (Z.to_nat n) 0
                (fun j result => sum ← Legacy.dot lhs rhs i j;
                                 Legacy.Matrix_set result i j sum) m) as (m' & Hm' & Hsq').
    + exact Hm.
    + intros j t Hj Ht.
      destruct (dot_square n lhs rhs i j Hl Hr ltac:(lia) ltac:(lia)) as [s Hs].
      rewrite Hs. simpl.
      destruct (square_set n t i j s Ht ltac:(lia) ltac:(lia)) as (t' & Hset & _ & Ht').
      eauto.
    + eauto.
  - eauto.
Qed.

Lemma RoundZeroes_square (n : Z) (m : Legacy.Matrix T) :
  square n m -> square n (Legacy.RoundZeroes m).
Proof.
  unfold square, Legacy.RoundZeroes, Legacy.buffer_size; simpl.
  rewrite length_map. auto.
Qed.

Section Iteration.
Variable IsHermitian : Legacy.Matrix T -> bool.
Variable HouseholderQR : Legacy.Matrix T -> Legacy.Matrix T * Legacy.Matrix T.

(** The element type: subtracting [T{0}] changes nothing, and adding
    [T{0}] changes nothing that survives the rounding (in IEEE arithmetic
    [x + 0] differs from [x] for the negative zero only). *)
Hypothesis sub_zero : forall x : T, T_sub x T_zero = x.
Hypothesis add_zero_rounded : forall x : T, round_zero (T_add x T_zero) = round_zero x.

(** The factorisation of an [n] x [n] matrix has [n] x [n] factors. *)
Hypothesis HouseholderQR_square : forall n M Q R,
  square n M -> HouseholderQR M = (Q, R) -> square n Q /\ square n R.

(** One pass of the loop with the zero shift matrix is one pass of plain QR
    iteration, and it keeps the shape. *)
Lemma Schur_step_unshifted (n : Z) (copy : Legacy.Matrix T) :
  square n copy ->
  Legacy.Schur_step HouseholderQR (zero_matrix n) copy
  = Legacy.unshifted_step HouseholderQR copy
  /\ exists next, Legacy.unshifted_step HouseholderQR copy = Some next /\ square n next.
Proof.
  intros Hsq. pose proof Hsq as (Hn & Hbig & Hrows & Hsize).
  unfold Legacy.Schur_step, Legacy.unshifted_step.
  rewrite (Matrix_sub_zero n copy Hsq). simpl.
  assert (Hsame : Legacy.mkMatrix n (map (fun x => T_sub x T_zero) (Legacy.buffer_ copy)) = copy).
  { destruct copy as [r b]. simpl in *. subst r. f_equal.
    rewrite (map_ext _ (fun x => x)) by (intros; apply sub_zero). apply map_id. }
  rewrite Hsame.
  destruct (HouseholderQR copy) as [Q R] eqn:HQR.
  destruct (HouseholderQR_square n copy Q R Hsq HQR) as [HQ HR].
  destruct (Matrix_mul_square n R Q HR HQ) as (p & Hp & Hpsq).
  rewrite Hp. simpl. rewrite (Matrix_add_zero n p Hpsq). simpl.
  assert (Hround : Legacy.RoundZeroes
                     (Legacy.mkMatrix n (map (fun x => T_add x T_zero) (Legacy.buffer_ p)))
                   = Legacy.RoundZeroes p).
  { unfold Legacy.RoundZeroes; simpl. destruct Hpsq as (_ & _ & -> & _). f_equal.
    rewrite map_map. apply map_ext. intros x. apply add_zero_rounded. }
  rewrite Hround. split; [reflexivity |].
  eexists. split; [reflexivity |]. apply RoundZeroes_square. exact Hpsq.
Qed.

Lemma Schur_loop_unshifted (n : Z) (it_cnt : nat) (from : Z) (copy : Legacy.Matrix T) :
  square n copy ->
  for_loop it_cnt from (fun _ copy => Legacy.Schur_step HouseholderQR (zero_matrix n) copy) copy
  = for_loop it_cnt from (fun _ A => Legacy.unshifted_step HouseholderQR A) copy
  /\ exists result,
       for_loop it_cnt from (fun _ A => Legacy.unshifted_step HouseholderQR A) copy
       = Some result /\ square n result.
Proof.
  revert from copy. induction it_cnt as [| it IH]; intros from copy Hsq.
  - simpl. split; [reflexivity |]. eauto.
  - simpl. destruct (Schur_step_unshifted n copy Hsq) as (-> & next & -> & Hnext).
    apply IH. exact Hnext.
Qed.

(** Hermitian matrices are square. *)
Hypothesis IsHermitian_square : forall M,
  IsHermitian M = true -> Legacy.Rows M = Legacy.Columns M.

(** C1 (as amended). For a Hermitian matrix [A] with at least two rows and
    every [it_cnt], [GetSchurDecomposition] passes its assertions and runs
    the [it_cnt] passes of its loop to the end; its result is the result of
    plain unshifted QR iteration -- [it_cnt] times: factor [A] into [Q] and
    [R], replace [A] by [R * Q], round the near-zero entries -- because the
    shift matrix it subtracts and adds is the zero matrix. *)
Theorem GetSchurDecomposition_is_unshifted (A : Legacy.Matrix T) (it_cnt : nat) :
  well_formed A -> IsHermitian A = true -> 2 <= Legacy.Rows A ->
  Legacy.Identity (Legacy.Rows A) T_zero = Some (zero_matrix (Legacy.Rows A))
  /\ Legacy.GetSchurDecomposition IsHermitian HouseholderQR A it_cnt
     = Legacy.unshifted_iteration HouseholderQR A it_cnt
  /\ exists result,
       Legacy.GetSchurDecomposition IsHermitian HouseholderQR A it_cnt = Some result
       /\ Legacy.Rows result = Legacy.Rows A
       /\ Legacy.Columns result = Legacy.Columns A.
Proof.
  intros (Hrows & Hsize & Hbig) Hherm Hrows2.
  pose proof (IsHermitian_square A Hherm) as Hsquare.
  set (n := Legacy.Rows A) in *.
  assert (Hsq : square n A).
  { unfold square. rewrite <- Hsquare in Hsize. unfold Legacy.Rows in n.
    repeat split; first [lia | reflexivity | exact Hsize]. }
  pose proof Hsq as (Hn & Hnn & _ & _).
  assert (Hid : Legacy.Identity n T_zero = Some (zero_matrix n))
    by (apply Identity_zero; assumption).
  split; [exact Hid |].
  unfold Legacy.GetSchurDecomposition, Legacy.unshifted_iteration, Legacy.Copy.
  rewrite Hherm. simpl. fold n. rewrite <- Hsquare.
  assert (Hchecks : Legacy.GetSubmatrix_checks A (Legacy.wrap (n - 2)) n
                      (Legacy.wrap (n - 2)) n = Some tt).
  { unfold Legacy.GetSubmatrix_checks. rewrite wrap_small by nia.
    fold n. rewrite <- Hsquare.
    destruct (Z.leb_spec 0 (n - 2)); [| lia].
    destruct (Z.leb_spec n n); [| lia].
    destruct (Z.ltb_spec (n - 2) n); [| lia]. reflexivity. }
  rewrite Hchecks, Hid. simpl.
  destruct (Schur_loop_unshifted n it_cnt 0 A Hsq) as (Heq & result & Hres & Hrsq).
  rewrite Heq. split; [reflexivity |].
  exists result. split; [exact Hres |].
  rewrite (square_Rows n result Hrsq), (square_Columns n result Hrsq). auto.
Qed.

End Iteration.
End SchurFacts.

Lemma utils_IsHermitian_square {T : Type} {FC : FloatOrComplex T} {EU : ElementUtils T}
    (M : Legacy.Matrix T) :
  Legacy.utils_IsHermitian M = true -> Legacy.Rows M = Legacy.Columns M.
Proof.
  unfold Legacy.utils_IsHermitian. intros H.
  apply andb_true_iff in H as [H _]. apply Z.eqb_eq. exact H.
Qed.

Lemma triangular_QR_square {T : Type} {FC : FloatOrComplex T} {EU : ElementUtils T}
    (n : Z) (M Q R : Legacy.Matrix T) :
  square n M -> Legacy.triangular_QR M = (Q, R) -> square n Q /\ square n R.
Proof.
  intros Hsq HQR. injection HQR as <- <-. split; [| exact Hsq].
  destruct Hsq as (Hn & Hbig & Hr & Hs).
  unfold square, Legacy.unit_factor, Legacy.buffer_size in *; simpl.
  rewrite length_map, length_seqZ. repeat split; lia.
Qed.

(** IEEE arithmetic: [x - 0] is [x] for every double. *)
Lemma double_sub_zero (x : float) : T_sub x T_zero = x.
Proof.
  apply Prim2SF_inj. simpl. rewrite sub_spec.
  change (Prim2SF 0) with (S754_zero false).
  destruct (Prim2SF x) as [[] | | | ]; reflexivity.
Qed.

(** IEEE arithmetic: [x + 0] is [x] unless [x] is a zero, and then it is
    the positive zero. *)
Lemma double_add_zero (x : float) :
  (forall s, Prim2SF x <> S754_zero s) -> (x + 0)%float = x.
Proof.
  intros Hnz. apply Prim2SF_inj. rewrite add_spec.
  change (Prim2SF 0) with (S754_zero false).
  destruct (Prim2SF x) as [s | | | ]; try reflexivity.
  exfalso. apply (Hnz s). reflexivity.
Qed.

Lemma double_zero_add_zero (x : float) (s : bool) :
  Prim2SF x = S754_zero s -> (x + 0)%float = 0%float.
Proof.
  intros Hz. apply Prim2SF_inj. rewrite add_spec, Hz. destruct s; reflexivity.
Qed.

(** The rounding does not see the difference between [x + 0] and [x]. *)
Lemma double_add_zero_rounded (x : float) : round_zero (T_add x T_zero) = round_zero x.
Proof.
  simpl T_add. simpl T_zero.
  destruct (Prim2SF x) as [s | | | ] eqn:E.
  - rewrite (double_zero_add_zero x s E). unfold round_zero; simpl.
    rewrite !ltb_spec, !abs_spec, E. destruct s; reflexivity.
  - rewrite double_add_zero; [reflexivity | intros s'; rewrite E; discriminate].
  - rewrite double_add_zero; [reflexivity | intros s'; rewrite E; discriminate].
  - rewrite double_add_zero; [reflexivity | intros s'; rewrite E; discriminate].
Qed.

(** [GetSchurDecomposition_is_unshifted] on the doubles [[[2,0],[0,3]]],
    three passes. *)
Lemma GetSchurDecomposition_is_unshifted_witness :
  Legacy.Identity (Legacy.Rows legacy_diag_23) 0%float
  = Some (zero_matrix (Legacy.Rows legacy_diag_23))
  /\ Legacy.GetSchurDecomposition
       Legacy.utils_IsHermitian Legacy.triangular_QR legacy_diag_23 3
     = Legacy.unshifted_iteration Legacy.triangular_QR legacy_diag_23 3
  /\ exists result,
       Legacy.GetSchurDecomposition
         Legacy.utils_IsHermitian Legacy.triangular_QR legacy_diag_23 3 = Some result
       /\ Legacy.Rows result = Legacy.Rows legacy_diag_23
       /\ Legacy.Columns result = Legacy.Columns legacy_diag_23.
Proof.
  refine (GetSchurDecomposition_is_unshifted (T := float)
           Legacy.utils_IsHermitian Legacy.triangular_QR _ _ _ _ legacy_diag_23 3%nat _ _ _).
  - exact double_sub_zero.
  - exact double_add_zero_rounded.
  - intros n M Q R. apply triangular_QR_square.
  - intros M. apply utils_IsHermitian_square.
  - unfold well_formed. vm_compute. repeat split; discriminate.
  - vm_compute. reflexivity.
  - vm_compute. discriminate.
Defined.

(** C1, the claim as written fails: the 1x1 matrix [[[5]]] is Hermitian,
    and on it [GetSchurDecomposition] aborts for every factorisation and every
    [it_cnt], because the trailing minor it takes first starts at row
    [Rows() - 2], which wraps around; plain QR iteration with no pass returns
    the matrix. *)
Lemma GetSchurDecomposition_aborts_on_1x1 :
  Legacy.utils_IsHermitian legacy_1x1 = true
  /\ (forall HouseholderQR it_cnt,
        Legacy.GetSchurDecomposition Legacy.utils_IsHermitian HouseholderQR legacy_1x1 it_cnt
        = None)
  /\ Legacy.GetSubmatrix_checks legacy_1x1 (Legacy.wrap (1 - 2)) 1 (Legacy.wrap (1 - 2)) 1 = None
  /\ Legacy.unshifted_iteration Legacy.triangular_QR legacy_1x1 0 = Some legacy_1x1.
Proof.
  split; [reflexivity |]. split; [| split; reflexivity].
  intros HouseholderQR it_cnt. reflexivity.
Qed.

(** ** The Wilkinson shift and the bidiagonal sweep *)

Section ShiftFacts.
Context {T : Type} {FC : FloatOrComplex T} {EU : ElementUtils T}.

Lemma block_at (a b c d : T) :
  Legacy.Matrix_at (Legacy.mkMatrix 2 [a; b; c; d]) 0 0 = Some a
  /\ Legacy.Matrix_at (Legacy.mkMatrix 2 [a; b; c; d]) 0 1 = Some b
  /\ Legacy.Matrix_at (Legacy.mkMatrix 2 [a; b; c; d]) 1 0 = Some c
  /\ Legacy.Matrix_at (Legacy.mkMatrix 2 [a; b; c; d]) 1 1 = Some d.
Proof. repeat split; reflexivity. Qed.

(** On a 2x2 block [[[a, b], [b, d]]] that passes the symmetry assertion,
    [GetWilkinsonShift] returns the value of [shift_formula]. *)
Lemma GetWilkinsonShift_value (a b d : T) :
  T_eqb b b = true ->
  Legacy.GetWilkinsonShift (Legacy.mkMatrix 2 [a; b; b; d]) = Some (shift_formula a b d).
Proof.
  intros Hsym. unfold Legacy.GetWilkinsonShift.
  destruct (block_at a b b d) as (-> & -> & -> & ->).
  change (Legacy.Rows (Legacy.mkMatrix 2 [a; b; b; d])) with 2.
  change (Legacy.Columns (Legacy.mkMatrix 2 [a; b; b; d])) with 2.
  simpl. rewrite Hsym. reflexivity.
Qed.

End ShiftFacts.

Example GetWilkinsonShift_on_4331 :
  Legacy.GetWilkinsonShift legacy_block_4331 = Some (shift_formula 4 3 1)%float.
Proof. apply (GetWilkinsonShift_value 4 3 1)%float. vm_compute. reflexivity. Qed.

(** IEEE arithmetic: whatever [s] is, [s * 0 * 0] is a zero or a NaN, and
    its quotient by zero is a NaN. *)
Lemma double_zero_quotient (s : float) : (s * 0 * 0 / 0)%float = nan.
Proof.
  apply Prim2SF_inj. rewrite div_spec, !mul_spec.
  change (Prim2SF 0) with (S754_zero false). change (Prim2SF nan) with S754_nan.
  destruct (Prim2SF s) as [[] | [] | | [] m e]; reflexivity.
Qed.

(** IEEE arithmetic: [d - NaN] is a NaN. *)
Lemma double_sub_nan (d : float) : (d - nan)%float = nan.
Proof.
  apply Prim2SF_inj. rewrite sub_spec. change (Prim2SF nan) with S754_nan.
  destruct (Prim2SF d) as [[] | [] | | [] m e]; reflexivity.
Qed.

(** C3, the defect of the code. On every block [[[d, 0], [0, d]]] of doubles
    with [d - d = 0] (every finite [d]; the identity is the case [d = 1])
    both [delta] and [b] are zero, the block passes the assertions of the
    function, the denominator [|delta| + sqrt(delta^2 + b^2)] is zero, the
    quotient is [0 / 0], and [GetWilkinsonShift] returns a NaN and not [d]:
    nothing guards the division. This holds whatever the helper [Sign]
    returns. *)
Theorem GetWilkinsonShift_scalar_block_is_nan (EU : ElementUtils float) (d : float) :
  (d - d)%float = 0%float ->
  Legacy.GetWilkinsonShift (EU := EU) (Legacy.mkMatrix 2 [d; 0; 0; d]%float) = Some nan
  /\ (abs ((d - d) / 2) + sqrt ((d - d) / 2 * ((d - d) / 2) + 0 * 0))%float = 0%float
  /\ d <> nan.
Proof.
  intros Hd. split; [| split].
  - rewrite (GetWilkinsonShift_value (EU := EU) d 0%float d) by reflexivity.
    unfold shift_formula. simpl. rewrite Hd.
    change (0 / 2)%float with 0%float.
    change (abs 0 + sqrt (0 * 0 + 0 * 0))%float with 0%float.
    rewrite double_zero_quotient, double_sub_nan. reflexivity.
  - rewrite Hd. reflexivity.
  - intros ->. vm_compute in Hd. discriminate Hd.
Qed.

(** [GetWilkinsonShift_scalar_block_is_nan] on the identity, with the sign
    helper of the doubles. *)
Lemma GetWilkinsonShift_scalar_block_is_nan_witness :
  Legacy.GetWilkinsonShift legacy_identity_2 = Some nan
  /\ (abs ((1 - 1) / 2) + sqrt ((1 - 1) / 2 * ((1 - 1) / 2) + 0 * 0))%float = 0%float
  /\ 1%float <> nan.
Proof.
  apply (GetWilkinsonShift_scalar_block_is_nan double_ElementUtils 1%float). reflexivity.
Defined.

(** C7, the code at a failing input. The identity is a 2x2 bidiagonal
    matrix. With no sweep the result is [{I, B, I}] and reconstructs [B];
    with one sweep the shift of the block [BB = I] is the NaN of the
    division by the zero denominator, it enters the first rotation, and every
    entry of [U], [S] and [VT] is a NaN: [U * S * VT] does not compare equal
    to [B]. *)
Lemma BidiagonalAlgorithmQR_identity_is_nan :
  Legacy.utils_IsBidiagonal legacy_identity_2 = true
  /\ (exists res,
        Legacy.BidiagonalAlgorithmQR Legacy.utils_IsBidiagonal legacy_identity_2 0 = Some res
        /\ Legacy.reconstructs res legacy_identity_2 = Some true)
  /\ (exists BB,
        Legacy.Gram_block legacy_identity_2 2 2 = Some BB
        /\ BB = legacy_identity_2
        /\ Legacy.GetWilkinsonShift BB = Some nan)
  /\ (exists res,
        Legacy.BidiagonalAlgorithmQR Legacy.utils_IsBidiagonal legacy_identity_2 1 = Some res
        /\ Legacy.buffer_ (Legacy.U res) = [nan; nan; nan; nan]
        /\ Legacy.buffer_ (Legacy.diag res) = [nan; nan; nan; nan]
        /\ Legacy.buffer_ (Legacy.VT res) = [nan; nan; nan; nan]
        /\ Legacy.reconstructs res legacy_identity_2 = Some false).
Proof.
  split; [vm_compute; reflexivity |].
  split.
  { exists (Legacy.mkDiagBasisQR legacy_identity_2 legacy_identity_2 legacy_identity_2).
    split; vm_compute; reflexivity. }
  split.
  { exists legacy_identity_2. repeat split; vm_compute; reflexivity. }
  exists (Legacy.mkDiagBasisQR legacy_nan_2 legacy_nan_2 legacy_nan_2).
  repeat split; vm_compute; reflexivity.
Qed.

(** ** In-place transposition *)

(** *** The index map of the cycles *)

(** [a] x [b] elements, [last = a * b - 1]. *)
Lemma index_map_range (a b last k : Z) :
  1 <= a -> 1 <= b -> a * b = last + 1 ->
  0 <= k <= last -> 0 <= index_map a last k <= last.
Proof.
  intros Ha Hb Hab Hk. unfold index_map. destruct (Z.eqb_spec k last) as [-> | Hne]; [lia |].
  rewrite Z.rem_mod_nonneg by nia.
  pose proof (Z.mod_pos_bound (a * k) last ltac:(lia)). lia.
Qed.

Lemma index_map_zero (a last : Z) : index_map a last 0 = 0.
Proof.
  unfold index_map. destruct (Z.eqb_spec 0 last) as [<- | Hne]; [reflexivity |].
  rewrite Z.mul_0_r. apply Z.rem_0_l. lia.
Qed.

(** Following the map of the transposed shape undoes a step. *)
Lemma index_map_inverse (a b last k : Z) :
  1 <= a -> 1 <= b -> a * b = last + 1 -> 0 <= k <= last ->
  index_map b last (index_map a last k) = k.
Proof.
  intros Ha Hb Hab Hk. unfold index_map at 2.
  destruct (Z.eqb_spec k last) as [-> | Hne].
  - unfold index_map. rewrite Z.eqb_refl. reflexivity.
  - assert (Hlast : 0 < last) by lia.
    rewrite Z.rem_mod_nonneg by nia.
    pose proof (Z.mod_pos_bound (a * k) last Hlast) as Hy.
    unfold index_map. destruct (Z.eqb_spec ((a * k) mod last) last) as [Heq | _]; [lia |].
    rewrite Z.rem_mod_nonneg by nia.
    rewrite Z.mul_mod_idemp_r by lia.
    replace (b * (a * k)) with (k + k * last) by nia.
    rewrite Z.mod_add by lia. apply Z.mod_small. lia.
Qed.

(** The position in the transposed buffer of the element at row [j],
    column [i] of an [a]-column matrix. *)
Lemma index_map_transposes (a b last i j : Z) :
  1 <= a -> 1 <= b -> a * b = last + 1 -> 0 <= i < a -> 0 <= j < b ->
  index_map a last (b * i + j) = a * j + i.
Proof.
  intros Ha Hb Hab Hi Hj. unfold index_map.
  destruct (Z.eqb_spec (b * i + j) last) as [Heq | Hne].
  - assert (i = a - 1) by nia. assert (j = b - 1) by nia. nia.
  - assert (Hlast : 0 < last) by nia.
    rewrite Z.rem_mod_nonneg by nia.
    replace (a * (b * i + j)) with (a * j + i + i * last) by nia.
    rewrite Z.mod_add by lia. apply Z.mod_small.
    assert (a * j + i <> last) by nia. nia.
Qed.

(** *** The visited flags *)

Lemma count_false_le (vis : list bool) : (count_false vis <= length vis)%nat.
Proof. induction vis as [| [] vis IH]; simpl; lia. Qed.

Lemma count_false_mark (vis : list bool) (k : nat) :
  vis !! k = Some false ->
  (count_false (<[k := true]> vis) + 1 = count_false vis)%nat.
Proof.
  revert k. induction vis as [| v vis IH]; intros k Hk; [discriminate |].
  destruct k as [| k]; simpl in *.
  - injection Hk as ->. lia.
  - rewrite <- (IH k Hk). lia.
Qed.

(** *** One cycle and the outer loop *)

Section Cycles.
Context {T : Type}.
(** The buffer [B] at entry holds [r] rows of [c] elements. *)
Variables (r c : Z) (B : list T).
Hypothesis r_pos : 1 <= r.
Hypothesis c_pos : 1 <= c.
Hypothesis size_B : r * c = Z.of_nat (length B).

Local Abbreviation n := (Z.of_nat (length B)).
Local Abbreviation last := (Z.of_nat (length B) - 1).
Local Abbreviation dest := (CycleSpec.dest r B).
Local Abbreviation src := (CycleSpec.src c B).
Local Abbreviation along := (CycleSpec.along r B).
Local Abbreviation outer_inv := (CycleSpec.outer_inv r c B).

Lemma size_last : r * c = last + 1.
Proof. lia. Qed.

Lemma dest_range (k : Z) : 0 <= k < n -> 0 <= dest k < n.
Proof.
  intros Hk. pose proof (index_map_range r c last k r_pos c_pos size_last).
  unfold CycleSpec.dest. lia.
Qed.

Lemma src_dest (k : Z) : 0 <= k < n -> src (dest k) = k.
Proof.
  intros Hk. apply (index_map_inverse r c last k r_pos c_pos size_last). lia.
Qed.

Lemma dest_src (k : Z) : 0 <= k < n -> dest (src k) = k.
Proof.
  intros Hk. apply (index_map_inverse c r last k c_pos r_pos); [| lia].
  rewrite Z.mul_comm. apply size_last.
Qed.

Lemma dest_inj (x y : Z) : 0 <= x < n -> 0 <= y < n -> dest x = dest y -> x = y.
Proof. intros Hx Hy H. rewrite <- (src_dest x Hx), <- (src_dest y Hy), H. reflexivity. Qed.

Lemma src_zero : src 0 = 0.
Proof. apply index_map_zero. Qed.

Lemma along_0 (i : Z) : along 0 i = i.
Proof. reflexivity. Qed.

Lemma along_S (t : nat) (i : Z) : along (S t) i = dest (along t i).
Proof. reflexivity. Qed.

Lemma along_range (t : nat) (i : Z) : 0 <= i < n -> 0 <= along t i < n.
Proof.
  intros Hi. induction t as [| t IH]; [exact Hi |].
  rewrite along_S. apply dest_range, IH.
Qed.

(** A cycle that meets itself has come back to its start. *)
Lemma along_cancel (t u : nat) (i : Z) :
  0 <= i < n -> along (t + u) i = along t i -> along u i = i.
Proof.
  intros Hi. induction t as [| t IH]; [simpl; auto |].
  change (S t + u)%nat with (S (t + u)). rewrite !along_S.
  intros H. apply IH. apply dest_inj in H; [exact H | apply along_range, Hi ..].
Qed.

Section OneCycle.
(** The cycle of [i], entered in the state [(buf0, W)]. *)
Variables (i : Z) (buf0 : list T) (W : list bool).
Hypothesis i_range : 1 <= i < n.
Hypothesis entry : outer_inv i (buf0, W).
Hypothesis i_fresh : W !! Z.to_nat i = Some false.

Local Abbreviation cycle_inv := (CycleSpec.cycle_inv r c B i W).

(** Going back from a visited index of the entry state stays visited. *)
Lemma entry_closed (t : nat) :
  W !! Z.to_nat (along t i) = Some true -> W !! Z.to_nat i = Some true.
Proof.
  destruct entry as (_ & _ & _ & _ & Hback & _). simpl in Hback.
  induction t as [| t IH]; [auto |].
  rewrite along_S. intros H. apply IH. apply Hback; [apply along_range; lia | exact H].
Qed.

Lemma cycle_inv_entry : cycle_inv 0 (buf0, W).
Proof.
  destruct entry as (Hlb & Hlv & Hplaced & Hkept & _ & _). simpl in *.
  unfold CycleSpec.cycle_inv; simpl. repeat split; auto.
  - intros [HW | (t & Ht & _)]; [exact HW | lia].
  - intros t Ht. lia.
  - rewrite along_0. apply Hkept; [lia | exact i_fresh].
Qed.

Lemma flag_of (vis : list bool) (k : Z) :
  length vis = length B -> 0 <= k < n ->
  vis !! Z.to_nat k = Some true \/ vis !! Z.to_nat k = Some false.
Proof.
  intros Hlen Hk.
  destruct (lookup_lt_is_Some_2 vis (Z.to_nat k) ltac:(lia)) as ([] & ->); auto.
Qed.

(** The index a step reaches is the start of the cycle or has not been
    visited. *)
Lemma step_fresh (m : nat) (st : list T * list bool) :
  cycle_inv m st -> along (S m) i <> i ->
  snd st !! Z.to_nat (along (S m) i) = Some false.
Proof.
  intros (_ & Hlv & Hvis & Hopen & _) Hne.
  pose proof (along_range (S m) i ltac:(lia)) as Hy.
  destruct (flag_of (snd st) (along (S m) i) Hlv Hy) as [Htrue | Hfalse]; [| exact Hfalse].
  exfalso. apply Hvis in Htrue; [| exact Hy]. destruct Htrue as [HW | (t & Ht & Heq)].
  - apply entry_closed in HW. congruence.
  - replace (S m) with (t + (S m - t))%nat in Heq by lia.
    apply along_cancel in Heq; [| lia].
    apply (Hopen (S m - t)%nat); [lia | exact Heq].
Qed.

(** A step that has not closed the cycle. *)
Lemma cycle_inv_step (m : nat) (buf : list T) (vis : list bool) (x y : T) :
  cycle_inv m (buf, vis) -> along (S m) i <> i ->
  buf !! Z.to_nat (along (S m) i) = Some x -> buf !! Z.to_nat i = Some y ->
  cycle_inv (S m)
    (<[Z.to_nat i := x]> (<[Z.to_nat (along (S m) i) := y]> buf),
     <[Z.to_nat (along (S m) i) := true]> vis).
Proof.
  intros Hinv Hne Hx Hy. pose proof (step_fresh m (buf, vis) Hinv Hne) as Hfresh.
  destruct Hinv as (Hlb & Hlv & Hvis & Hopen & Hcur & Hplaced & Hkept). simpl in *.
  pose proof (along_range (S m) i ltac:(lia)) as Hrange.
  pose proof (along_range m i ltac:(lia)) as Hrange_m.
  set (s := along (S m) i) in *.
  assert (Hsi : Z.to_nat s <> Z.to_nat i) by lia.
  unfold CycleSpec.cycle_inv; simpl. split; [| split; [| split; [| split; [| split; [| split]]]]].
  - rewrite !length_insert. exact Hlb.
  - rewrite length_insert. exact Hlv.
  - intros k Hk. destruct (Z.eq_dec k s) as [-> | Hks].
    + rewrite list_lookup_insert_eq by (lia).
      split; [| reflexivity]. intros _. right. exists (S m). split; [lia | reflexivity].
    + rewrite list_lookup_insert_ne by lia. rewrite (Hvis k Hk). split.
      * intros [HW | (t & Ht & Heq)]; [left; exact HW |].
        right. exists t. split; [lia | exact Heq].
      * intros [HW | (t & Ht & Heq)]; [left; exact HW |].
        destruct (Nat.eq_dec t (S m)) as [-> | Htm]; [contradiction |].
        right. exists t. split; [lia | exact Heq].
  - intros t Ht. destruct (Nat.eq_dec t (S m)) as [-> | Htm]; [exact Hne |].
    apply Hopen. lia.
  - rewrite list_lookup_insert_eq by (rewrite length_insert; lia).
    rewrite <- Hx. apply Hkept; [exact Hrange | exact Hne | exact Hfresh].
  - intros k Hk Hki Htrue. rewrite list_lookup_insert_ne by lia.
    destruct (Z.eq_dec k s) as [-> | Hks].
    + rewrite list_lookup_insert_eq by (lia).
      rewrite <- Hy, Hcur. f_equal. f_equal. unfold s. rewrite along_S.
      symmetry. apply src_dest. exact Hrange_m.
    + rewrite list_lookup_insert_ne in Htrue by lia.
      rewrite list_lookup_insert_ne by lia. apply Hplaced; assumption.
  - intros k Hk Hki Hfalse. rewrite list_lookup_insert_ne by lia.
    destruct (Z.eq_dec k s) as [-> | Hks].
    + rewrite list_lookup_insert_eq in Hfalse by (lia). discriminate.
    + rewrite list_lookup_insert_ne in Hfalse by lia.
      rewrite list_lookup_insert_ne by lia. apply Hkept; assumption.
Qed.

(** The step that closes the cycle. *)
Lemma cycle_inv_close (m : nat) (buf : list T) (vis : list bool) :
  cycle_inv m (buf, vis) -> along (S m) i = i ->
  outer_inv (i + 1) (buf, <[Z.to_nat i := true]> vis).
Proof.
  intros (Hlb & Hlv & Hvis & Hopen & Hcur & Hplaced & Hkept) Hclose. simpl in *.
  destruct entry as (_ & _ & _ & _ & Hback & Hbelow). simpl in *.
  pose proof (along_range m i ltac:(lia)) as Hrange_m.
  assert (Hsrc : src i = along m i).
  { rewrite <- Hclose at 1. rewrite along_S. apply src_dest. exact Hrange_m. }
  unfold CycleSpec.outer_inv; simpl. split; [| split; [| split; [| split; [| split]]]].
  - exact Hlb.
  - rewrite length_insert. exact Hlv.
  - intros k Hk Htrue. destruct (Z.eq_dec k i) as [-> | Hki].
    + rewrite Hsrc. exact Hcur.
    + rewrite list_lookup_insert_ne in Htrue by lia. apply Hplaced; assumption.
  - intros k Hk Hfalse. destruct (Z.eq_dec k i) as [-> | Hki].
    + rewrite list_lookup_insert_eq in Hfalse by (lia). discriminate.
    + rewrite list_lookup_insert_ne in Hfalse by lia. apply Hkept; assumption.
  - intros k Hk Htrue.
    assert (Hki : forall t, (t <= m)%nat -> k = along t i ->
                    <[Z.to_nat i := true]> vis !! Z.to_nat k = Some true).
    { intros t Ht ->. destruct t as [| t].
      - rewrite along_0. apply list_lookup_insert_eq. lia.
      - destruct (Z.eq_dec (along (S t) i) i) as [-> | Hne].
        + apply list_lookup_insert_eq. lia.
        + rewrite list_lookup_insert_ne by (pose proof (along_range (S t) i); lia).
          apply Hvis; [apply along_range; lia |].
          right. exists (S t). split; [lia | reflexivity]. }
    destruct (Z.eq_dec (dest k) i) as [Hdi | Hdi].
    + apply (Hki m); [lia |]. apply dest_inj; [exact Hk | exact Hrange_m |].
      rewrite Hdi, <- along_S. symmetry. exact Hclose.
    + rewrite list_lookup_insert_ne in Htrue by (pose proof (dest_range k Hk); lia).
      apply Hvis in Htrue; [| apply dest_range; exact Hk].
      destruct Htrue as [HW | (t & Ht & Heq)].
      * destruct (Z.eq_dec k i) as [-> | Hne].
        -- apply list_lookup_insert_eq. lia.
        -- rewrite list_lookup_insert_ne by lia. apply Hvis; [exact Hk |].
           left. apply Hback; assumption.
      * apply (Hki (t - 1)%nat); [lia |].
        apply dest_inj; [exact Hk | apply along_range; lia |].
        rewrite Heq, <- along_S. f_equal. lia.
  - intros k Hk. destruct (Z.eq_dec k i) as [-> | Hki].
    + apply list_lookup_insert_eq. lia.
    + rewrite list_lookup_insert_ne by lia. apply Hvis; [lia |].
      left. apply Hbelow. lia.
Qed.

(** The [do]-[while] loop of the cycle runs to its end within the fuel and
    leaves the state of the outer loop after index [i]. *)
Lemma walk_cycle_runs (fuel m : nat) (st : list T * list bool) :
  cycle_inv m st -> (count_false (snd st) < fuel)%nat ->
  exists st', walk_cycle fuel r last i (along m i) st = Some st'
              /\ outer_inv (i + 1) st'.
Proof.
  revert m st. induction fuel as [| fuel IH]; intros m [buf vis] Hinv Hcount; [lia |].
  simpl in Hcount. simpl walk_cycle.
  change (index_map r last (along m i)) with (along (S m) i).
  pose proof (along_range (S m) i ltac:(lia)) as Hrange.
  pose proof Hinv as (Hlb & Hlv & _). simpl in Hlb, Hlv.
  destruct (lookup_lt_is_Some_2 buf (Z.to_nat (along (S m) i))
              ltac:(lia)) as (x & Hx).
  destruct (lookup_lt_is_Some_2 buf (Z.to_nat i) ltac:(lia)) as (y & Hy).
  unfold swap_at, mark.
  destruct (Z.leb_spec 0 (along (S m) i)) as [_ | ?]; [| lia].
  destruct (Z.leb_spec 0 i) as [_ | ?]; [| lia].
  destruct (Z.ltb_spec (along (S m) i) (Z.of_nat (length vis))) as [_ | ?];
    [| lia].
  simpl. rewrite Hx, Hy. simpl.
  destruct (Z.eqb_spec (along (S m) i) i) as [Hclose | Hopen].
  - eexists. split; [reflexivity |]. rewrite Hclose in *.
    rewrite list_insert_insert_eq, list_insert_id by exact Hx.
    apply (cycle_inv_close m buf vis Hinv Hclose).
  - apply (IH (S m)).
    + apply cycle_inv_step; assumption.
    + simpl. pose proof (step_fresh m (buf, vis) Hinv Hopen) as Hfresh. simpl in Hfresh.
      pose proof (count_false_mark vis _ Hfresh). lia.
Qed.

End OneCycle.

(** The body of the outer loop. *)
Lemma walk_step_runs (i : Z) (st : list T * list bool) :
  1 <= i < n -> outer_inv i st ->
  exists st', walk_step (S (length B)) r last i st = Some st'
              /\ outer_inv (i + 1) st'.
Proof.
  intros Hi Hinv. destruct st as [buf W]. unfold walk_step. simpl snd.
  pose proof Hinv as (Hlb & Hlv & Hplaced & Hkept & Hback & Hbelow). simpl in *.
  destruct (flag_of W i Hlv ltac:(lia)) as [Htrue | Hfalse].
  - rewrite Htrue. simpl. eexists. split; [reflexivity |].
    unfold CycleSpec.outer_inv; simpl. repeat split; auto.
    intros k Hk. destruct (Z.eq_dec k i) as [-> | Hne]; [exact Htrue | apply Hbelow; lia].
  - rewrite Hfalse. simpl.
    apply (walk_cycle_runs i buf W Hi Hinv Hfalse (S (length B)) 0 (buf, W)).
    + apply (cycle_inv_entry i buf W Hi Hinv Hfalse).
    + simpl. pose proof (count_false_le W). lia.
Qed.

(** The outer loop moves the element at [src k] to every index [k]. *)
Lemma Transpose_loop_runs :
  exists buf vis,
    for_loop (length B - 1) 1 (walk_step (S (length B)) r last)
      (B, replicate (length B) false) = Some (buf, vis)
    /\ length buf = length B
    /\ forall k, 0 <= k < n -> buf !! Z.to_nat k = B !! Z.to_nat (src k).
Proof.
  destruct (for_loop_invariant outer_inv (length B - 1) 1
              (walk_step (S (length B)) r last)
              (B, replicate (length B) false)) as ([buf vis] & Hloop & Hinv).
  - unfold CycleSpec.outer_inv; simpl. rewrite length_replicate. repeat split; auto.
    + intros k Hk Htrue. apply lookup_replicate_1 in Htrue as [? _]. discriminate.
    + intros k Hk Htrue. apply lookup_replicate_1 in Htrue as [? _]. discriminate.
    + intros k Hk. lia.
  - intros k st Hk Hinv. apply walk_step_runs; [lia | exact Hinv].
  - exists buf, vis. split; [exact Hloop |].
    destruct Hinv as (Hlb & Hlv & Hplaced & Hkept & _ & Hbelow). simpl in *.
    split; [exact Hlb |]. intros k Hk.
    destruct (flag_of vis k Hlv Hk) as [Htrue | Hfalse]; [apply Hplaced; assumption |].
    destruct (Z.eq_dec k 0) as [-> | Hne].
    + rewrite src_zero. apply Hkept; assumption.
    + rewrite Hbelow in Hfalse by (lia). discriminate.
Qed.

End Cycles.

(** *** The transposed matrix *)

Section TransposeFacts.
Context {T : Type} {IL : IndexLimits}.

(** While the products [Rows() * swap_idx] are values of [IndexType], the
    cycles of [Transpose] are the walk in the integers. *)
Lemma follow_cycle_walk (fuel : nat) (r c last i s : Z) (st : list T * list bool) :
  1 <= r -> 1 <= c -> r * c = last + 1 -> r * last <= IndexType_max -> 0 <= s <= last ->
  follow_cycle fuel r last i s st = walk_cycle fuel r last i s st.
Proof.
  intros Hr Hc Hrc Hbig. revert s st.
  induction fuel as [| fuel IH]; intros s st Hs; [reflexivity |].
  assert (Hnext : next_idx r last s = Some (index_map r last s)).
  { unfold next_idx, index_map. destruct (s =? last); [reflexivity |].
    unfold in_IndexType.
    destruct (Z.leb_spec (- IndexType_max - 1) (r * s)); [| nia].
    destruct (Z.leb_spec (r * s) IndexType_max); [| nia]. reflexivity. }
  pose proof (index_map_range r c last s Hr Hc Hrc Hs) as Hrange.
  simpl. rewrite Hnext. simpl.
  destruct (swap_at (fst st) (index_map r last s) i); [| reflexivity]. simpl.
  destruct (mark (snd st) (index_map r last s)); [| reflexivity]. simpl.
  destruct (index_map r last s =? i); [reflexivity |]. apply IH. exact Hrange.
Qed.

(** On a matrix with elements whose size times its row count is a value of
    [IndexType], [Transpose] runs to its end, sets the column count to the
    row count and moves to every index [k] the element the index map of the
    transposed shape points to. *)
Lemma Transpose_buffer (m : Matrix T) :
  1 <= Rows m -> 1 <= Columns m -> Rows m * Columns m = buffer_size m ->
  Rows m * buffer_size m <= IndexType_max ->
  exists buf, Transpose m = Some (mkMatrix (Rows m) buf)
    /\ length buf = length (buffer_ m)
    /\ forall k, 0 <= k < buffer_size m ->
         buf !! Z.to_nat k
         = buffer_ m !! Z.to_nat (index_map (Columns m) (buffer_size m - 1) k).
Proof.
  intros Hr Hc Hsize Hbig.
  destruct (Transpose_loop_runs (Rows m) (Columns m) (buffer_ m) Hr Hc Hsize)
    as (buf & vis & Hloop & Hlen & Hbuf).
  exists buf. unfold Transpose. cbv zeta.
  rewrite (for_loop_ext _ _ _
             (walk_step (Datatypes.S (length (buffer_ m))) (Rows m) (buffer_size m - 1))).
  - unfold buffer_size. rewrite Hloop. simpl.
    split; [reflexivity |]. split; [exact Hlen |]. exact Hbuf.
  - intros k t Hk. unfold Transpose_step, walk_step.
    destruct (snd t !! Z.to_nat k) as [[|] |]; try reflexivity.
    unfold buffer_size in *.
    exact (follow_cycle_walk _ (Rows m) (Columns m) (Z.of_nat (length (buffer_ m)) - 1) k k t
             Hr Hc ltac:(lia) ltac:(nia) ltac:(lia)).
Qed.

Lemma Rows_of_product (r c : Z) (buf : list T) :
  1 <= c -> Z.of_nat (length buf) = r * c -> Rows (mkMatrix c buf) = r.
Proof.
  intros Hc Hlen. unfold Rows, buffer_size; simpl.
  destruct (Z.eqb_spec c 0); [lia |]. rewrite Hlen. apply Z.div_mul. lia.
Qed.

Lemma Matrix_at_linear (m : Matrix T) (i j : Z) :
  0 <= Columns m * i + j < buffer_size m ->
  Matrix_at m i j = buffer_ m !! Z.to_nat (Columns m * i + j)
  /\ is_Some (Matrix_at m i j).
Proof.
  intros Hk. unfold Matrix_at, index_in_buffer.
  destruct (Z.leb_spec 0 (Columns m * i + j)); [| lia].
  destruct (Z.ltb_spec (Columns m * i + j) (buffer_size m)); [| lia].
  simpl. split; [reflexivity |]. apply lookup_lt_is_Some. unfold buffer_size in *. lia.
Qed.

(** C5 (as amended). For every matrix [M] with [r] rows and [c] columns that
    holds elements ([r >= 1] and [c >= 1]) or is the empty 0x0 matrix, and
    small enough for the index arithmetic (the element count times [r] and
    times [c] are values of [IndexType]), [Transpose] runs to its end and
    leaves a matrix with [c] rows and [r] columns whose element [(i, j)] is
    the element [(j, i)] of [M]; transposing that matrix again gives back
    [M]. *)
Theorem Transpose_transposes (m : Matrix T) :
  0 <= Columns m -> buffer_size m = Rows m * Columns m ->
  (Rows m = 0 -> Columns m = 0) ->
  Rows m * buffer_size m <= IndexType_max ->
  Columns m * buffer_size m <= IndexType_max ->
  exists m', Transpose m = Some m'
    /\ Rows m' = Columns m /\ Columns m' = Rows m
    /\ (forall i j, 0 <= i < Columns m -> 0 <= j < Rows m ->
          is_Some (Matrix_at m j i) /\ Matrix_at m' i j = Matrix_at m j i)
    /\ Transpose m' = Some m.
Proof.
  intros Hcols Hsize Hempty Hbig Hbig'. destruct m as [c B].
  destruct (Z.eq_dec c 0) as [-> | Hc0].
  - assert (HB : B = []).
    { unfold buffer_size, Rows in Hsize; simpl in Hsize. destruct B; [reflexivity | simpl in Hsize; lia]. }
    subst B. exists (mkMatrix 0 []). repeat split; try reflexivity; simpl in *; lia.
  - assert (Hr : 1 <= Rows (mkMatrix c B)).
    { assert (0 <= Rows (mkMatrix c B)).
      { unfold Rows, buffer_size; simpl. destruct (Z.eqb_spec c 0); [lia |].
        apply Z.div_pos; unfold Columns in Hcols; simpl in Hcols; lia. }
      destruct (Z.eq_dec (Rows (mkMatrix c B)) 0) as [H0 | H0]; [| lia].
      apply Hempty in H0. unfold Columns in H0; simpl in H0. lia. }
    set (r := Rows (mkMatrix c B)) in *.
    unfold Columns in *; simpl in Hcols, Hsize, Hbig'.
    assert (Hc : 1 <= c) by lia.
    assert (Hrc : r * c = buffer_size (mkMatrix c B)) by lia.
    destruct (Transpose_buffer (mkMatrix c B) Hr Hc Hrc Hbig) as (buf & Hrun & Hlen & Hbuf).
    fold r in Hrun. simpl in Hlen, Hbuf.
    unfold buffer_size in Hsize, Hrc, Hbuf, Hbig, Hbig'; simpl in *.
    set (m' := mkMatrix r buf) in *.
    assert (Hrows' : Rows m' = c) by (apply Rows_of_product; lia).
    exists m'. split; [exact Hrun |]. split; [exact Hrows' |]. split; [reflexivity |]. split.
    + intros i j Hi Hj.
      assert (Hk : 0 <= c * j + i < Z.of_nat (length B)) by nia.
      assert (Hk' : 0 <= r * i + j < Z.of_nat (length B)) by nia.
      destruct (Matrix_at_linear (mkMatrix c B) j i Hk) as [-> Hsome].
      destruct (Matrix_at_linear m' i j) as [-> _];
        [unfold buffer_size; simpl; lia |].
      split; [exact Hsome |]. simpl. rewrite Hbuf by exact Hk'.
      rewrite index_map_transposes with (b := r) by lia. reflexivity.
    + assert (Hrc' : Rows m' * Columns m' = buffer_size m').
      { rewrite Hrows'. unfold buffer_size; simpl. lia. }
      assert (Hbig2 : Rows m' * buffer_size m' <= IndexType_max).
      { rewrite Hrows'. unfold buffer_size; simpl. lia. }
      destruct (Transpose_buffer m' ltac:(lia) Hr Hrc' Hbig2) as (buf2 & Hrun2 & Hlen2 & Hbuf2).
      rewrite Hrun2, Hrows'. f_equal. f_equal.
      apply list_eq. intros k. simpl in Hlen2.
      destruct (Nat.lt_ge_cases k (length B)) as [Hlt | Hge].
      * specialize (Hbuf2 (Z.of_nat k)). unfold buffer_size in Hbuf2; simpl in Hbuf2.
        rewrite Nat2Z.id, Hlen in Hbuf2. rewrite Hbuf2 by lia.
        pose proof (index_map_range r c (Z.of_nat (length B) - 1) (Z.of_nat k)
                      Hr Hc ltac:(lia) ltac:(lia)) as Hrange.
        rewrite Hbuf by lia.
        rewrite (index_map_inverse r c) by lia. rewrite Nat2Z.id. reflexivity.
      * rewrite !lookup_ge_None_2 by lia. reflexivity.
Qed.

End TransposeFacts.

(** [Transpose_transposes] on the 2x3 matrix [[[1,2,3],[4,5,6]]], with the
    64-bit index type. *)
Lemma Transpose_transposes_witness :
  exists m', Transpose (IL := IndexType_64) matrix_2x3 = Some m'
    /\ Rows m' = Columns matrix_2x3 /\ Columns m' = Rows matrix_2x3
    /\ (forall i j, 0 <= i < Columns matrix_2x3 -> 0 <= j < Rows matrix_2x3 ->
          is_Some (Matrix_at matrix_2x3 j i) /\ Matrix_at m' i j = Matrix_at matrix_2x3 j i)
    /\ Transpose (IL := IndexType_64) m' = Some matrix_2x3.
Proof.
  apply (Transpose_transposes (IL := IndexType_64) matrix_2x3).
  - vm_compute. discriminate.
  - reflexivity.
  - vm_compute. discriminate.
  - vm_compute. discriminate.
  - vm_compute. discriminate.
Defined.

(** C5, the claim as written fails: [Matrix(-1, 5)] has no row and five
    columns; its transpose has no row and no column instead of five rows, and
    transposing twice does not give back the five columns. No product of
    indices is computed on it: the width of the index type plays no part. *)
Lemma Transpose_of_empty_rows :
  matrix_0x5 = mkMatrix 5 []
  /\ Rows matrix_0x5 = 0 /\ Columns matrix_0x5 = 5
  /\ exists m', Transpose (IL := IndexType_64) matrix_0x5 = Some m'
       /\ Rows m' = 0 /\ Columns m' = 0
       /\ Transpose (IL := IndexType_64) m' = Some m'
       /\ Columns m' <> Columns matrix_0x5.
Proof.
  repeat split. exists (mkMatrix 0 []). repeat split. discriminate.
Qed.

(** ** The code on small inputs *)

Example MakeSegment_default_on_3 :
  MakeSegment default_segment 3 = mkSegment 0 3.
Proof. reflexivity. Qed.

Example MakeSegment_keeps_a_valid_range :
  MakeSegment (mkSegment 1 2) 3 = mkSegment 1 2.
Proof. reflexivity. Qed.

Example Transpose_2x3 :
  Transpose (IL := IndexType_64) matrix_2x3 = Some (mkMatrix 2 [1; 4; 2; 5; 3; 6]%float).
Proof. vm_compute. reflexivity. Qed.

(** With an index type of four bits the product [2 * 4] of the cycle of
    index 1 is not a value of the type. *)
Example Transpose_2x3_narrow_index :
  Transpose (IL := {| IndexType_max := 7 |}) matrix_2x3 = None.
Proof. vm_compute. reflexivity. Qed.

Example View_mul_2x2 :
  View_mul (View matrix_1234) (View matrix_5678)
  = Some (mkMatrix 2 [19; 22; 43; 50]%float).
Proof. vm_compute. reflexivity. Qed.

(** The transposed view of the 2x3 matrix, read whole: with both offsets
    zero the read is the transposed element. *)
Example Transposed_view_of_2x3 :
  View_Rows (Transposed (View matrix_2x3)) = 3
  /\ View_Columns (Transposed (View matrix_2x3)) = 2
  /\ View_at (Transposed (View matrix_2x3)) 2 1 = Some 6%float
  /\ View_at (Transposed (View matrix_2x3)) 0 1 = Some 4%float.
Proof. vm_compute. repeat split; reflexivity. Qed.

Example GetSchurDecomposition_diag_23 :
  Legacy.GetSchurDecomposition Legacy.utils_IsHermitian Legacy.triangular_QR legacy_diag_23 3
  = Some legacy_diag_23.
Proof. vm_compute. reflexivity. Qed.

(** ** Whole views, rows, columns and blocks *)

Section ViewCoordinates.
Context {T : Type} {FC : FloatOrComplex T} {EU : ElementUtils T}.

(** A segment that lies within the axis and is not empty is kept. *)
Lemma MakeSegment_valid (b e max_value : Z) :
  0 <= b < e -> e <= max_value -> MakeSegment (mkSegment b e) max_value = mkSegment b e.
Proof. intros Hb He. unfold MakeSegment; simpl. case_cmp; f_equal; lia. Qed.

(** The segment [[0, max)] is kept, whatever the length of the axis. *)
Lemma MakeSegment_full (max_value : Z) :
  MakeSegment (mkSegment 0 max_value) max_value = mkSegment 0 max_value.
Proof. unfold MakeSegment; simpl. case_cmp; f_equal; lia. Qed.

Lemma Segment_eta (s : Segment) : mkSegment (seg_begin s) (seg_end s) = s.
Proof. destruct s; reflexivity. Qed.

(** The view of a whole matrix has the counts of the matrix and reads what
    the matrix reads. *)
Lemma View_reads_the_matrix (m : Matrix T) :
  View_Rows (View m) = Rows m
  /\ View_Columns (View m) = Columns m
  /\ forall i j, View_at (View m) i j = Matrix_at m i j.
Proof.
  unfold View, View_Rows, View_Columns, ConstMatrixView_new, default_segment, default_state.
  simpl. rewrite !MakeSegment_default. simpl. repeat split; try lia.
  intros i j. unfold View_at; simpl. destruct IsFloatComplexT; reflexivity.
Qed.

Lemma Transposed_View (m : Matrix T) :
  Transposed (View m)
  = mkConstMatrixView m (mkSegment 0 (Columns m)) (mkSegment 0 (Rows m))
      (mkMatrixState true false).
Proof.
  unfold Transposed, View, ConstMatrixView_new, default_segment, default_state; simpl.
  rewrite !MakeSegment_default, !MakeSegment_full. reflexivity.
Qed.

Lemma Conjugated_View (m : Matrix T) :
  Conjugated (View m)
  = mkConstMatrixView m (mkSegment 0 (Columns m)) (mkSegment 0 (Rows m))
      (mkMatrixState true true).
Proof.
  unfold Conjugated, View, ConstMatrixView_new, default_segment, default_state; simpl.
  rewrite !MakeSegment_default, !MakeSegment_full. reflexivity.
Qed.

(** The transposed and the conjugated view of a whole matrix. *)
Lemma Transposed_View_reads_transposed (m : Matrix T) :
  (View_Rows (Transposed (View m)) = Columns m
   /\ View_Columns (Transposed (View m)) = Rows m
   /\ forall i j, View_at (Transposed (View m)) i j = Matrix_at m j i)
  /\ (View_Rows (Conjugated (View m)) = Columns m
      /\ View_Columns (Conjugated (View m)) = Rows m
      /\ forall i j, View_at (Conjugated (View m)) i j
                     = (if IsFloatComplexT then T_conj <$> Matrix_at m j i
                        else Matrix_at m j i)).
Proof.
  rewrite Transposed_View, Conjugated_View.
  unfold View_Rows, View_Columns, View_at; simpl.
  repeat split; try lia; intros i j; destruct IsFloatComplexT; reflexivity.
Qed.

(** X2. The views of a whole matrix. The view [Matrix::View] returns has
    the row and column counts of the matrix and its element read is the
    element read of the matrix, at all coordinates (the ones the matrix
    rejects included). The transposed view of that view has the two counts
    exchanged and reads, at [(i, j)], the element [(j, i)] of the matrix; the
    conjugated view reads the same element, conjugated when the element type
    is complex. *)
Theorem whole_matrix_views (m : Matrix T) :
  (View_Rows (View m) = Rows m
   /\ View_Columns (View m) = Columns m
   /\ forall i j, View_at (View m) i j = Matrix_at m i j)
  /\ (View_Rows (Transposed (View m)) = Columns m
      /\ View_Columns (Transposed (View m)) = Rows m
      /\ forall i j, View_at (Transposed (View m)) i j = Matrix_at m j i)
  /\ (View_Rows (Conjugated (View m)) = Columns m
      /\ View_Columns (Conjugated (View m)) = Rows m
      /\ forall i j, View_at (Conjugated (View m)) i j
                     = (if IsFloatComplexT then T_conj <$> Matrix_at m j i
                        else Matrix_at m j i)).
Proof.
  split; [apply View_reads_the_matrix | apply Transposed_View_reads_transposed].
Qed.

(** The segments of a view that is not transposed lie within the matrix. *)
Lemma untransposed_segments (m : Matrix T) (row col : Segment) (cj : bool) :
  0 <= Columns m ->
  let V := ConstMatrixView_new m row col (mkMatrixState false cj) in
  (0 <= seg_begin (row_ V) <= seg_end (row_ V) /\ seg_end (row_ V) <= Rows m)
  /\ (0 <= seg_begin (column_ V) <= seg_end (column_ V) /\ seg_end (column_ V) <= Columns m).
Proof.
  intros Hc V. pose proof (Rows_nonneg m Hc) as Hr.
  unfold V, ConstMatrixView_new; simpl.
  split; apply MakeSegment_within; assumption.
Qed.

(** X3. [GetRow] on a view that is not transposed, with an index of the
    view: the call returns a view of one row and of the columns of the
    view, whose element [(i, j)] is read where the element
    [(index + i, j)] of the view is. *)
Theorem View_GetRow_reads_the_row (m : Matrix T) (row col : Segment) (cj : bool)
    (index : Z) :
  0 <= Columns m ->
  0 <= index < View_Rows (ConstMatrixView_new m row col (mkMatrixState false cj)) ->
  exists W,
    View_GetRow (ConstMatrixView_new m row col (mkMatrixState false cj)) index = Some W
    /\ View_Rows W = 1
    /\ View_Columns W
       = View_Columns (ConstMatrixView_new m row col (mkMatrixState false cj))
    /\ forall i j,
         View_at W i j
         = View_at (ConstMatrixView_new m row col (mkMatrixState false cj)) (index + i) j.
Proof.
  intros Hc Hidx.
  destruct (untransposed_segments m row col cj Hc) as [Hrow Hcol].
  unfold View_GetRow.
  destruct (Z.ltb_spec index
              (View_Rows (ConstMatrixView_new m row col (mkMatrixState false cj))));
    [| lia]. simpl.
  eexists; split; [reflexivity |].
  unfold View_Rows, View_Columns, ConstMatrixView_new in *; simpl in *.
  set (rs := MakeSegment row (Rows m)) in *. set (cs := MakeSegment col (Columns m)) in *.
  rewrite MakeSegment_valid by lia. rewrite Segment_eta.
  assert (Hcs : MakeSegment cs (Columns m) = cs) by apply MakeSegment_idempotent.
  rewrite !Hcs.
  simpl. repeat split; try lia.
  intros i j. rewrite !View_at_storage; simpl.
  replace (seg_begin rs + index + i) with (seg_begin rs + (index + i)) by lia.
  reflexivity.
Qed.

(** X4. [GetColumn] on a view that is not transposed, with an index of the
    view: the call returns a view of one column and of the rows of the
    view, whose element [(i, j)] is read where the element
    [(i, index + j)] of the view is. *)
Theorem View_GetColumn_reads_the_column (m : Matrix T) (row col : Segment) (cj : bool)
    (index : Z) :
  0 <= Columns m ->
  0 <= index < View_Columns (ConstMatrixView_new m row col (mkMatrixState false cj)) ->
  exists W,
    View_GetColumn (ConstMatrixView_new m row col (mkMatrixState false cj)) index = Some W
    /\ View_Columns W = 1
    /\ View_Rows W = View_Rows (ConstMatrixView_new m row col (mkMatrixState false cj))
    /\ forall i j,
         View_at W i j
         = View_at (ConstMatrixView_new m row col (mkMatrixState false cj)) i (index + j).
Proof.
  intros Hc Hidx.
  destruct (untransposed_segments m row col cj Hc) as [Hrow Hcol].
  unfold View_GetColumn.
  destruct (Z.ltb_spec index
              (View_Columns (ConstMatrixView_new m row col (mkMatrixState false cj))));
    [| lia]. simpl.
  eexists; split; [reflexivity |].
  unfold View_Rows, View_Columns, ConstMatrixView_new in *; simpl in *.
  set (rs := MakeSegment row (Rows m)) in *. set (cs := MakeSegment col (Columns m)) in *.
  rewrite MakeSegment_valid by lia. rewrite Segment_eta.
  assert (Hrs : MakeSegment rs (Rows m) = rs) by apply MakeSegment_idempotent.
  rewrite !Hrs.
  simpl. repeat split; try lia.
  intros i j. rewrite !View_at_storage; simpl.
  replace (seg_begin cs + index + j) with (seg_begin cs + (index + j)) by lia.
  reflexivity.
Qed.

(** X5. [GetRow] and [GetColumn] compare the index with the count only: a
    negative index is accepted, and on the view of a whole matrix the
    segment it gives is normalised to the full axis, so the call returns the
    view of the whole matrix. *)
Theorem View_GetRow_negative_index (m : Matrix T) (index : Z) :
  0 <= Columns m -> index < 0 ->
  View_GetRow (View m) index = Some (View m)
  /\ View_GetColumn (View m) index = Some (View m).
Proof.
  intros Hc Hidx. pose proof (Rows_nonneg m Hc) as Hr.
  unfold View_GetRow, View_GetColumn, View, View_Rows, View_Columns, ConstMatrixView_new,
    default_segment, default_state; simpl.
  rewrite !MakeSegment_default; simpl.
  destruct (Z.ltb_spec index (Rows m - 0)); [| lia].
  destruct (Z.ltb_spec index (Columns m - 0)); [| lia]. simpl.
  rewrite !MakeSegment_full.
  split; do 2 f_equal; unfold MakeSegment; simpl; case_cmp; f_equal; lia.
Qed.

(** X6. [GetSubmatrix] on a view that is not transposed, for two segments
    that are not empty and pass the assertions of the call: the call
    returns the view of the block, whose element [(i, j)] is read where the
    element [(r.begin + i, c.begin + j)] of the view is. *)
Theorem View_GetSubmatrix_reads_the_block (m : Matrix T) (row col : Segment) (cj : bool)
    (r c : Segment) :
  let V := ConstMatrixView_new m row col (mkMatrixState false cj) in
  0 <= Columns m ->
  0 <= seg_begin r < seg_end r -> 0 <= seg_begin c < seg_end c ->
  seg_begin (row_ V) + seg_end r <= View_Rows V ->
  seg_begin (column_ V) + seg_end c <= View_Columns V ->
  exists W, View_GetSubmatrix V r c = Some W
    /\ View_Rows W = seg_end r - seg_begin r
    /\ View_Columns W = seg_end c - seg_begin c
    /\ forall i j, View_at W i j = View_at V (seg_begin r + i) (seg_begin c + j).
Proof.
  intros V Hc Hr Hcs Hrow_ok Hcol_ok.
  destruct (untransposed_segments m row col cj Hc) as [Hrow Hcol].
  unfold View_GetSubmatrix. fold V in Hrow, Hcol.
  assert (Hrn : MakeSegment r (View_Rows V) = r).
  { destruct r as [rf rt]; simpl in *. apply MakeSegment_valid; lia. }
  assert (Hcn : MakeSegment c (View_Columns V) = c).
  { destruct c as [cf ct]; simpl in *. apply MakeSegment_valid; lia. }
  rewrite Hrn, Hcn.
  destruct (Z.ltb_spec (seg_begin (row_ V) + seg_begin r) (View_Rows V)); [| lia].
  destruct (Z.leb_spec (seg_begin (row_ V) + seg_end r) (View_Rows V)); [| lia].
  destruct (Z.ltb_spec (seg_begin (column_ V) + seg_begin c) (View_Columns V)); [| lia].
  destruct (Z.leb_spec (seg_begin (column_ V) + seg_end c) (View_Columns V)); [| lia].
  simpl. eexists; split; [reflexivity |].
  unfold V, View_Rows, View_Columns, ConstMatrixView_new in *; simpl in *.
  set (rs := MakeSegment row (Rows m)) in *. set (cs := MakeSegment col (Columns m)) in *.
  rewrite !MakeSegment_valid by lia. simpl. repeat split; try lia.
  intros i j. rewrite !View_at_storage; simpl.
  replace (seg_begin rs + seg_begin r + i) with (seg_begin rs + (seg_begin r + i)) by lia.
  replace (seg_begin cs + seg_begin c + j) with (seg_begin cs + (seg_begin c + j)) by lia.
  reflexivity.
Qed.

(** X7. The assertions of [GetSubmatrix] compare the offsets of the view
    plus the requested bounds with the counts of the view, not with its
    ends: a view that begins at or after its own row count (the lower half
    of a matrix, say), or at or after its own column count, has no
    submatrix at all, whatever the two segments. *)
Theorem View_GetSubmatrix_of_offset_view_aborts (v : ConstMatrixView T) (row col : Segment) :
  0 <= View_Rows v <= seg_begin (row_ v)
  \/ (0 <= View_Columns v <= seg_begin (column_ v)) ->
  View_GetSubmatrix v row col = None.
Proof.
  intros Hoff. unfold View_GetSubmatrix.
  destruct Hoff as [Hrow | Hcol].
  - pose proof (MakeSegment_within row (View_Rows v) ltac:(lia)) as [Hr _].
    destruct (Z.ltb_spec (seg_begin (row_ v) + seg_begin (MakeSegment row (View_Rows v)))
                (View_Rows v)); [lia | reflexivity].
  - pose proof (MakeSegment_within col (View_Columns v) ltac:(lia)) as [Hc _].
    destruct (assert (seg_begin (row_ v) + seg_begin (MakeSegment row (View_Rows v))
                      <? View_Rows v)); [| reflexivity].
    destruct (assert (seg_begin (row_ v) + seg_end (MakeSegment row (View_Rows v))
                      <=? View_Rows v)); [| reflexivity].
    destruct (Z.ltb_spec
                (seg_begin (column_ v) + seg_begin (MakeSegment col (View_Columns v)))
                (View_Columns v)); [lia | reflexivity].
Qed.

End ViewCoordinates.

(** Evaluation of a closed statement on [double]. *)
Ltac evaluate := vm_compute; repeat split; try discriminate; try reflexivity.

Lemma View_GetRow_reads_the_row_witness :
  exists W, View_GetRow (View matrix_2x3) 1 = Some W
    /\ View_Rows W = 1
    /\ View_Columns W = View_Columns (View matrix_2x3)
    /\ forall i j, View_at W i j = View_at (View matrix_2x3) (1 + i) j.
Proof.
  apply (View_GetRow_reads_the_row matrix_2x3 default_segment default_segment false 1);
    evaluate.
Defined.

Lemma View_GetColumn_reads_the_column_witness :
  exists W, View_GetColumn (View matrix_2x3) 2 = Some W
    /\ View_Columns W = 1
    /\ View_Rows W = View_Rows (View matrix_2x3)
    /\ forall i j, View_at W i j = View_at (View matrix_2x3) i (2 + j).
Proof.
  apply (View_GetColumn_reads_the_column matrix_2x3 default_segment default_segment false 2);
    evaluate.
Defined.

Lemma View_GetRow_negative_index_witness :
  View_GetRow (View matrix_2x3) (-1) = Some (View matrix_2x3)
  /\ View_GetColumn (View matrix_2x3) (-1) = Some (View matrix_2x3).
Proof. apply (View_GetRow_negative_index matrix_2x3 (-1)); evaluate. Defined.

Lemma View_GetSubmatrix_reads_the_block_witness :
  exists W, View_GetSubmatrix (View matrix_4x2) (mkSegment 1 3) (mkSegment 0 1) = Some W
    /\ View_Rows W = 2
    /\ View_Columns W = 1
    /\ forall i j, View_at W i j = View_at (View matrix_4x2) (1 + i) (0 + j).
Proof.
  apply (View_GetSubmatrix_reads_the_block matrix_4x2 default_segment default_segment false
           (mkSegment 1 3) (mkSegment 0 1)); evaluate.
Defined.

Lemma View_GetSubmatrix_of_offset_view_aborts_witness :
  View_Rows lower_half_4x2 = 2
  /\ View_GetSubmatrix lower_half_4x2 (mkSegment 0 1) (mkSegment 0 1) = None.
Proof.
  split; [reflexivity |].
  apply (View_GetSubmatrix_of_offset_view_aborts lower_half_4x2); left; evaluate.
Defined.

(** ** Constructors and copies *)

Section Constructors.
Context {T : Type} {FC : FloatOrComplex T} {EU : ElementUtils T} {IL : IndexLimits}.

(** X8. [Matrix(row_cnt, col_cnt, value)], when the element count
    [CorrectSize(col_cnt) * CorrectSize(row_cnt)] is a value of [IndexType]:
    negative counts are taken as zero, the matrix has [row_cnt] rows only
    when both counts are positive and no row otherwise, it keeps a positive
    column count unless [row_cnt] is zero, its buffer holds rows times
    columns elements, and every element it has is [value]. *)
Theorem Matrix_sized_shape (row_cnt col_cnt : IndexType) (value : T) :
  in_IndexType row_cnt = true -> in_IndexType col_cnt = true ->
  CorrectSize col_cnt * CorrectSize row_cnt <= IndexType_max ->
  Rows (Matrix_sized row_cnt col_cnt value)
  = (if (0 <? row_cnt) && (0 <? col_cnt) then row_cnt else 0)
  /\ Columns (Matrix_sized row_cnt col_cnt value)
     = (if row_cnt =? 0 then 0 else Z.max 0 col_cnt)
  /\ buffer_size (Matrix_sized row_cnt col_cnt value)
     = Rows (Matrix_sized row_cnt col_cnt value)
       * Columns (Matrix_sized row_cnt col_cnt value)
  /\ buffer_size (Matrix_sized row_cnt col_cnt value) <= IndexType_max
  /\ forall i j,
       0 <= i < Rows (Matrix_sized row_cnt col_cnt value) ->
       0 <= j < Columns (Matrix_sized row_cnt col_cnt value) ->
       Matrix_at (Matrix_sized row_cnt col_cnt value) i j = Some value.
Proof.
  intros _ _ Hfits.
  assert (Hrows : Rows (Matrix_sized row_cnt col_cnt value)
                  = (if (0 <? row_cnt) && (0 <? col_cnt) then row_cnt else 0)).
  { unfold Rows, Matrix_sized, CorrectSize, buffer_size; simpl. rewrite length_replicate.
    destruct (Z.eqb_spec row_cnt 0) as [-> | Hr]; simpl; [reflexivity |].
    destruct (Z.ltb_spec 0 row_cnt), (Z.ltb_spec 0 col_cnt); simpl.
    - rewrite !Z.max_r by lia. destruct (Z.eqb_spec col_cnt 0); [lia |].
      rewrite Z2Nat.id by nia. rewrite Z.mul_comm. apply Z.div_mul. lia.
    - rewrite (Z.max_l 0 col_cnt) by lia. reflexivity.
    - rewrite (Z.max_l 0 row_cnt) by lia. rewrite Z.mul_0_r. simpl.
      destruct (Z.max 0 col_cnt =? 0); reflexivity.
    - rewrite (Z.max_l 0 col_cnt) by lia. reflexivity. }
  assert (Hcols : Columns (Matrix_sized row_cnt col_cnt value)
                  = (if row_cnt =? 0 then 0 else Z.max 0 col_cnt)) by reflexivity.
  assert (Hsize : buffer_size (Matrix_sized row_cnt col_cnt value)
                  = Z.max 0 col_cnt * Z.max 0 row_cnt).
  { unfold Matrix_sized, CorrectSize, buffer_size; simpl. rewrite length_replicate. lia. }
  split; [exact Hrows |]. split; [exact Hcols |]. split; [| split].
  - rewrite Hsize, Hrows, Hcols.
    destruct (Z.eqb_spec row_cnt 0), (Z.ltb_spec 0 row_cnt), (Z.ltb_spec 0 col_cnt);
      simpl; lia.
  - rewrite Hsize. exact Hfits.
  - intros i j Hi Hj. rewrite Hrows in Hi. rewrite Hcols in Hj.
    destruct (Z.ltb_spec 0 row_cnt), (Z.ltb_spec 0 col_cnt); simpl in Hi; try lia.
    destruct (Z.eqb_spec row_cnt 0); [lia |].
    unfold Matrix_at, index_in_buffer. rewrite Hsize, Hcols.
    destruct (Z.eqb_spec row_cnt 0); [lia |].
    assert (Hk : 0 <= Z.max 0 col_cnt * i + j < Z.max 0 col_cnt * Z.max 0 row_cnt) by nia.
    destruct (Z.leb_spec 0 (Z.max 0 col_cnt * i + j)); [| lia].
    destruct (Z.ltb_spec (Z.max 0 col_cnt * i + j) (Z.max 0 col_cnt * Z.max 0 row_cnt));
      [| lia].
    simpl. unfold Matrix_sized, CorrectSize; simpl.
    apply lookup_replicate_2. lia.
Qed.

(** *** Filling a matrix element by element *)

Lemma filled_shape_plain (rows cols : Z) (P : Z -> Z -> T) (cnt : Z) (m : Matrix T) :
  0 < cols -> filled rows cols P cnt m -> Rows m = rows /\ Columns m = cols.
Proof.
  intros Hc (Hcols & Hlen & _). unfold Rows, Columns. rewrite Hcols, Hlen.
  destruct (Z.eqb_spec cols 0); [lia |]. split; [| reflexivity].
  rewrite Z.mul_comm. apply Z.div_mul. lia.
Qed.

Lemma filled_entry (rows cols : Z) (P : Z -> Z -> T) (m : Matrix T) (i j : Z) :
  0 <= i < rows -> 0 <= j < cols -> filled rows cols P (cols * rows) m ->
  Matrix_at m i j = Some (P i j).
Proof.
  intros Hi Hj (Hcols & Hlen & Hfill).
  assert (Hk : 0 <= cols * i + j < cols * rows) by nia.
  destruct (Matrix_at_linear m i j) as [-> _].
  - unfold Columns. rewrite Hcols, Hlen. exact Hk.
  - unfold Columns. rewrite Hcols. apply Hfill; lia.
Qed.

Lemma filled_initial (rows cols : Z) (P : Z -> Z -> T) (value : T) :
  0 < rows -> 0 < cols -> filled rows cols P 0 (Matrix_sized rows cols value).
Proof.
  intros Hr Hc. rewrite Matrix_sized_positive by lia. split; [reflexivity | split]; simpl.
  - unfold buffer_size; simpl. rewrite length_replicate. nia.
  - intros i j Hi Hj Hlt. nia.
Qed.

(** The two nested loops that assign the element [(i, j)] of the result at
    the iteration [(i, j)]. *)
Lemma fill_loop (rows cols : Z) (P : Z -> Z -> T) (g : Z -> Z -> option T) (m0 : Matrix T) :
  0 <= rows -> 0 < cols ->
  (forall i j, 0 <= i < rows -> 0 <= j < cols -> g i j = Some (P i j)) ->
  filled rows cols P 0 m0 ->
  exists m,
    for_loop (Z.to_nat rows) 0 (fun i m =>
      for_loop (Z.to_nat cols) 0 (fun j m => val ← g i j; Matrix_set m i j val) m) m0
    = Some m
    /\ filled rows cols P (cols * rows) m.
Proof.
  intros Hr Hc Hg Hinit.
  destruct (for_loop_invariant (fun i m => filled rows cols P (cols * i) m)
              (Z.to_nat rows) 0
              (fun i m =>
                 for_loop (Z.to_nat cols) 0
                   (fun j m => val ← g i j; Matrix_set m i j val) m) m0)
    as (m & Hm & Hinv).
  - rewrite Z.mul_0_r. exact Hinit.
  - intros i m Hi Hfill.
    destruct (for_loop_invariant (fun j m => filled rows cols P (cols * i + j) m)
                (Z.to_nat cols) 0
                (fun j m => val ← g i j; Matrix_set m i j val) m)
      as (m' & Hm' & Hinv').
    + rewrite Z.add_0_r. exact Hfill.
    + intros j t Hj Ht. rewrite Hg by lia. simpl.
      rewrite Z.add_assoc. apply (filled_set rows cols P t i j); [lia | lia | exact Ht].
    + exists m'. split; [exact Hm' |].
      replace (cols * (i + 1)) with (cols * i + (0 + Z.of_nat (Z.to_nat cols))) by lia.
      exact Hinv'.
  - exists m. split; [exact Hm |].
    replace (cols * rows) with (cols * (0 + Z.of_nat (Z.to_nat rows))) by lia.
    exact Hinv.
Qed.

(** The copy of a readable view with elements, as the filling leaves it. *)
Lemma Matrix_of_view_filled (v : ConstMatrixView T) (L : Z -> Z -> T) :
  reads_as v L -> 0 < View_Rows v -> 0 < View_Columns v ->
  exists m, Matrix_of_view v = Some m
    /\ filled (View_Rows v) (View_Columns v) L (View_Columns v * View_Rows v) m.
Proof.
  intros HL Hr Hc. unfold Matrix_of_view, View_ApplyToEach.
  apply (fill_loop (View_Rows v) (View_Columns v) L (View_at v)); [lia | lia | |].
  - intros i j Hi Hj. apply HL; assumption.
  - apply filled_initial; assumption.
Qed.

(** X9. [Matrix(const ConstMatrixView<T> &)] on a view with elements, every
    one of which can be read: the constructor runs to its end and the
    matrix has the counts of the view and, at every coordinate, the element
    the view reads there. *)
Theorem Matrix_of_view_copies (v : ConstMatrixView T) (L : Z -> Z -> T) :
  reads_as v L -> 0 < View_Rows v -> 0 < View_Columns v ->
  exists m, Matrix_of_view v = Some m
    /\ Rows m = View_Rows v /\ Columns m = View_Columns v
    /\ forall i j, 0 <= i < View_Rows v -> 0 <= j < View_Columns v ->
         Matrix_at m i j = Some (L i j).
Proof.
  intros HL Hr Hc.
  destruct (Matrix_of_view_filled v L HL Hr Hc) as (m & Hrun & Hfill).
  exists m. split; [exact Hrun |].
  destruct (filled_shape_plain _ _ _ _ m Hc Hfill) as [HR HC].
  split; [exact HR |]. split; [exact HC |].
  intros i j Hi Hj. apply (filled_entry _ _ L m i j Hi Hj Hfill).
Qed.

(** A matrix whose buffer holds rows times columns elements either has no
    element and no column or has rows and columns. *)
Lemma matrix_cases (m : Matrix T) :
  0 <= Columns m -> buffer_size m = Rows m * Columns m ->
  (Rows m = 0 -> Columns m = 0) ->
  m = mkMatrix 0 [] \/ (1 <= Rows m /\ 1 <= Columns m).
Proof.
  intros Hc Hsize Hempty. pose proof (Rows_nonneg m Hc) as Hr.
  destruct (Z.eq_dec (Columns m) 0) as [Hc0 | Hc0].
  - left. destruct m as [c B]. unfold Columns in Hc0; simpl in Hc0. subst c.
    unfold buffer_size, Rows in Hsize; simpl in Hsize.
    destruct B; [reflexivity | simpl in Hsize; lia].
  - right. destruct (Z.eq_dec (Rows m) 0) as [Hr0 | Hr0]; [apply Hempty in Hr0; lia | lia].
Qed.

(** X10. Copying the view of a whole matrix gives the matrix back: for a
    matrix whose buffer holds rows times columns elements (and that has no
    column when it has no row), [Matrix(M.View())] is [M] itself, the same
    column count and the same buffer. *)
Theorem Matrix_of_View_is_the_matrix (m : Matrix T) :
  0 <= Columns m -> buffer_size m = Rows m * Columns m ->
  (Rows m = 0 -> Columns m = 0) ->
  Matrix_of_view (View m) = Some m.
Proof.
  intros Hc Hsize Hempty.
  destruct (matrix_cases m Hc Hsize Hempty) as [-> | [Hr1 Hc1]]; [reflexivity |].
  destruct (View_reads_the_matrix m) as (HR & HC & Hat).
  destruct (Matrix_of_view_filled (View m) (values_of (View m))) as (m' & Hrun & Hfill).
  - apply untransposed_reads; assumption.
  - lia.
  - lia.
  - rewrite Hrun. f_equal. rewrite HR, HC in Hfill.
    destruct Hfill as (Hcols & Hlen & Hfill). destruct m as [c B], m' as [c' B'].
    unfold Columns, buffer_size in *; simpl in *. subst c'. f_equal.
    apply list_eq. intros k.
    destruct (Nat.lt_ge_cases k (length B)) as [Hlt | Hge].
    + set (r := Rows (mkMatrix c B)) in *.
      assert (Hq : 0 <= Z.of_nat k / c < r).
      { split; [apply Z.div_pos; lia |]. apply Z.div_lt_upper_bound; lia. }
      pose proof (Z.mod_pos_bound (Z.of_nat k) c ltac:(lia)) as Hm.
      pose proof (Z.div_mod (Z.of_nat k) c ltac:(lia)) as Hk.
      specialize (Hfill (Z.of_nat k / c) (Z.of_nat k mod c) Hq Hm ltac:(nia)).
      rewrite <- Hk, Nat2Z.id in Hfill. rewrite Hfill.
      unfold values_of. rewrite Hat.
      destruct (Matrix_at_linear (mkMatrix c B) (Z.of_nat k / c) (Z.of_nat k mod c))
        as [-> _].
      * unfold Columns, buffer_size; simpl. lia.
      * unfold Columns; simpl. rewrite <- Hk, Nat2Z.id.
        destruct (B !! k) eqn:HB; [reflexivity |].
        apply lookup_ge_None_1 in HB. lia.
    + rewrite !lookup_ge_None_2 by lia. reflexivity.
Qed.

(** The transposed view of a whole matrix with elements is readable. *)
Lemma Transposed_View_reads (m : Matrix T) :
  1 <= Rows m -> 1 <= Columns m -> buffer_size m = Rows m * Columns m ->
  reads_as (Transposed (View m))
    (fun i j => default T_zero (buffer_ m !! Z.to_nat (Columns m * j + i))).
Proof.
  intros Hr Hc Hsize i j Hi Hj.
  destruct (Transposed_View_reads_transposed m) as ((HR & HC & Hat) & _).
  rewrite HR in Hi. rewrite HC in Hj. rewrite Hat.
  destruct (Matrix_at_linear m j i) as [-> Hsome]; [nia |].
  destruct Hsome as [x Hx]. rewrite Hx. reflexivity.
Qed.

(** X11. Copying the transposed view of a matrix and transposing the matrix
    in place give the same matrix, when the matrix is small enough for the
    index arithmetic of the transposition (its element count times its row
    count is a value of [IndexType]): [Matrix(Matrix::Transposed(M))] is
    what [M.Transpose()] leaves in [M], the same column count and the same
    buffer. *)
Theorem Matrix_of_Transposed_View_is_Transpose (m : Matrix T) :
  0 <= Columns m -> buffer_size m = Rows m * Columns m ->
  (Rows m = 0 -> Columns m = 0) ->
  Rows m * buffer_size m <= IndexType_max ->
  exists m', Transpose m = Some m' /\ Matrix_of_view (Transposed (View m)) = Some m'.
Proof.
  intros Hc Hsize Hempty Hbig.
  destruct (matrix_cases m Hc Hsize Hempty) as [-> | [Hr1 Hc1]].
  { exists (mkMatrix 0 []). split; reflexivity. }
  destruct (Transposed_View_reads_transposed m) as ((HR & HC & _) & _).
  destruct (Transpose_buffer m Hr1 Hc1 ltac:(lia) Hbig) as (buf & Hrun & Hlen & Hbuf).
  destruct (Matrix_of_view_filled (Transposed (View m)) _
              (Transposed_View_reads m Hr1 Hc1 Hsize)) as (m' & Hcopy & Hfill);
    [lia | lia |].
  exists (mkMatrix (Rows m) buf). split; [exact Hrun |]. rewrite Hcopy. f_equal.
  rewrite HR, HC in Hfill. destruct Hfill as (Hcols & Hlen' & Hfill).
  destruct m' as [c' B']. unfold buffer_size in *; simpl in *. subst c'. f_equal.
  apply list_eq. intros k.
  destruct (Nat.lt_ge_cases k (length (buffer_ m))) as [Hlt | Hge].
  - set (r := Rows m) in *. set (c := Columns m) in *.
    assert (Hq : 0 <= Z.of_nat k / r < c).
    { split; [apply Z.div_pos; lia |]. apply Z.div_lt_upper_bound; lia. }
    pose proof (Z.mod_pos_bound (Z.of_nat k) r ltac:(lia)) as Hm.
    pose proof (Z.div_mod (Z.of_nat k) r ltac:(lia)) as Hk.
    specialize (Hfill (Z.of_nat k / r) (Z.of_nat k mod r) Hq Hm ltac:(nia)).
    rewrite <- Hk, Nat2Z.id in Hfill. rewrite Hfill.
    specialize (Hbuf (Z.of_nat k) ltac:(lia)). rewrite Nat2Z.id in Hbuf. rewrite Hbuf.
    pose proof (index_map_transposes c r (Z.of_nat (length (buffer_ m)) - 1)
                  (Z.of_nat k / r) (Z.of_nat k mod r)
                  ltac:(lia) ltac:(lia) ltac:(lia) Hq Hm) as Hnext.
    rewrite <- Hk in Hnext. rewrite Hnext.
    destruct (buffer_ m !! Z.to_nat (c * (Z.of_nat k mod r) + Z.of_nat k / r)) eqn:HB;
      [reflexivity |].
    apply lookup_ge_None_1 in HB. nia.
  - rewrite !lookup_ge_None_2 by lia. reflexivity.
Qed.

End Constructors.

Lemma Matrix_of_view_copies_witness :
  exists m, Matrix_of_view lower_half_4x2 = Some m
    /\ Rows m = View_Rows lower_half_4x2 /\ Columns m = View_Columns lower_half_4x2
    /\ forall i j, 0 <= i < View_Rows lower_half_4x2 ->
                   0 <= j < View_Columns lower_half_4x2 ->
         Matrix_at m i j = Some (values_of lower_half_4x2 i j).
Proof.
  apply (Matrix_of_view_copies lower_half_4x2 (values_of lower_half_4x2)).
  - apply untransposed_reads; evaluate.
  - evaluate.
  - evaluate.
Defined.

Lemma Matrix_of_View_is_the_matrix_witness :
  Matrix_of_view (View matrix_2x3) = Some matrix_2x3.
Proof. apply (Matrix_of_View_is_the_matrix matrix_2x3); evaluate. Defined.

Lemma Matrix_of_Transposed_View_is_Transpose_witness :
  exists m', Transpose (IL := IndexType_64) matrix_2x3 = Some m'
             /\ Matrix_of_view (Transposed (View matrix_2x3)) = Some m'.
Proof.
  apply (Matrix_of_Transposed_View_is_Transpose (IL := IndexType_64) matrix_2x3); evaluate.
Defined.

(** [Matrix(2, 3, 1.0)] with the 64-bit index type. *)
Lemma Matrix_sized_shape_witness :
  Rows (Matrix_sized 2 3 1%float) = 2
  /\ Columns (Matrix_sized 2 3 1%float) = 3
  /\ buffer_size (Matrix_sized 2 3 1%float) = 2 * 3
  /\ buffer_size (Matrix_sized 2 3 1%float) <= IndexType_max (IndexLimits := IndexType_64)
  /\ forall i j, 0 <= i < 2 -> 0 <= j < 3 ->
       Matrix_at (Matrix_sized 2 3 1%float) i j = Some 1%float.
Proof.
  apply (Matrix_sized_shape (IL := IndexType_64) 2 3 1%float); evaluate.
Defined.

(** ** Diagonals *)

Section Diagonals.
Context {T : Type} {FC : FloatOrComplex T} {EU : ElementUtils T}.

(** [GetDiag] as the filling of a column. *)
Lemma View_GetDiag_filled (v : ConstMatrixView T) (L : Z -> Z -> T) :
  reads_as v L -> 0 < View_Rows v -> 0 < View_Columns v ->
  exists d, View_GetDiag v = Some d
    /\ filled (Z.min (View_Rows v) (View_Columns v)) 1 (fun i _ => L i i)
              (1 * Z.min (View_Rows v) (View_Columns v)) d.
Proof.
  intros HL Hr Hc. unfold View_GetDiag.
  set (size := Z.min (View_Rows v) (View_Columns v)).
  assert (Hsize : 0 < size <= View_Rows v /\ size <= View_Columns v) by (unfold size; lia).
  destruct (for_loop_invariant (fun i d => filled size 1 (fun i _ => L i i) (1 * i) d)
              (Z.to_nat size) 0
              (fun i res => x ← View_at v i i; Matrix_set res i 0 x)
              (Matrix_sized size 1 T_zero)) as (d & Hd & Hinv).
  - apply filled_initial; lia.
  - intros i d Hi Hfill. rewrite HL by lia. simpl.
    replace (1 * (i + 1)) with (1 * i + 0 + 1) by lia.
    apply (filled_set size 1 (fun i _ => L i i) d i 0); [lia | lia |].
    rewrite Z.add_0_r. exact Hfill.
  - exists d. split; [exact Hd |].
    replace (1 * size) with (1 * (0 + Z.of_nat (Z.to_nat size))) by lia. exact Hinv.
Qed.

(** X12. [GetDiag] on a view with elements, every one of which can be
    read: the call runs to its end and returns a column of
    [min(Rows, Columns)] elements, element [i] being the element [(i, i)]
    of the view. *)
Theorem View_GetDiag_entries (v : ConstMatrixView T) (L : Z -> Z -> T) :
  reads_as v L -> 0 < View_Rows v -> 0 < View_Columns v ->
  exists d, View_GetDiag v = Some d
    /\ Rows d = Z.min (View_Rows v) (View_Columns v) /\ Columns d = 1
    /\ forall i, 0 <= i < Z.min (View_Rows v) (View_Columns v) ->
         Matrix_at d i 0 = Some (L i i).
Proof.
  intros HL Hr Hc.
  destruct (View_GetDiag_filled v L HL Hr Hc) as (d & Hrun & Hfill).
  exists d. split; [exact Hrun |].
  destruct (filled_shape_plain _ 1 _ _ d ltac:(lia) Hfill) as [HR HC].
  split; [exact HR |]. split; [exact HC |].
  intros i Hi. apply (filled_entry _ 1 (fun i _ => L i i) d i 0 Hi ltac:(lia) Hfill).
Qed.








End Diagonals.

Lemma View_GetDiag_entries_witness :
  exists d, View_GetDiag (View matrix_2x3) = Some d
    /\ Rows d = Z.min (View_Rows (View matrix_2x3)) (View_Columns (View matrix_2x3))
    /\ Columns d = 1
    /\ forall i,
         0 <= i < Z.min (View_Rows (View matrix_2x3)) (View_Columns (View matrix_2x3)) ->
         Matrix_at d i 0 = Some (values_of (View matrix_2x3) i i).
Proof.
  apply (View_GetDiag_entries (View matrix_2x3) (values_of (View matrix_2x3))).
  - apply untransposed_reads; evaluate.
  - evaluate.
  - evaluate.
Defined.



(** ** Construction from a list of rows *)

Section RowLists.
Context {T : Type} {FC : FloatOrComplex T} {EU : ElementUtils T}.

(** The loop of the constructor: rows of the expected length are appended
    one after the other, and a row of another length aborts. *)
Lemma collect_rows_aborted (cols : Z) (rows : list (list T)) :
  foldl (fun acc sublist =>
           buf ← acc;
           _ ← assert (Z.of_nat (length sublist) =? cols);
           Some (buf ++ sublist)) None rows = None.
Proof. induction rows as [| r rows IH]; [reflexivity | exact IH]. Qed.

Lemma collect_rows (cols : Z) (rows : list (list T)) (acc : list T) :
  foldl (fun acc sublist =>
           buf ← acc;
           _ ← assert (Z.of_nat (length sublist) =? cols);
           Some (buf ++ sublist)) (Some acc) rows
  = if forallb (fun r => Z.of_nat (length r) =? cols) rows
    then Some (acc ++ concat rows) else None.
Proof.
  revert acc. induction rows as [| r rows IH]; intros acc; simpl.
  - rewrite app_nil_r. reflexivity.
  - destruct (Z.eqb_spec (Z.of_nat (length r)) cols); simpl.
    + rewrite IH, app_assoc. reflexivity.
    + apply collect_rows_aborted.
Qed.

Lemma lookup_concat_uniform (c : nat) (rows : list (list T)) (i j : nat) (row : list T)
    (x : T) :
  Forall (fun r => length r = c) rows ->
  rows !! i = Some row -> row !! j = Some x ->
  concat rows !! (c * i + j)%nat = Some x.
Proof.
  intros Hall. revert i. induction Hall as [| r rows Hr Hall IH]; intros i Hrow Hx.
  - discriminate.
  - destruct i as [| i]; simpl in *.
    + injection Hrow as ->. rewrite Nat.mul_0_r. simpl.
      rewrite lookup_app_l by (apply lookup_lt_Some in Hx; exact Hx). exact Hx.
    + rewrite lookup_app_r by lia.
      replace (c * S i + j - length r)%nat with (c * i + j)%nat by nia.
      apply IH; assumption.
Qed.

(** X15. The constructor from a list of rows, on a first row and further
    rows of its length: it runs to its end, the column count is the length
    of the first row, the buffer is the rows one after the other, the row
    count is the number of rows (when the rows have elements), and the
    element [(i, j)] is element [j] of row [i]. *)
Theorem Matrix_of_rows_entries (first : list T) (rest : list (list T)) :
  Forall (fun r => length r = length first) rest ->
  exists m, Matrix_of_rows (first :: rest) = Some m
    /\ Columns m = Z.of_nat (length first)
    /\ buffer_ m = concat (first :: rest)
    /\ ((0 < length first)%nat -> Rows m = Z.of_nat (length (first :: rest)))
    /\ forall i j row x, (first :: rest) !! i = Some row -> row !! j = Some x ->
         Matrix_at m (Z.of_nat i) (Z.of_nat j) = Some x.
Proof.
  intros Hall.
  assert (Hall' : Forall (fun r => length r = length first) (first :: rest))
    by (constructor; [reflexivity | exact Hall]).
  assert (Hok : forallb (fun r => Z.of_nat (length r) =? Z.of_nat (length first))
                  (first :: rest) = true).
  { apply forallb_forall. intros r Hr. rewrite Forall_forall in Hall'.
    rewrite (Hall' r) by (apply list_elem_of_In; exact Hr). apply Z.eqb_refl. }
  assert (Hlen : length (concat (first :: rest))
                 = (length first * length (first :: rest))%nat).
  { clear Hok. induction Hall' as [| r rows Hr _ IH]; [simpl; lia |].
    change (concat (r :: rows)) with (r ++ concat rows).
    rewrite length_app, IH, Hr. simpl. lia. }
  unfold Matrix_of_rows. rewrite collect_rows, Hok. simpl.
  eexists; split; [reflexivity |]. split; [reflexivity |]. split; [reflexivity |]. split.
  - intros Hpos. unfold Rows, buffer_size; simpl cols_; simpl buffer_.
    destruct (Z.eqb_spec (Z.of_nat (length first)) 0); [lia |].
    change (first ++ concat rest) with (concat (first :: rest)). rewrite Hlen.
    rewrite Nat2Z.inj_mul, Z.mul_comm. apply Z.div_mul. lia.
  - intros i j row x Hrow Hx.
    pose proof (lookup_concat_uniform (length first) (first :: rest) i j row x
                  Hall' Hrow Hx) as Hlook.
    pose proof (lookup_lt_Some _ _ _ Hlook) as Hlt.
    unfold Matrix_at, index_in_buffer, Columns, buffer_size; simpl cols_; simpl buffer_.
    change (first ++ concat rest) with (concat (first :: rest)).
    destruct (Z.leb_spec 0 (Z.of_nat (length first) * Z.of_nat i + Z.of_nat j)); [| lia].
    destruct (Z.ltb_spec (Z.of_nat (length first) * Z.of_nat i + Z.of_nat j)
                (Z.of_nat (length (concat (first :: rest))))); [| lia].
    simpl.
    replace (Z.to_nat (Z.of_nat (length first) * Z.of_nat i + Z.of_nat j))
      with (length first * i + j)%nat by lia.
    exact Hlook.
Qed.

(** X16. The constructor from a list of rows aborts exactly when a row has
    not the length of the first row. *)
Theorem Matrix_of_rows_rejects_ragged (first : list T) (rest : list (list T)) :
  Matrix_of_rows (first :: rest) = None
  <-> Exists (fun r => length r <> length first) rest.
Proof.
  unfold Matrix_of_rows. rewrite collect_rows. simpl. rewrite Z.eqb_refl. simpl.
  destruct (forallb (fun r => Z.of_nat (length r) =? Z.of_nat (length first)) rest)
    eqn:Hall; simpl.
  - split; [discriminate |]. intros Hex. exfalso.
    rewrite forallb_forall in Hall. apply Exists_exists in Hex as (r & Hin & Hne).
    specialize (Hall r ltac:(apply list_elem_of_In; exact Hin)).
    apply Z.eqb_eq in Hall. lia.
  - split; [| reflexivity]. intros _.
    apply not_true_iff_false in Hall. rewrite forallb_forall in Hall.
    apply not_Forall_Exists; [intros r; apply Nat.eq_dec |].
    intros HF. apply Hall. intros r Hin. rewrite Forall_forall in HF.
    rewrite (HF r) by (apply list_elem_of_In; exact Hin). apply Z.eqb_refl.
Qed.

End RowLists.

(** ** Comparison of two views *)

Section ViewComparison.
Context {T : Type} {FC : FloatOrComplex T} {EU : ElementUtils T}.

(** X17. [operator==] on two readable views runs to its end, and answers
    [true] exactly when the two views have the same row count and the same
    column count and every pair of elements at the same coordinates passes
    the tolerance comparison. *)
Theorem View_eq_decides (lhs rhs : ConstMatrixView T) (L R : Z -> Z -> T) :
  reads_as lhs L -> reads_as rhs R ->
  exists b, View_eq lhs rhs = Some b
    /\ (b = true <->
        View_Rows lhs = View_Rows rhs /\ View_Columns lhs = View_Columns rhs
        /\ forall i j, 0 <= i < View_Rows lhs -> 0 <= j < View_Columns lhs ->
             IsEqualFloating (L i j) (R i j) = true).
Proof.
  intros HL HR. unfold View_eq.
  destruct (Z.eqb_spec (View_Rows lhs) (View_Rows rhs)) as [Hrows | Hrows]; simpl.
  2: { exists false. split; [reflexivity |]. split; [discriminate | tauto]. }
  destruct (Z.eqb_spec (View_Columns lhs) (View_Columns rhs)) as [Hcols | Hcols]; simpl.
  2: { exists false. split; [reflexivity |]. split; [discriminate | tauto]. }
  set (E := fun i j => IsEqualFloating (L i j) (R i j)).
  unfold View_ApplyToEach.
  destruct (for_loop_invariant
              (fun i (b : bool) =>
                 b = true <->
                 forall i' j, 0 <= i' < i -> 0 <= j < View_Columns lhs -> E i' j = true)
              (Z.to_nat (View_Rows lhs)) 0
              (fun i s =>
                 for_loop (Z.to_nat (View_Columns lhs)) 0
                   (fun j s => val ← View_at lhs i j;
                               r ← View_at rhs i j;
                               Some (if negb (IsEqualFloating val r) then false else s)) s)
              true) as (b & Hb & Hinv).
  - split; [intros _ i' j Hi'; lia | reflexivity].
  - intros i s Hi Hs.
    destruct (for_loop_invariant
                (fun j (b : bool) =>
                   b = true <->
                   (forall i' j', 0 <= i' < i -> 0 <= j' < View_Columns lhs -> E i' j' = true)
                   /\ forall j', 0 <= j' < j -> E i j' = true)
                (Z.to_nat (View_Columns lhs)) 0
                (fun j s => val ← View_at lhs i j;
                            r ← View_at rhs i j;
                            Some (if negb (IsEqualFloating val r) then false else s))
                s) as (b & Hb & Hinv).
    + rewrite Hs. split; [intros H; split; [exact H | intros; lia] | tauto].
    + intros j t Hj Ht. rewrite (HL i j) by lia. rewrite (HR i j) by lia. simpl.
      eexists; split; [reflexivity |].
      fold (E i j). destruct (E i j) eqn:Hij; simpl.
      * rewrite Ht. split.
        -- intros [H1 H2]. split; [exact H1 |]. intros j' Hj'.
           destruct (Z.eq_dec j' j) as [-> | Hne]; [exact Hij | apply H2; lia].
        -- intros [H1 H2]. split; [exact H1 |]. intros j' Hj'. apply H2. lia.
      * split; [discriminate |]. intros [_ H2]. rewrite H2 in Hij by lia. discriminate.
    + exists b. split; [exact Hb |]. rewrite Hinv. split.
      * intros [H1 H2] i' j Hi' Hj.
        destruct (Z.eq_dec i' i) as [-> | Hne]; [apply H2; lia | apply H1; lia].
      * intros H. split; [intros i' j' Hi' Hj'; apply H; lia |].
        intros j' Hj'. apply H; lia.
  - exists b. split; [exact Hb |]. rewrite Hinv. split.
    + intros H. split; [exact Hrows |]. split; [exact Hcols |].
      intros i j Hi Hj. apply H; lia.
    + intros (_ & _ & H) i' j Hi' Hj. apply H; lia.
Qed.

End ViewComparison.

Lemma Matrix_of_rows_entries_witness :
  exists m, Matrix_of_rows [[1; 2; 3]; [4; 5; 6]]%float = Some m
    /\ Columns m = 3
    /\ buffer_ m = [1; 2; 3; 4; 5; 6]%float
    /\ ((0 < 3)%nat -> Rows m = 2)
    /\ forall i j row x, [[1; 2; 3]; [4; 5; 6]]%float !! i = Some row -> row !! j = Some x ->
         Matrix_at m (Z.of_nat i) (Z.of_nat j) = Some x.
Proof.
  apply (Matrix_of_rows_entries [1; 2; 3]%float [[4; 5; 6]%float]).
  repeat constructor.
Defined.

Lemma View_eq_decides_witness :
  exists b, View_eq (View matrix_1234) (View matrix_5678) = Some b
    /\ (b = true <->
        View_Rows (View matrix_1234) = View_Rows (View matrix_5678)
        /\ View_Columns (View matrix_1234) = View_Columns (View matrix_5678)
        /\ forall i j, 0 <= i < View_Rows (View matrix_1234) ->
                       0 <= j < View_Columns (View matrix_1234) ->
             IsEqualFloating (values_of (View matrix_1234) i j)
                             (values_of (View matrix_5678) i j) = true).
Proof.
  apply (View_eq_decides (View matrix_1234) (View matrix_5678)
           (values_of (View matrix_1234)) (values_of (View matrix_5678)));
    apply untransposed_reads; evaluate.
Defined.

(** ** The self-contained matrix: diagonals, sums, products, comparison *)

Section LegacyMore.
Context {T : Type} {FC : FloatOrComplex T} {EU : ElementUtils T}.

Lemma shaped_Rows (r c : Z) (m : Legacy.Matrix T) : shaped r c m -> Legacy.Rows m = r.
Proof. intros (_ & _ & _ & H & _). exact H. Qed.

Lemma shaped_Columns (r c : Z) (m : Legacy.Matrix T) : shaped r c m -> Legacy.Columns m = c.
Proof.
  intros (Hr & Hc & _ & Hrows & Hsize). unfold Legacy.Columns. rewrite Hrows, Hsize.
  destruct (Z.eqb_spec r 0); [lia |]. rewrite Z.mul_comm. apply Z.div_mul. lia.
Qed.

Lemma shaped_index (r c i j : Z) :
  0 <= i < r -> 0 <= j < c -> 0 <= c * i + j < r * c.
Proof. intros. nia. Qed.

Lemma shaped_at (r c : Z) (m : Legacy.Matrix T) (i j : Z) :
  shaped r c m -> 0 <= i < r -> 0 <= j < c ->
  Legacy.Matrix_at m i j = Legacy.buffer_ m !! Z.to_nat (c * i + j)
  /\ is_Some (Legacy.Matrix_at m i j).
Proof.
  intros Hsh Hi Hj. pose proof (shaped_Columns r c m Hsh) as HC.
  destruct Hsh as (Hr & Hc & Hbig & Hrows & Hsize).
  pose proof (shaped_index r c i j Hi Hj) as Hk.
  unfold Legacy.Matrix_at. rewrite HC, wrap_small by lia.
  destruct (Z.ltb_spec (c * i + j) (Legacy.buffer_size m)) as [_ | Hge]; [| lia].
  simpl. split; [reflexivity |].
  apply lookup_lt_is_Some. unfold Legacy.buffer_size in Hsize. lia.
Qed.

Lemma shaped_set (r c : Z) (m : Legacy.Matrix T) (i j : Z) (x : T) :
  shaped r c m -> 0 <= i < r -> 0 <= j < c ->
  exists m', Legacy.Matrix_set m i j x = Some m'
             /\ Legacy.buffer_ m' = <[Z.to_nat (c * i + j) := x]> (Legacy.buffer_ m)
             /\ shaped r c m'.
Proof.
  intros Hsh Hi Hj. pose proof (shaped_Columns r c m Hsh) as HC.
  destruct Hsh as (Hr & Hc & Hbig & Hrows & Hsize).
  pose proof (shaped_index r c i j Hi Hj) as Hk.
  unfold Legacy.Matrix_set. rewrite HC, wrap_small by lia.
  destruct (Z.ltb_spec (c * i + j) (Legacy.buffer_size m)) as [_ | Hge]; [| lia].
  simpl. eexists. split; [reflexivity |]. split; [reflexivity |].
  unfold shaped, Legacy.buffer_size in *; simpl. rewrite length_insert. auto.
Qed.

Lemma shaped_values (r c : Z) (m : Legacy.Matrix T) (i j : Z) :
  shaped r c m -> 0 <= i < r -> 0 <= j < c ->
  Legacy.Matrix_at m i j = Some (legacy_values m i j).
Proof.
  intros Hsh Hi Hj. destruct (shaped_at r c m i j Hsh Hi Hj) as [_ [x Hx]].
  unfold legacy_values. rewrite Hx. reflexivity.
Qed.

(** *** Diagonal matrices *)

Lemma legacy_diagonal_set (n : Z) (d : Z -> T) (m : Legacy.Matrix T) (k : Z) :
  0 <= k < n -> legacy_diagonal_filled n d k m ->
  exists m', Legacy.Matrix_set m k k (d k) = Some m'
             /\ legacy_diagonal_filled n d (k + 1) m'.
Proof.
  intros Hk (Hsh & Hfill).
  destruct (shaped_set n n m k k (d k) Hsh Hk Hk) as (m' & Hset & Hbuf & Hsh').
  exists m'. split; [exact Hset |]. split; [exact Hsh' |].
  intros i j Hi Hj. rewrite Hbuf.
  destruct (Z.eq_dec (n * i + j) (n * k + k)) as [Heq | Hne].
  - destruct (linear_index_inj n i j k k Hj Hk Heq) as [-> ->].
    rewrite Z.eqb_refl. destruct (Z.ltb_spec k (k + 1)); [| lia]. simpl.
    apply list_lookup_insert_eq.
    destruct Hsh as (_ & _ & _ & _ & Hsize). unfold Legacy.buffer_size in Hsize. nia.
  - rewrite list_lookup_insert_ne by nia. rewrite Hfill by assumption.
    destruct (Z.eqb_spec i j) as [-> | Hij]; simpl; [| reflexivity].
    assert (j <> k) by (intros ->; lia).
    destruct (Z.ltb_spec j k), (Z.ltb_spec j (k + 1)); try reflexivity; lia.
Qed.

(** The loop of the constructor from a diagonal. *)
Lemma diag_fill (n : Z) (d : Z -> T) (values : list T) (idx : Z) (m : Legacy.Matrix T) :
  0 <= idx -> idx + Z.of_nat (length values) <= n ->
  (forall p x, values !! p = Some x -> d (idx + Z.of_nat p) = x) ->
  legacy_diagonal_filled n d idx m ->
  exists m',
    foldl (fun acc value =>
             '(idx, m) ← acc;
             m' ← Legacy.Matrix_set m idx idx value;
             Some (idx + 1, m')) (Some (idx, m)) values
    = Some (idx + Z.of_nat (length values), m')
    /\ legacy_diagonal_filled n d (idx + Z.of_nat (length values)) m'.
Proof.
  revert idx m. induction values as [| v values IH]; intros idx m Hidx Hle Hd Hfill.
  - exists m. simpl. rewrite Z.add_0_r. auto.
  - simpl in Hle. simpl foldl at 1.
    assert (Hv : d idx = v).
    { rewrite <- (Hd 0%nat v) by reflexivity. f_equal. lia. }
    destruct (legacy_diagonal_set n d m idx ltac:(lia) Hfill) as (m1 & Hset & Hfill1).
    rewrite Hv in Hset. simpl. rewrite Hset. simpl.
    destruct (IH (idx + 1) m1 ltac:(lia) ltac:(lia)) as (m' & Hrun & Hfill'); [| exact Hfill1 |].
    + intros p x Hp. rewrite <- (Hd (Datatypes.S p) x) by exact Hp. f_equal. lia.
    + exists m'. rewrite Hrun.
      replace (idx + 1 + Z.of_nat (length values))
        with (idx + Z.of_nat (length (v :: values))) in * by (simpl; lia).
      auto.
Qed.

Lemma legacy_diagonal_initial (n : Z) (d : Z -> T) :
  0 < n -> n * n < 2 ^ 64 -> legacy_diagonal_filled n d 0 (zero_matrix n).
Proof.
  intros Hn Hbig. split.
  - unfold shaped, zero_matrix, Legacy.buffer_size; simpl. rewrite length_replicate.
    repeat split; lia.
  - intros i j Hi Hj.
    replace ((i =? j) && (i <? 0)) with false
      by (destruct (Z.ltb_spec i 0); [lia | rewrite andb_false_r; reflexivity]).
    apply lookup_replicate_2. nia.
Qed.

Lemma Matrix_diag_filled (diag : list T) :
  0 < Z.of_nat (length diag) ->
  Z.of_nat (length diag) * Z.of_nat (length diag) < 2 ^ 64 ->
  exists m, Legacy.Matrix_diag diag = Some m
    /\ legacy_diagonal_filled (Z.of_nat (length diag))
         (fun k => default T_zero (diag !! Z.to_nat k)) (Z.of_nat (length diag)) m.
Proof.
  intros Hn Hbig. unfold Legacy.Matrix_diag. set (n := Z.of_nat (length diag)) in *.
  rewrite wrap_small by lia. unfold Legacy.Rows; simpl.
  destruct (Z.ltb_spec 0 n); [| lia]. simpl.
  change (Legacy.mkMatrix n (replicate (Z.to_nat (n * n)) T_zero)) with (zero_matrix n).
  destruct (diag_fill n (fun k => default T_zero (diag !! Z.to_nat k)) diag 0 (zero_matrix n))
    as (m & Hrun & Hfill).
  - lia.
  - fold n. lia.
  - intros p x Hp. rewrite Z.add_0_l, Nat2Z.id, Hp. reflexivity.
  - apply legacy_diagonal_initial; assumption.
  - rewrite Hrun. simpl. exists m. split; [reflexivity |].
    rewrite Z.add_0_l in Hfill. exact Hfill.
Qed.

Lemma legacy_diagonal_entry (n : Z) (d : Z -> T) (m : Legacy.Matrix T) (i j : Z) :
  0 <= i < n -> 0 <= j < n -> legacy_diagonal_filled n d n m ->
  Legacy.Matrix_at m i j = Some (if i =? j then d i else T_zero).
Proof.
  intros Hi Hj (Hsh & Hfill).
  destruct (shaped_at n n m i j Hsh Hi Hj) as [-> _]. rewrite Hfill by assumption.
  destruct (Z.ltb_spec i n); [| lia]. rewrite andb_true_r. reflexivity.
Qed.

(** X18. [Matrix::Diagonal] (the constructor from a list of diagonal
    values), on a list that is not empty: it runs to its end and returns
    the square matrix of the length of the list, with the values of the
    list on its diagonal and [T{0}] everywhere else. *)
Theorem Legacy_Diagonal_entries (diag : list T) :
  0 < Z.of_nat (length diag) ->
  Z.of_nat (length diag) * Z.of_nat (length diag) < 2 ^ 64 ->
  exists m, Legacy.Diagonal diag = Some m
    /\ Legacy.Rows m = Z.of_nat (length diag)
    /\ Legacy.Columns m = Z.of_nat (length diag)
    /\ forall i j, 0 <= i < Z.of_nat (length diag) -> 0 <= j < Z.of_nat (length diag) ->
         Legacy.Matrix_at m i j
         = if i =? j then diag !! Z.to_nat i else Some T_zero.
Proof.
  intros Hn Hbig. destruct (Matrix_diag_filled diag Hn Hbig) as (m & Hrun & Hfill).
  exists m. split; [exact Hrun |].
  split; [apply (shaped_Rows _ _ m (proj1 Hfill)) |].
  split; [apply (shaped_Columns _ _ m (proj1 Hfill)) |].
  intros i j Hi Hj. rewrite (legacy_diagonal_entry _ _ m i j Hi Hj Hfill).
  destruct (Z.eqb_spec i j); [| reflexivity].
  destruct (lookup_lt_is_Some_2 diag (Z.to_nat i) ltac:(lia)) as [x Hx].
  rewrite Hx. reflexivity.
Qed.

(** X19. [Matrix::Identity(size, value)]: for a positive size it returns
    the square matrix of that size with [value] on its diagonal and [T{0}]
    everywhere else; for the size zero it aborts. *)
Theorem Legacy_Identity_entries (size : Z) (value : T) :
  Legacy.Identity 0 value = None
  /\ (0 < size -> size * size < 2 ^ 64 ->
      exists m, Legacy.Identity size value = Some m
        /\ Legacy.Rows m = size /\ Legacy.Columns m = size
        /\ forall i j, 0 <= i < size -> 0 <= j < size ->
             Legacy.Matrix_at m i j = Some (if i =? j then value else T_zero)).
Proof.
  split; [reflexivity |]. intros Hn Hbig. unfold Legacy.Identity.
  assert (Hlen : Z.of_nat (length (replicate (Z.to_nat size) value)) = size)
    by (rewrite length_replicate; lia).
  destruct (Matrix_diag_filled (replicate (Z.to_nat size) value)) as (m & Hrun & Hfill).
  - rewrite Hlen. exact Hn.
  - rewrite Hlen. exact Hbig.
  - rewrite Hlen in Hfill. exists m. split; [exact Hrun |].
    split; [apply (shaped_Rows _ _ m (proj1 Hfill)) |].
    split; [apply (shaped_Columns _ _ m (proj1 Hfill)) |].
    intros i j Hi Hj. rewrite (legacy_diagonal_entry _ _ m i j Hi Hj Hfill).
    destruct (Z.eqb_spec i j); [| reflexivity].
    rewrite lookup_replicate_2 by lia. reflexivity.
Qed.

End LegacyMore.

(** *** Element-wise operations *)

Section LegacyArithmetic.
Context {T : Type} {FC : FloatOrComplex T} {EU : ElementUtils T}.

(** [ApplyToEach] with a callback that succeeds on every element: the
    element at the linear index [k] becomes [F k x]. *)
Lemma ApplyToEach_idx_indexed (m : Legacy.Matrix T) (F : Z -> T -> T)
    (func : T -> Z -> Z -> option T) :
  Legacy.Columns m <> 0 -> Legacy.Rows m <> 0 ->
  (forall k x, 0 <= k < Legacy.buffer_size m -> Legacy.buffer_ m !! Z.to_nat k = Some x ->
     func x (k / Legacy.Columns m) (k mod Legacy.Columns m) = Some (F k x)) ->
  Legacy.ApplyToEach_idx m func
  = Some (Legacy.mkMatrix (Legacy.rows_ m)
            (imap (fun p x => F (Z.of_nat p) x) (Legacy.buffer_ m))).
Proof.
  intros Hc Hr Hfunc. unfold Legacy.ApplyToEach_idx.
  destruct (Z.eqb_spec (Legacy.Columns m) 0); [contradiction |].
  destruct (Z.eqb_spec (Legacy.Rows m) 0); [contradiction |]. simpl.
  set (b := Legacy.buffer_ m) in *.
  destruct (for_loop_invariant
              (fun k buf => length buf = length b
                 /\ forall p, (Z.of_nat p < k -> buf !! p = F (Z.of_nat p) <$> b !! p)
                              /\ (k <= Z.of_nat p -> buf !! p = b !! p))
              (length b) 0
              (fun i buf => x ← buf !! Z.to_nat i;
                            y ← func x (i / Legacy.Columns m) (i mod Legacy.Columns m);
                            Some (<[Z.to_nat i := y]> buf)) b) as (buf & Hloop & Hlen & Hbuf).
  - split; [reflexivity |]. intros p. split; [lia | reflexivity].
  - intros k t Hk (Hlen & Ht).
    destruct (lookup_lt_is_Some_2 b (Z.to_nat k) ltac:(lia)) as (x & Hx).
    destruct (Ht (Z.to_nat k)) as [_ Hsame]. rewrite Hsame, Hx by lia. simpl.
    rewrite (Hfunc k x) by (unfold Legacy.buffer_size; fold b; (lia || exact Hx)). simpl.
    eexists. split; [reflexivity |]. split; [rewrite length_insert; exact Hlen |].
    intros p. destruct (Nat.eq_dec p (Z.to_nat k)) as [-> | Hne].
    + rewrite list_lookup_insert_eq by lia. rewrite Hx. simpl.
      rewrite Z2Nat.id by lia. split; [reflexivity | lia].
    + rewrite list_lookup_insert_ne by lia. destruct (Ht p) as [Hlo Hhi].
      split; intros Hp; [apply Hlo | apply Hhi]; lia.
  - rewrite Hloop. simpl. f_equal. f_equal.
    apply list_eq. intros p. rewrite list_lookup_imap.
    destruct (Nat.lt_ge_cases p (length b)) as [Hlt | Hge].
    + apply Hbuf. lia.
    + rewrite !lookup_ge_None_2 by lia. reflexivity.
Qed.

(** An element-wise combination of two matrices of the same shape. *)
Lemma combine_entries (r c : Z) (lhs rhs : Legacy.Matrix T) (op : T -> T -> T) :
  shaped r c lhs -> shaped r c rhs ->
  exists s,
    Legacy.ApplyToEach_idx lhs
      (fun val i j => y ← Legacy.Matrix_at rhs i j; Some (op val y)) = Some s
    /\ shaped r c s
    /\ forall i j, 0 <= i < r -> 0 <= j < c ->
         Legacy.Matrix_at s i j
         = Some (op (legacy_values lhs i j) (legacy_values rhs i j)).
Proof.
  intros Hl Hr. pose proof Hl as (Hrpos & Hcpos & Hbig & Hrows & Hsize).
  pose proof (shaped_Columns r c lhs Hl) as HC. pose proof (shaped_Rows r c lhs Hl) as HR.
  assert (Hpos : forall k, 0 <= k < r * c -> 0 <= k / c < r /\ 0 <= k mod c < c).
  { intros k Hk. split; [| apply Z.mod_pos_bound; lia].
    split; [apply Z.div_pos; lia | apply Z.div_lt_upper_bound; lia]. }
  rewrite (ApplyToEach_idx_indexed lhs
             (fun k x => op x (legacy_values rhs (k / c) (k mod c)))).
  - eexists; split; [reflexivity |].
    assert (Hs : shaped r c
                   (Legacy.mkMatrix (Legacy.rows_ lhs)
                      (imap (fun p x => op x (legacy_values rhs (Z.of_nat p / c)
                                                (Z.of_nat p mod c)))
                         (Legacy.buffer_ lhs)))).
    { unfold shaped, Legacy.buffer_size in *; simpl. rewrite length_imap. auto. }
    split; [exact Hs |]. intros i j Hi Hj.
    destruct (shaped_at r c _ i j Hs Hi Hj) as [-> _]. simpl.
    rewrite list_lookup_imap.
    pose proof (shaped_index r c i j Hi Hj) as Hk.
    rewrite Z2Nat.id by lia.
    replace ((c * i + j) / c) with i by (apply (Z.div_unique (c * i + j) c i j); lia).
    replace ((c * i + j) mod c) with j by (apply (Z.mod_unique (c * i + j) c i j); lia).
    unfold legacy_values at 2.
    destruct (shaped_at r c lhs i j Hl Hi Hj) as [-> [x Hx]]. rewrite Hx. reflexivity.
  - rewrite HC. lia.
  - rewrite HR. lia.
  - intros k x Hk Hx. rewrite HC. rewrite Hsize in Hk.
    destruct (Hpos k Hk) as [Hq Hm].
    rewrite (shaped_values r c rhs) by assumption. reflexivity.
Qed.

(** X20. [operator+] and [operator-] on two matrices of the same shape run
    to their ends and return a matrix of that shape, whose element
    [(i, j)] is the sum, or the difference, of the two elements [(i, j)]. *)
Theorem Legacy_add_sub_entries (r c : Z) (lhs rhs : Legacy.Matrix T) :
  shaped r c lhs -> shaped r c rhs ->
  exists s d, Legacy.Matrix_add lhs rhs = Some s /\ Legacy.Matrix_sub lhs rhs = Some d
    /\ Legacy.Rows s = r /\ Legacy.Columns s = c
    /\ Legacy.Rows d = r /\ Legacy.Columns d = c
    /\ forall i j, 0 <= i < r -> 0 <= j < c ->
         exists x y, Legacy.Matrix_at lhs i j = Some x /\ Legacy.Matrix_at rhs i j = Some y
           /\ Legacy.Matrix_at s i j = Some (T_add x y)
           /\ Legacy.Matrix_at d i j = Some (T_sub x y).
Proof.
  intros Hl Hr.
  destruct (combine_entries r c lhs rhs T_add Hl Hr) as (s & Hs & Hss & Hse).
  destruct (combine_entries r c lhs rhs T_sub Hl Hr) as (d & Hd & Hds & Hde).
  exists s, d. unfold Legacy.Matrix_add, Legacy.Matrix_sub.
  rewrite (shaped_Rows r c lhs Hl), (shaped_Rows r c rhs Hr),
    (shaped_Columns r c lhs Hl), (shaped_Columns r c rhs Hr), !Z.eqb_refl. simpl.
  split; [exact Hs |]. split; [exact Hd |].
  split; [apply (shaped_Rows r c s Hss) |]. split; [apply (shaped_Columns r c s Hss) |].
  split; [apply (shaped_Rows r c d Hds) |]. split; [apply (shaped_Columns r c d Hds) |].
  intros i j Hi Hj. exists (legacy_values lhs i j), (legacy_values rhs i j).
  split; [apply (shaped_values r c); assumption |].
  split; [apply (shaped_values r c); assumption |].
  split; [apply Hse | apply Hde]; assumption.
Qed.

(** [ApplyToEach(Function)] maps the callback over the buffer. *)
Lemma ApplyToEach_map (m : Legacy.Matrix T) (func : T -> T) :
  Legacy.ApplyToEach m func
  = Some (Legacy.mkMatrix (Legacy.rows_ m) (map func (Legacy.buffer_ m))).
Proof.
  unfold Legacy.ApplyToEach. set (b := Legacy.buffer_ m).
  destruct (for_loop_invariant
              (fun k buf => length buf = length b
                 /\ forall p, (Z.of_nat p < k -> buf !! p = func <$> b !! p)
                              /\ (k <= Z.of_nat p -> buf !! p = b !! p))
              (length b) 0
              (fun i buf => x ← buf !! Z.to_nat i; Some (<[Z.to_nat i := func x]> buf)) b)
    as (buf & Hloop & Hlen & Hbuf).
  - split; [reflexivity |]. intros p. split; [lia | reflexivity].
  - intros k t Hk (Hlen & Ht).
    destruct (lookup_lt_is_Some_2 b (Z.to_nat k) ltac:(lia)) as (x & Hx).
    destruct (Ht (Z.to_nat k)) as [_ Hsame]. rewrite Hsame, Hx by lia. simpl.
    eexists. split; [reflexivity |]. split; [rewrite length_insert; exact Hlen |].
    intros p. destruct (Nat.eq_dec p (Z.to_nat k)) as [-> | Hne].
    + rewrite list_lookup_insert_eq by lia. rewrite Hx. simpl. split; [reflexivity | lia].
    + rewrite list_lookup_insert_ne by lia. destruct (Ht p) as [Hlo Hhi].
      split; intros Hp; [apply Hlo | apply Hhi]; lia.
  - rewrite Hloop. simpl. f_equal. f_equal.
    apply list_eq. intros p. rewrite list_lookup_fmap.
    destruct (Nat.lt_ge_cases p (length b)) as [Hlt | Hge].
    + apply Hbuf. lia.
    + rewrite !lookup_ge_None_2 by lia. reflexivity.
Qed.

(** The scalar operators never fail and keep the shape; [M * s] and
    [s * M] multiply every element by [s] on the right, and both [M / s]
    and [s / M] divide every element by [s]: [s / M] is not the matrix of
    the quotients [s / M(i, j)]. *)
Lemma Legacy_scalar_entries (m : Legacy.Matrix T) (scalar : T) :
  exists p q, Legacy.Matrix_scale m scalar = Some p /\ Legacy.scalar_times scalar m = Some p
    /\ Legacy.Matrix_div m scalar = Some q /\ Legacy.scalar_over scalar m = Some q
    /\ Legacy.Rows p = Legacy.Rows m /\ Legacy.Columns p = Legacy.Columns m
    /\ Legacy.Rows q = Legacy.Rows m /\ Legacy.Columns q = Legacy.Columns m
    /\ forall i j,
         Legacy.Matrix_at p i j = (fun x => T_mul x scalar) <$> Legacy.Matrix_at m i j
         /\ Legacy.Matrix_at q i j = (fun x => T_div x scalar) <$> Legacy.Matrix_at m i j.
Proof.
  unfold Legacy.scalar_times, Legacy.scalar_over, Legacy.Matrix_scale, Legacy.Matrix_div.
  rewrite !ApplyToEach_map. do 2 eexists. repeat (split; [reflexivity |]).
  assert (Hshape : forall f : T -> T,
            Legacy.Columns (Legacy.mkMatrix (Legacy.rows_ m) (map f (Legacy.buffer_ m)))
            = Legacy.Columns m
            /\ Legacy.buffer_size (Legacy.mkMatrix (Legacy.rows_ m) (map f (Legacy.buffer_ m)))
               = Legacy.buffer_size m).
  { intros f. unfold Legacy.Columns, Legacy.buffer_size; simpl. rewrite length_map. auto. }
  destruct (Hshape (fun x => T_mul x scalar)) as [HCp HSp].
  destruct (Hshape (fun x => T_div x scalar)) as [HCq HSq].
  split; [exact HCp |]. split; [reflexivity |]. split; [exact HCq |].
  intros i j. unfold Legacy.Matrix_at. rewrite HCp, HCq, HSp, HSq.
  destruct (assert _); simpl; [| auto]. rewrite !list_lookup_fmap. auto.
Qed.

End LegacyArithmetic.

(** *** Product and comparison *)

Section LegacyProduct.
Context {T : Type} {FC : FloatOrComplex T} {EU : ElementUtils T}.

Lemma legacy_dot (r k c : Z) (lhs rhs : Legacy.Matrix T) (i j : Z) :
  shaped r k lhs -> shaped k c rhs -> 0 <= i < r -> 0 <= j < c ->
  Legacy.dot lhs rhs i j
  = Some (left_sum (fun t => T_mul (legacy_values lhs i t) (legacy_values rhs t j))
            (Z.to_nat k)).
Proof.
  intros Hl Hr Hi Hj. unfold Legacy.dot. rewrite (shaped_Columns r k lhs Hl).
  destruct (for_loop_invariant
              (fun t sum =>
                 sum = left_sum (fun t => T_mul (legacy_values lhs i t) (legacy_values rhs t j))
                         (Z.to_nat t))
              (Z.to_nat k) 0
              (fun t sum => a ← Legacy.Matrix_at lhs i t;
                            b ← Legacy.Matrix_at rhs t j;
                            Some (T_add sum (T_mul a b))) T_zero) as (s & Hs & Hinv).
  - reflexivity.
  - intros t u Ht ->.
    rewrite (shaped_values r k lhs i t Hl Hi) by lia.
    rewrite (shaped_values k c rhs t j Hr) by lia. simpl.
    eexists; split; [reflexivity |].
    replace (Z.to_nat (t + 1)) with (Datatypes.S (Z.to_nat t)) by lia.
    simpl. rewrite Z2Nat.id by lia. reflexivity.
  - rewrite Hs, Hinv. do 2 f_equal. lia.
Qed.

Lemma legacy_filled_set (r c : Z) (P : Z -> Z -> T) (m : Legacy.Matrix T) (i j : Z) :
  0 <= i < r -> 0 <= j < c ->
  legacy_filled r c P (c * i + j) m ->
  exists m', Legacy.Matrix_set m i j (P i j) = Some m'
             /\ legacy_filled r c P (c * i + j + 1) m'.
Proof.
  intros Hi Hj (Hsh & Hfill).
  destruct (shaped_set r c m i j (P i j) Hsh Hi Hj) as (m' & Hset & Hbuf & Hsh').
  exists m'. split; [exact Hset |]. split; [exact Hsh' |].
  intros i' j' Hi' Hj' Hlt. rewrite Hbuf.
  destruct (Z.eq_dec (c * i' + j') (c * i + j)) as [Heq | Hne].
  - destruct (linear_index_inj c i' j' i j Hj' Hj Heq) as [-> ->].
    apply list_lookup_insert_eq.
    destruct Hsh as (_ & _ & _ & _ & Hsize). unfold Legacy.buffer_size in Hsize. nia.
  - rewrite list_lookup_insert_ne by nia. apply Hfill; [assumption .. | lia].
Qed.

(** X21. [operator*] on an [r] x [k] and a [k] x [c] matrix runs to its end
    and returns the [r] x [c] matrix whose element [(i, j)] is the sum,
    accumulated from [T{0}] in the order of [t], of the products of the
    elements [(i, t)] and [(t, j)]; the sums are stored as they are, no
    element is rounded. *)
Theorem Legacy_mul_entries (r k c : Z) (lhs rhs : Legacy.Matrix T) :
  shaped r k lhs -> shaped k c rhs -> r * c < 2 ^ 64 ->
  exists p, Legacy.Matrix_mul lhs rhs = Some p
    /\ Legacy.Rows p = r /\ Legacy.Columns p = c
    /\ forall i j, 0 <= i < r -> 0 <= j < c ->
         Legacy.Matrix_at p i j
         = Some (left_sum (fun t => T_mul (legacy_values lhs i t) (legacy_values rhs t j))
                   (Z.to_nat k)).
Proof.
  intros Hl Hr Hbig.
  pose proof Hl as (Hrpos & Hkpos & _ & _ & _). pose proof Hr as (_ & Hcpos & _ & _ & _).
  set (P := fun i j => left_sum (fun t => T_mul (legacy_values lhs i t)
                                            (legacy_values rhs t j)) (Z.to_nat k)).
  assert (Hinit : shaped r c (Legacy.mkMatrix r (replicate (Z.to_nat (r * c)) T_zero))).
  { unfold shaped, Legacy.buffer_size; simpl. rewrite length_replicate.
    repeat split; try lia. }
  unfold Legacy.Matrix_mul.
  rewrite (shaped_Columns r k lhs Hl), (shaped_Rows k c rhs Hr), (shaped_Rows r k lhs Hl),
    (shaped_Columns k c rhs Hr), Z.eqb_refl. simpl.
  unfold Legacy.Matrix_sized. rewrite wrap_small by lia.
  rewrite (shaped_Rows r c _ Hinit), (shaped_Columns r c _ Hinit).
  destruct (Z.ltb_spec 0 r); [| lia]. destruct (Z.ltb_spec 0 c); [| lia]. simpl.
  destruct (for_loop_invariant (fun i m => legacy_filled r c P (c * i) m)
              (Z.to_nat r) 0
              (fun i result =>
                 for_loop (Z.to_nat c) 0
                   (fun j result => sum ← Legacy.dot lhs rhs i j;
                                    Legacy.Matrix_set result i j sum) result)
              (Legacy.mkMatrix r (replicate (Z.to_nat (r * c)) T_zero)))
    as (p & Hp & Hinv).
  - split; [exact Hinit |]. intros i j Hi Hj Hlt. nia.
  - intros i m Hi Hfill.
    destruct (for_loop_invariant (fun j m => legacy_filled r c P (c * i + j) m)
                (Z.to_nat c) 0
                (fun j result => sum ← Legacy.dot lhs rhs i j;
                                 Legacy.Matrix_set result i j sum) m)
      as (m' & Hm' & Hinv').
    + rewrite Z.add_0_r. exact Hfill.
    + intros j t Hj Ht. rewrite (legacy_dot r k c) by (assumption || lia). simpl.
      rewrite Z.add_assoc. apply (legacy_filled_set r c P t i j); [lia | lia | exact Ht].
    + exists m'. split; [exact Hm' |].
      replace (c * (i + 1)) with (c * i + (0 + Z.of_nat (Z.to_nat c))) by lia.
      exact Hinv'.
  - exists p. split; [exact Hp |]. destruct Hinv as (Hsh & Hfill).
    split; [apply (shaped_Rows r c p Hsh) |]. split; [apply (shaped_Columns r c p Hsh) |].
    intros i j Hi Hj. destruct (shaped_at r c p i j Hsh Hi Hj) as [-> _].
    apply Hfill; [assumption .. | nia].
Qed.

(** X22. [operator==] of the first class on two matrices runs to its end,
    and answers [true] exactly when the two matrices have the same row
    count and the same column count and every pair of elements at the same
    coordinates passes the tolerance comparison. *)
Theorem Legacy_eq_decides (r c r' c' : Z) (lhs rhs : Legacy.Matrix T) :
  shaped r c lhs -> shaped r' c' rhs ->
  exists b, Legacy.Matrix_eq lhs rhs = Some b
    /\ (b = true <->
        r = r' /\ c = c'
        /\ forall i j, 0 <= i < r -> 0 <= j < c ->
             IsEqualFloating (legacy_values lhs i j) (legacy_values rhs i j) = true).
Proof.
  intros Hl Hr. unfold Legacy.Matrix_eq.
  rewrite (shaped_Rows r c lhs Hl), (shaped_Rows r' c' rhs Hr),
    (shaped_Columns r c lhs Hl), (shaped_Columns r' c' rhs Hr).
  destruct (Z.eqb_spec r r') as [<- | Hrr]; simpl.
  2: { exists false. split; [reflexivity |]. split; [discriminate | tauto]. }
  destruct (Z.eqb_spec c c') as [<- | Hcc]; simpl.
  2: { exists false. split; [reflexivity |]. split; [discriminate | tauto]. }
  pose proof Hl as (Hrpos & Hcpos & Hbig & Hrows & Hsize).
  unfold Legacy.ApplyToEach_const.
  rewrite (shaped_Rows r c lhs Hl), (shaped_Columns r c lhs Hl).
  destruct (Z.eqb_spec c 0); [lia |]. destruct (Z.eqb_spec r 0); [lia |]. simpl.
  set (E := fun i j => IsEqualFloating (legacy_values lhs i j) (legacy_values rhs i j)).
  assert (Hpos : forall k, 0 <= k < r * c -> 0 <= k / c < r /\ 0 <= k mod c < c).
  { intros k Hk. split; [| apply Z.mod_pos_bound; lia].
    split; [apply Z.div_pos; lia | apply Z.div_lt_upper_bound; lia]. }
  unfold Legacy.buffer_size in Hsize.
  destruct (for_loop_invariant
              (fun k (b : bool) =>
                 b = true <-> forall p, 0 <= p < k -> E (p / c) (p mod c) = true)
              (length (Legacy.buffer_ lhs)) 0
              (fun i (s : bool) =>
                 x ← Legacy.buffer_ lhs !! Z.to_nat i;
                 (if s then y ← Legacy.Matrix_at rhs (i / c) (i mod c);
                            Some (IsEqualFloating x y)
                  else Some false)) true) as (b & Hb & Hinv).
  - split; [intros _ p Hp; lia | reflexivity].
  - intros k s Hk Hs. destruct (Hpos k ltac:(lia)) as [Hq Hm].
    assert (Hx : Legacy.buffer_ lhs !! Z.to_nat k
                 = Some (legacy_values lhs (k / c) (k mod c))).
    { rewrite <- (shaped_values r c lhs _ _ Hl Hq Hm).
      destruct (shaped_at r c lhs _ _ Hl Hq Hm) as [-> _].
      rewrite <- Z.div_mod by lia. reflexivity. }
    rewrite Hx. simpl. destruct s.
    + rewrite (shaped_values r c rhs _ _ Hr Hq Hm). simpl.
      eexists; split; [reflexivity |]. fold (E (k / c) (k mod c)).
      destruct Hs as [Hs _]. specialize (Hs eq_refl). split.
      * intros Hk' p Hp. destruct (Z.eq_dec p k) as [-> | Hne]; [exact Hk' | apply Hs; lia].
      * intros H. apply H. lia.
    + eexists; split; [reflexivity |]. split; [discriminate |].
      intros H. apply Hs. intros p Hp. apply H. lia.
  - exists b. split; [exact Hb |]. rewrite Hinv. split.
    + intros H. split; [reflexivity |]. split; [reflexivity |]. intros i j Hi Hj.
      pose proof (shaped_index r c i j Hi Hj) as Hk.
      specialize (H (c * i + j) ltac:(lia)).
      replace ((c * i + j) / c) with i in H
        by (apply (Z.div_unique (c * i + j) c i j); lia).
      replace ((c * i + j) mod c) with j in H
        by (apply (Z.mod_unique (c * i + j) c i j); lia).
      exact H.
    + intros (_ & _ & H) p Hp. destruct (Hpos p ltac:(lia)) as [Hq Hm].
      apply H; assumption.
Qed.

End LegacyProduct.

(** *** Assignment of a block *)

Section LegacyAssign.
Context {T : Type} {FC : FloatOrComplex T} {EU : ElementUtils T}.

Lemma assigned_set (R C : Z) (m0 sub : Legacy.Matrix T) (row column c I J : Z)
    (m : Legacy.Matrix T) :
  0 <= row <= I -> I < R -> 0 <= column <= J -> J < column + c -> column + c <= C ->
  assigned R C m0 sub row column c I J m ->
  exists m', Legacy.Matrix_set m I J (legacy_values sub (I - row) (J - column)) = Some m'
             /\ assigned R C m0 sub row column c I (J + 1) m'.
Proof.
  intros HI HIR HJ HJc HcC (Hsh & Hfill).
  destruct (shaped_set R C m I J (legacy_values sub (I - row) (J - column)) Hsh
              ltac:(lia) ltac:(lia)) as (m' & Hset & Hbuf & Hsh').
  exists m'. split; [exact Hset |]. split; [exact Hsh' |].
  intros i j Hi Hj. rewrite Hbuf.
  destruct (Z.eq_dec (C * i + j) (C * I + J)) as [Heq | Hne].
  - destruct (linear_index_inj C i j I J Hj ltac:(lia) Heq) as [-> ->].
    rewrite list_lookup_insert_eq
      by (destruct Hsh as (_ & _ & _ & _ & Hsize); unfold Legacy.buffer_size in Hsize; nia).
    rewrite Z.eqb_refl.
    destruct (Z.leb_spec column J); [| lia]. destruct (Z.ltb_spec J (J + 1)); [| lia].
    simpl. rewrite orb_true_r. reflexivity.
  - rewrite list_lookup_insert_ne by nia. rewrite Hfill by assumption.
    assert (Hij : i <> I \/ j <> J) by (destruct (Z.eq_dec i I); [subst; right; lia | auto]).
    destruct (Z.leb_spec row i), (Z.ltb_spec i I), (Z.leb_spec column j),
      (Z.ltb_spec j (column + c)), (Z.eqb_spec i I), (Z.ltb_spec j J),
      (Z.ltb_spec j (J + 1)); simpl; try reflexivity; lia.
Qed.

(** X23. [AssignSubmatrix] with a block that fits into the matrix runs to
    its end, keeps the shape of the matrix, writes the element
    [(i - row, j - column)] of the block to every element [(i, j)] the block
    covers and leaves every other element as it was. *)
Theorem AssignSubmatrix_entries (R C r c : Z) (m sub : Legacy.Matrix T) (row column : Z) :
  shaped R C m -> shaped r c sub ->
  0 <= row -> 0 <= column -> row + r <= R -> column + c <= C ->
  exists m', Legacy.AssignSubmatrix m sub row column = Some m'
    /\ Legacy.Rows m' = R /\ Legacy.Columns m' = C
    /\ forall i j, 0 <= i < R -> 0 <= j < C ->
         Legacy.Matrix_at m' i j
         = if (row <=? i) && (i <? row + r) && (column <=? j) && (j <? column + c)
           then Legacy.Matrix_at sub (i - row) (j - column)
           else Legacy.Matrix_at m i j.
Proof.
  intros Hm Hsub Hrow Hcol HrR HcC.
  pose proof Hm as (HRpos & HCpos & Hbig & _ & _).
  pose proof Hsub as (Hrpos & Hcpos & _ & _ & _).
  assert (HR64 : R < 2 ^ 64) by nia. assert (HC64 : C < 2 ^ 64) by nia.
  unfold Legacy.AssignSubmatrix.
  rewrite (shaped_Rows R C m Hm), (shaped_Columns R C m Hm),
    (shaped_Rows r c sub Hsub), (shaped_Columns r c sub Hsub).
  rewrite !wrap_small by lia.
  destruct (Z.leb_spec 0 row); [| lia]. destruct (Z.leb_spec (row + r) R); [| lia].
  destruct (Z.leb_spec 0 column); [| lia]. destruct (Z.leb_spec (column + c) C); [| lia].
  simpl.
  replace (row + r - row) with r by lia. replace (column + c - column) with c by lia.
  destruct (for_loop_invariant
              (fun I t => assigned R C m sub row column c I column t)
              (Z.to_nat r) row
              (fun i t =>
                 for_loop (Z.to_nat c) column
                   (fun j t => x ← Legacy.Matrix_at sub (Legacy.wrap (i - row))
                                   (Legacy.wrap (j - column));
                               Legacy.Matrix_set t i j x) t) m) as (m' & Hrun & Hinv).
  - split; [exact Hm |]. intros i j Hi Hj.
    destruct (Z.leb_spec row i), (Z.ltb_spec i row), (Z.leb_spec column j),
      (Z.ltb_spec j (column + c)), (Z.eqb_spec i row), (Z.ltb_spec j column);
      simpl; try reflexivity; lia.
  - intros I t HI Ht.
    destruct (for_loop_invariant
                (fun J t => assigned R C m sub row column c I J t)
                (Z.to_nat c) column
                (fun j t => x ← Legacy.Matrix_at sub (Legacy.wrap (I - row))
                                (Legacy.wrap (j - column));
                            Legacy.Matrix_set t I j x) t) as (t' & Hrun' & Hinv').
    + exact Ht.
    + intros J u HJ Hu. rewrite !wrap_small by lia.
      rewrite (shaped_values r c sub) by (assumption || lia). simpl.
      apply (assigned_set R C m sub row column c I J u); (lia || exact Hu).
    + exists t'. split; [exact Hrun' |]. destruct Hinv' as (Hsh' & Hfill').
      split; [exact Hsh' |]. intros i j Hi Hj. rewrite Hfill' by assumption.
      replace (column + Z.of_nat (Z.to_nat c)) with (column + c) by lia.
      destruct (Z.leb_spec row i), (Z.ltb_spec i I), (Z.ltb_spec i (I + 1)),
        (Z.leb_spec column j), (Z.ltb_spec j (column + c)), (Z.eqb_spec i I),
        (Z.eqb_spec i (I + 1)), (Z.ltb_spec j column); simpl; try reflexivity; lia.
  - exists m'. split; [exact Hrun |]. destruct Hinv as (Hsh & Hfill).
    split; [apply (shaped_Rows R C m' Hsh) |]. split; [apply (shaped_Columns R C m' Hsh) |].
    intros i j Hi Hj. destruct (shaped_at R C m' i j Hsh Hi Hj) as [-> _].
    rewrite Hfill by assumption.
    replace (row + Z.of_nat (Z.to_nat r)) with (row + r) by lia.
    destruct (shaped_at R C m i j Hm Hi Hj) as [-> _].
    destruct (Z.leb_spec row i), (Z.ltb_spec i (row + r)), (Z.leb_spec column j),
      (Z.ltb_spec j (column + c)), (Z.eqb_spec i (row + r)), (Z.ltb_spec j column);
      simpl; try reflexivity; try lia.
    all: symmetry; apply (shaped_values r c sub); (assumption || lia).
Qed.

End LegacyAssign.

(** *** Transposition in place *)

Section LegacyTranspose.
Context {T : Type} {FC : FloatOrComplex T} {EU : ElementUtils T}.

(** While the products [rows * swap_idx] stay below [2^64], the cycles of
    the first class are the walk in the integers. *)
Lemma legacy_follow_cycle (fuel : nat) (r c last i s : Z) (st : list T * list bool) :
  1 <= r -> 1 <= c -> r * c = last + 1 -> r * last < 2 ^ 64 -> 0 <= s <= last ->
  Legacy.follow_cycle fuel r last i s st = walk_cycle fuel r last i s st.
Proof.
  intros Hr Hc Hrc Hbig. revert s st.
  induction fuel as [| fuel IH]; intros s st Hs; [reflexivity |].
  assert (Hnext : Legacy.next_idx r last s = index_map r last s).
  { unfold Legacy.next_idx, index_map. rewrite wrap_small by nia. reflexivity. }
  pose proof (index_map_range r c last s Hr Hc Hrc Hs) as Hrange.
  simpl. rewrite Hnext.
  destruct (swap_at (fst st) (index_map r last s) i); [| reflexivity]. simpl.
  destruct (mark (snd st) (index_map r last s)); [| reflexivity]. simpl.
  destruct (index_map r last s =? i); [reflexivity |]. apply IH. exact Hrange.
Qed.

(** [Transpose] on a matrix with elements, as the move of the buffer. *)
Lemma legacy_Transpose_buffer (r c : Z) (m : Legacy.Matrix T) :
  shaped r c m -> r * (r * c) < 2 ^ 64 ->
  exists buf, Legacy.Transpose m = Some (Legacy.mkMatrix c buf)
    /\ length buf = length (Legacy.buffer_ m)
    /\ forall k, 0 <= k < r * c ->
         buf !! Z.to_nat k = Legacy.buffer_ m !! Z.to_nat (index_map c (r * c - 1) k).
Proof.
  intros Hsh Hbig. pose proof Hsh as (Hr & Hc & Hsmall & Hrows & Hsize).
  unfold Legacy.buffer_size in Hsize.
  destruct (Transpose_loop_runs r c (Legacy.buffer_ m) ltac:(lia) ltac:(lia) ltac:(lia))
    as (buf & vis & Hloop & Hlen & Hbuf).
  exists buf. unfold Legacy.Transpose.
  rewrite (shaped_Rows r c m Hsh), (shaped_Columns r c m Hsh).
  unfold Legacy.buffer_size. rewrite wrap_small by lia.
  rewrite (for_loop_ext _ _ _
             (walk_step (Datatypes.S (length (Legacy.buffer_ m))) r
                (Z.of_nat (length (Legacy.buffer_ m)) - 1))).
  - rewrite Hloop. simpl. split; [reflexivity |]. split; [exact Hlen |].
    intros k Hk. rewrite Hbuf by lia. unfold CycleSpec.src. rewrite Hsize. reflexivity.
  - intros k t Hk. unfold Legacy.Transpose_step, walk_step.
    destruct (snd t !! Z.to_nat k) as [[|] |]; try reflexivity.
    exact (legacy_follow_cycle _ r c (Z.of_nat (length (Legacy.buffer_ m)) - 1) k k t
             ltac:(lia) ltac:(lia) ltac:(lia) ltac:(nia)
             ltac:(lia)).
Qed.

(** X24. [Transpose] of the first class, on an [r] x [c] matrix small
    enough for the products of the index map not to wrap: it runs to its
    end and leaves the [c] x [r] matrix whose element [(i, j)] is the element
    [(j, i)] of the matrix, and transposing that matrix again gives the
    matrix back. *)
Theorem Legacy_Transpose_entries (r c : Z) (m : Legacy.Matrix T) :
  shaped r c m -> r * (r * c) < 2 ^ 64 -> c * (r * c) < 2 ^ 64 ->
  exists m', Legacy.Transpose m = Some m'
    /\ Legacy.Rows m' = c /\ Legacy.Columns m' = r
    /\ (forall i j, 0 <= i < c -> 0 <= j < r ->
          is_Some (Legacy.Matrix_at m j i)
          /\ Legacy.Matrix_at m' i j = Legacy.Matrix_at m j i)
    /\ Legacy.Transpose m' = Some m.
Proof.
  intros Hsh Hbig Hbig'. pose proof Hsh as (Hr & Hc & Hsmall & Hrows & Hsize).
  destruct (legacy_Transpose_buffer r c m Hsh Hbig) as (buf & Hrun & Hlen & Hbuf).
  set (m' := Legacy.mkMatrix c buf) in *.
  assert (Hsh' : shaped c r m').
  { unfold shaped, Legacy.buffer_size in *; simpl. rewrite Hlen. repeat split; lia. }
  exists m'. split; [exact Hrun |].
  split; [apply (shaped_Rows c r m' Hsh') |]. split; [apply (shaped_Columns c r m' Hsh') |].
  split.
  - intros i j Hi Hj.
    destruct (shaped_at r c m j i Hsh Hj Hi) as [-> Hsome].
    destruct (shaped_at c r m' i j Hsh' Hi Hj) as [-> _].
    split; [exact Hsome |]. simpl. rewrite Hbuf by nia.
    rewrite (index_map_transposes c r) by lia. reflexivity.
  - destruct (legacy_Transpose_buffer c r m' Hsh' ltac:(lia)) as (buf2 & Hrun2 & Hlen2 & Hbuf2).
    rewrite Hrun2. f_equal. destruct m as [r0 B]. simpl in *. subst r0. f_equal.
    unfold Legacy.buffer_size in Hsize; simpl in Hsize.
    apply list_eq. intros k.
    destruct (Nat.lt_ge_cases k (length B)) as [Hlt | Hge].
    + specialize (Hbuf2 (Z.of_nat k) ltac:(lia)). rewrite Nat2Z.id in Hbuf2.
      rewrite Hbuf2.
      pose proof (index_map_range r c (c * r - 1) (Z.of_nat k)
                    ltac:(lia) ltac:(lia) ltac:(lia) ltac:(lia)) as Hrange.
      rewrite Hbuf by lia.
      replace (r * c - 1) with (c * r - 1) by lia.
      rewrite (index_map_inverse r c) by lia. rewrite Nat2Z.id. reflexivity.
    + rewrite !lookup_ge_None_2 by lia. reflexivity.
Qed.

(** X25. [Conjugate] of the first class, on the same matrices: it runs to
    its end and leaves the [c] x [r] matrix whose element [(i, j)] is the
    element [(j, i)] of the matrix, conjugated when the element type is
    complex. *)
Theorem Legacy_Conjugate_entries (r c : Z) (m : Legacy.Matrix T) :
  shaped r c m -> r * (r * c) < 2 ^ 64 ->
  exists m', Legacy.Conjugate m = Some m'
    /\ Legacy.Rows m' = c /\ Legacy.Columns m' = r
    /\ forall i j, 0 <= i < c -> 0 <= j < r ->
         Legacy.Matrix_at m' i j = read_conj true <$> Legacy.Matrix_at m j i.
Proof.
  intros Hsh Hbig. pose proof Hsh as (Hr & Hc & Hsmall & Hrows & Hsize).
  destruct (legacy_Transpose_buffer r c m Hsh Hbig) as (buf & Hrun & Hlen & Hbuf).
  assert (Hsh' : forall f : T -> T, shaped c r (Legacy.mkMatrix c (map f buf))).
  { intros f. unfold shaped, Legacy.buffer_size in *; simpl. rewrite length_map, Hlen.
    repeat split; lia. }
  assert (Hentry : forall (f : T -> T) i j, 0 <= i < c -> 0 <= j < r ->
            Legacy.Matrix_at (Legacy.mkMatrix c (map f buf)) i j
            = f <$> Legacy.Matrix_at m j i).
  { intros f i j Hi Hj.
    destruct (shaped_at c r _ i j (Hsh' f) Hi Hj) as [-> _].
    destruct (shaped_at r c m j i Hsh Hj Hi) as [-> _]. simpl.
    rewrite list_lookup_fmap, Hbuf by nia.
    rewrite (index_map_transposes c r) by lia. reflexivity. }
  unfold Legacy.Conjugate. rewrite Hrun. simpl. unfold read_conj. simpl.
  destruct IsFloatComplexT.
  - rewrite ApplyToEach_map. simpl. eexists; split; [reflexivity |].
    split; [apply (shaped_Rows c r _ (Hsh' T_conj)) |].
    split; [apply (shaped_Columns c r _ (Hsh' T_conj)) |].
    apply Hentry.
  - eexists; split; [reflexivity |].
    pose proof (Hsh' (fun x => x)) as Hid. pose proof (Hentry (fun x => x)) as Hid'.
    rewrite map_id in Hid, Hid'.
    split; [apply (shaped_Rows c r _ Hid) |].
    split; [apply (shaped_Columns c r _ Hid) |]. exact Hid'.
Qed.

End LegacyTranspose.

(** *** The statements above on small matrices *)

Lemma Legacy_Diagonal_entries_witness :
  exists m, Legacy.Diagonal [2; 3]%float = Some m
    /\ Legacy.Rows m = 2 /\ Legacy.Columns m = 2
    /\ forall i j, 0 <= i < 2 -> 0 <= j < 2 ->
         Legacy.Matrix_at m i j
         = if i =? j then [2; 3]%float !! Z.to_nat i else Some T_zero.
Proof. apply (Legacy_Diagonal_entries [2; 3]%float); evaluate. Defined.

Lemma Legacy_add_sub_entries_witness :
  exists s d, Legacy.Matrix_add legacy_diag_23 legacy_block_1221 = Some s
    /\ Legacy.Matrix_sub legacy_diag_23 legacy_block_1221 = Some d
    /\ Legacy.Rows s = 2 /\ Legacy.Columns s = 2
    /\ Legacy.Rows d = 2 /\ Legacy.Columns d = 2
    /\ forall i j, 0 <= i < 2 -> 0 <= j < 2 ->
         exists x y, Legacy.Matrix_at legacy_diag_23 i j = Some x
           /\ Legacy.Matrix_at legacy_block_1221 i j = Some y
           /\ Legacy.Matrix_at s i j = Some (T_add x y)
           /\ Legacy.Matrix_at d i j = Some (T_sub x y).
Proof.
  apply (Legacy_add_sub_entries 2 2 legacy_diag_23 legacy_block_1221);
    unfold shaped; evaluate.
Defined.

Lemma Legacy_mul_entries_witness :
  exists p, Legacy.Matrix_mul legacy_2x3 legacy_3x1 = Some p
    /\ Legacy.Rows p = 2 /\ Legacy.Columns p = 1
    /\ forall i j, 0 <= i < 2 -> 0 <= j < 1 ->
         Legacy.Matrix_at p i j
         = Some (left_sum (fun t => T_mul (legacy_values legacy_2x3 i t)
                                          (legacy_values legacy_3x1 t j)) 3).
Proof.
  apply (Legacy_mul_entries 2 3 1 legacy_2x3 legacy_3x1); unfold shaped; evaluate.
Defined.

Lemma Legacy_eq_decides_witness :
  exists b, Legacy.Matrix_eq legacy_2x3 legacy_3x1 = Some b
    /\ (b = true <->
        2 = 3 /\ 3 = 1
        /\ forall i j, 0 <= i < 2 -> 0 <= j < 3 ->
             IsEqualFloating (legacy_values legacy_2x3 i j)
                             (legacy_values legacy_3x1 i j) = true).
Proof.
  apply (Legacy_eq_decides 2 3 3 1 legacy_2x3 legacy_3x1); unfold shaped; evaluate.
Defined.

Lemma AssignSubmatrix_entries_witness :
  exists m', Legacy.AssignSubmatrix legacy_3x3 legacy_diag_23 1 1 = Some m'
    /\ Legacy.Rows m' = 3 /\ Legacy.Columns m' = 3
    /\ forall i j, 0 <= i < 3 -> 0 <= j < 3 ->
         Legacy.Matrix_at m' i j
         = if (1 <=? i) && (i <? 1 + 2) && (1 <=? j) && (j <? 1 + 2)
           then Legacy.Matrix_at legacy_diag_23 (i - 1) (j - 1)
           else Legacy.Matrix_at legacy_3x3 i j.
Proof.
  apply (AssignSubmatrix_entries 3 3 2 2 legacy_3x3 legacy_diag_23 1 1);
    unfold shaped; evaluate.
Defined.

Lemma Legacy_Transpose_entries_witness :
  exists m', Legacy.Transpose legacy_2x3 = Some m'
    /\ Legacy.Rows m' = 3 /\ Legacy.Columns m' = 2
    /\ (forall i j, 0 <= i < 3 -> 0 <= j < 2 ->
          is_Some (Legacy.Matrix_at legacy_2x3 j i)
          /\ Legacy.Matrix_at m' i j = Legacy.Matrix_at legacy_2x3 j i)
    /\ Legacy.Transpose m' = Some legacy_2x3.
Proof.
  apply (Legacy_Transpose_entries 2 3 legacy_2x3); unfold shaped; evaluate.
Defined.

Lemma Legacy_Conjugate_entries_witness :
  exists m', Legacy.Conjugate legacy_2x3 = Some m'
    /\ Legacy.Rows m' = 3 /\ Legacy.Columns m' = 2
    /\ forall i j, 0 <= i < 3 -> 0 <= j < 2 ->
         Legacy.Matrix_at m' i j = read_conj true <$> Legacy.Matrix_at legacy_2x3 j i.
Proof.
  apply (Legacy_Conjugate_entries 2 3 legacy_2x3); unfold shaped; evaluate.
Defined.

Lemma Legacy_Identity_entries_witness :
  Legacy.Identity 0 1%float = None
  /\ exists m, Legacy.Identity 2 1%float = Some m
       /\ Legacy.Rows m = 2 /\ Legacy.Columns m = 2
       /\ forall i j, 0 <= i < 2 -> 0 <= j < 2 ->
            Legacy.Matrix_at m i j = Some (if i =? j then 1%float else T_zero).
Proof.
  destruct (Legacy_Identity_entries 2 1%float) as [Hzero Hpos].
  split; [exact Hzero | apply Hpos; evaluate].
Defined.

(** ** In-place conjugation, vectors, traversal order *)

Section InPlace.
Context {T : Type} {FC : FloatOrComplex T} {EU : ElementUtils T} {IL : IndexLimits}.



(** The index map of a shape with one row, or with one column, moves no
    index. *)
Lemma index_map_of_vector (r c last k : Z) :
  r = 1 \/ c = 1 -> 1 <= r -> 1 <= c -> r * c = last + 1 -> 0 <= k <= last ->
  index_map c last k = k.
Proof.
  intros Hvec Hr Hc Hrc Hk. unfold index_map.
  destruct (Z.eqb_spec k last) as [-> | Hne]; [reflexivity |].
  destruct Hvec as [-> | ->].
  - replace (c * k) with (k + k * last) by nia.
    rewrite Z.rem_add by nia. apply Z.rem_small. lia.
  - rewrite Z.mul_1_l. apply Z.rem_small. lia.
Qed.

(** X27. Transposing a vector in place moves no element: on a matrix of
    one row, or of one column, whose element count times its row count is
    a value of [IndexType], [Transpose] returns the same buffer, with the
    row count as the new column count. *)
Theorem Transpose_of_vector (m : Matrix T) :
  Rows m = 1 \/ Columns m = 1 ->
  1 <= Rows m -> 1 <= Columns m -> buffer_size m = Rows m * Columns m ->
  Rows m * buffer_size m <= IndexType_max ->
  Transpose m = Some (mkMatrix (Rows m) (buffer_ m)).
Proof.
  intros Hvec Hr Hc Hsize Hbig.
  destruct (Transpose_buffer m Hr Hc ltac:(lia) Hbig) as (buf & Hrun & Hlen & Hbuf).
  rewrite Hrun. do 2 f_equal. apply list_eq. intros k.
  destruct (Nat.lt_ge_cases k (length (buffer_ m))) as [Hlt | Hge].
  - unfold buffer_size in *. specialize (Hbuf (Z.of_nat k) ltac:(lia)).
    rewrite Nat2Z.id in Hbuf. rewrite Hbuf.
    rewrite (index_map_of_vector (Rows m) (Columns m)) by lia.
    rewrite Nat2Z.id. reflexivity.
  - rewrite !lookup_ge_None_2 by lia. reflexivity.
Qed.

(** X28. [ApplyToEach] on the view of a whole matrix visits the elements in
    the order of the buffer, row after row: the callback that appends its
    argument to a list collects the buffer. *)
Theorem View_ApplyToEach_visits_in_order (m : Matrix T) :
  0 <= Columns m -> buffer_size m = Rows m * Columns m ->
  View_ApplyToEach_values (View m) (fun val acc => Some (acc ++ [val])) []
  = Some (buffer_ m).
Proof.
  intros Hc Hsize. pose proof (Rows_nonneg m Hc) as Hr.
  destruct (View_reads_the_matrix m) as (HR & HC & Hat).
  unfold View_ApplyToEach_values. rewrite HR, HC.
  set (B := buffer_ m). set (r := Rows m) in *. set (c := Columns m) in *.
  unfold buffer_size in Hsize. fold B in Hsize.
  destruct (for_loop_invariant
              (fun i (acc : list T) => acc = take (Z.to_nat (c * i)) B)
              (Z.to_nat r) 0
              (fun i s =>
                 for_loop (Z.to_nat c) 0
                   (fun j s => val ← View_at (View m) i j; Some (s ++ [val])) s)
              []) as (acc & Hrun & Hacc).
  - rewrite Z.mul_0_r. reflexivity.
  - intros i s Hi ->.
    destruct (for_loop_invariant
                (fun j (acc : list T) => acc = take (Z.to_nat (c * i + j)) B)
                (Z.to_nat c) 0
                (fun j s => val ← View_at (View m) i j; Some (s ++ [val]))
                (take (Z.to_nat (c * i)) B)) as (acc & Hrun & Hacc).
    + rewrite Z.add_0_r. reflexivity.
    + intros j s Hj ->. rewrite Hat.
      destruct (Matrix_at_linear m i j) as [-> [x Hx]];
        [unfold buffer_size; fold B r c; nia |].
      fold B c in Hx |- *. rewrite Hx. simpl. eexists; split; [reflexivity |].
      replace (Z.to_nat (c * i + (j + 1))) with (Datatypes.S (Z.to_nat (c * i + j))) by nia.
      symmetry. apply take_S_r. exact Hx.
    + exists acc. split; [exact Hrun |]. rewrite Hacc. f_equal. nia.
  - rewrite Hrun, Hacc. f_equal. apply take_ge. nia.
Qed.

(** X29. A view that is not transposed reads within the storage: on a
    matrix whose buffer holds rows times columns elements, every read at
    coordinates of the view succeeds and returns the element of the matrix
    at the coordinates shifted by the two offsets, conjugated when the
    conjugated flag is set and the element type is complex. *)
Theorem untransposed_view_reads_in_range (m : Matrix T) (row col : Segment) (cj : bool)
    (i j : Z) :
  0 <= Columns m -> buffer_size m = Rows m * Columns m ->
  0 <= i < View_Rows (ConstMatrixView_new m row col (mkMatrixState false cj)) ->
  0 <= j < View_Columns (ConstMatrixView_new m row col (mkMatrixState false cj)) ->
  is_Some (View_at (ConstMatrixView_new m row col (mkMatrixState false cj)) i j)
  /\ View_at (ConstMatrixView_new m row col (mkMatrixState false cj)) i j
     = read_conj cj
         <$> Matrix_at m (seg_begin (MakeSegment row (Rows m)) + i)
               (seg_begin (MakeSegment col (Columns m)) + j).
Proof.
  intros Hc Hsize Hi Hj.
  destruct (View_at_untransposed m row col cj i j Hc Hsize Hi Hj) as (x & Hx & Hread).
  split; [rewrite Hread; eauto |]. rewrite Hread.
  unfold ConstMatrixView_new in Hx; simpl in Hx. rewrite Hx. reflexivity.
Qed.

End InPlace.

Section SweepShift.
Context {T : Type} {FC : FloatOrComplex T} {EU : ElementUtils T}.

(** X30. The shift of a sweep of [BidiagonalAlgorithmQR], for the 2x2
    matrix [[[a, b], [c, d]]]: the block the shift is computed from is
    [[[a*a + 0, a*b], [a*b, b*b + d*d]]] (the element [c] is not read), and
    the shift is the value of the shift formula at that block when the
    product [a*b] compares equal to itself, and an abort otherwise. *)
Theorem sweep_shift (a b c d : T) :
  Legacy.Gram_block (Legacy.mkMatrix 2 [a; b; c; d]) 2 2
  = Some (Legacy.mkMatrix 2 [T_add (T_mul a a) T_zero; T_mul a b; T_mul a b;
                             T_add (T_mul b b) (T_mul d d)])
  /\ (BB ← Legacy.Gram_block (Legacy.mkMatrix 2 [a; b; c; d]) 2 2;
      Legacy.GetWilkinsonShift BB)
     = if T_eqb (T_mul a b) (T_mul a b)
       then Some (shift_formula (T_add (T_mul a a) T_zero) (T_mul a b)
                    (T_add (T_mul b b) (T_mul d d)))
       else None.
Proof.
  assert (HBB : Legacy.Gram_block (Legacy.mkMatrix 2 [a; b; c; d]) 2 2
                = Some (Legacy.mkMatrix 2 [T_add (T_mul a a) T_zero; T_mul a b; T_mul a b;
                                           T_add (T_mul b b) (T_mul d d)]))
    by reflexivity.
  split; [exact HBB |]. rewrite HBB. simpl.
  unfold Legacy.GetWilkinsonShift.
  destruct (block_at (T_add (T_mul a a) T_zero) (T_mul a b) (T_mul a b)
              (T_add (T_mul b b) (T_mul d d))) as (-> & -> & -> & ->).
  simpl. destruct (T_eqb (T_mul a b) (T_mul a b)); reflexivity.
Qed.

End SweepShift.


Lemma Transpose_of_vector_witness :
  Transpose (IL := IndexType_64) column_123 = Some (mkMatrix 3 [1; 2; 3]%float).
Proof.
  apply (Transpose_of_vector (IL := IndexType_64) column_123); [right | | | |]; evaluate.
Defined.

Lemma View_ApplyToEach_visits_in_order_witness :
  View_ApplyToEach_values (View matrix_2x3) (fun val acc => Some (acc ++ [val])) []
  = Some [1; 2; 3; 4; 5; 6]%float.
Proof. apply (View_ApplyToEach_visits_in_order matrix_2x3); evaluate. Defined.

Lemma untransposed_view_reads_in_range_witness :
  is_Some (View_at lower_half_4x2 1 0)
  /\ View_at lower_half_4x2 1 0 = read_conj false <$> Matrix_at matrix_4x2 (2 + 1) (0 + 0).
Proof.
  apply (untransposed_view_reads_in_range matrix_4x2 (mkSegment 2 4) default_segment
           false 1 0); evaluate.
Defined.

